(** * MoveSquare: a shallow embedding of [src/MoveSquare/main.cpp]

    The program opens an 800x600 window, drains the event queue once per
    frame, moves a 50x50 square by 5 pixels per frame in the directions
    whose keys are held, clamps the square to the window, draws it and
    sleeps for the rest of a 1/60 s frame.

    Numbers.  The C++ type [float] is IEEE 754 binary32; every operation
    is evaluated in single precision and rounded to nearest, ties to even
    (FLT_EVAL_METHOD 0, the default rounding mode), and so are the
    conversions from integers.  It is modelled with the specification of
    floating-point arithmetic of the standard library ([SpecFloat]) at
    precision 24 and maximal exponent 128.  [Uint64] and [Uint32] are
    modelled as [Z] with the wrap-around written out.  A Position, a move
    speed and a size are finite numbers in the statements below; what the
    arithmetic does to them (rounding, overflow to an infinity) is part of
    the model.

    Effects.  The calls into SDL are recorded in a trace of [Action]s; what
    SDL answers (whether initialisation succeeds, the window size, the
    events queued in each frame, the performance counter) is read from a
    [World].  A world holds finitely many frames: when they are used up
    and no quit event was read, the program is still running.

    The file has three parts: the embedding of the program; the theory of
    single-precision rounding the proofs need (faithful rounding, rounding
    to nearest, the order, exact whole numbers); the properties of the
    program. *)

From Stdlib Require Import ZArith Bool List Lia String.
From Stdlib Require Import Floats.SpecFloat.
Import ListNotations.

Local Open Scope Z_scope.

(** ** Single-precision floating point *)

Module F32.

Definition prec : Z := 24.
Definition emax : Z := 128.

Definition float := spec_float.

Definition valid (x : float) : bool := valid_binary prec emax x.

Definition add (x y : float) : float := SFadd prec emax x y.
Definition sub (x y : float) : float := SFsub prec emax x y.
Definition mul (x y : float) : float := SFmul prec emax x y.
Definition div (x y : float) : float := SFdiv prec emax x y.

(** [x < y] and [x > y] of C++: false as soon as an operand is a NaN. *)
Definition ltb (x y : float) : bool := SFltb x y.
Definition gtb (x y : float) : bool := SFltb y x.
Definition leb (x y : float) : bool := SFleb x y.
Definition eqb (x y : float) : bool := SFeqb x y.

(** Conversion of an integer ([static_cast<float>], or the implicit
    conversion of an integer operand), rounding to nearest. *)
Definition of_Z (n : Z) : float := binary_normalize prec emax n 0 false.

Definition zero : float := S754_zero false.

Definition is_nan (x : float) : bool :=
  match x with S754_nan => true | _ => false end.

Definition is_finite (x : float) : bool :=
  match x with S754_zero _ | S754_finite _ _ _ => true | _ => false end.

(** Truncation toward zero of a finite number. *)
Definition trunc (x : float) : option Z :=
  match x with
  | S754_zero _ => Some 0
  | S754_finite s m e => Some (cond_Zopp s (Z.shiftl (Zpos m) e))
  | _ => None
  end.

(** The cast [(Uint32)x].  The behaviour is undefined ([None]) when the
    truncated value does not fit in 32 bits. *)
Definition to_Uint32 (x : float) : option Z :=
  match trunc x with
  | Some n => if (0 <=? n) && (n <? 2 ^ 32) then Some n else None
  | None => None
  end.

(** The value of a finite number in units of [2^-149], the spacing of the
    subnormal numbers: every finite binary32 number is a whole number of
    these units. *)
Definition units (x : float) : Z :=
  match x with
  | S754_finite s m e => cond_Zopp s (Zpos m * 2 ^ (e + 149))
  | _ => 0
  end.

(** One unit of integer value: [n] pixels or milliseconds are
    [n * one_unit] units. *)
Definition one_unit : Z := 2 ^ 149.

(** An order-preserving image of the numbers that are not NaN: the units
    of a finite number, and a number beyond all of them for an infinity. *)
Definition beyond : Z := 2 ^ 300.

Definition ord (x : float) : Z :=
  match x with
  | S754_infinity false => beyond
  | S754_infinity true => - beyond
  | _ => units x
  end.

(** The sign bit is clear, or the number is a NaN. *)
Definition sign_clear (x : float) : bool :=
  match x with
  | S754_zero s | S754_infinity s | S754_finite s _ _ => negb s
  | S754_nan => true
  end.

End F32.

Abbreviation float := F32.float.

(** ** Constants of SDL3 used by the program *)

Module SDL.
Definition SDL_EVENT_QUIT : Z := 256.      (* 0x100 *)
Definition SDL_EVENT_KEY_DOWN : Z := 768.  (* 0x300 *)
Definition SDL_EVENT_KEY_UP : Z := 769.    (* 0x301 *)
Definition SDL_SCANCODE_A : Z := 4.
Definition SDL_SCANCODE_D : Z := 7.
Definition SDL_SCANCODE_S : Z := 22.
Definition SDL_SCANCODE_W : Z := 26.
End SDL.
Import SDL.

(** ** Data *)

Record Position := { squareX : float; squareY : float }.

Record MovementIntent := {
  movingUp : bool;
  movingDown : bool;
  movingLeft : bool;
  movingRight : bool
}.

(** The part of [SDL_Event] the program reads: [event.type] and
    [event.key.scancode]. *)
Record SDL_Event := { ev_type : Z; ev_scancode : Z }.

(** The variables of [main] that live across iterations. *)
Record Game := {
  position : Position;
  intent : MovementIntent;
  running : bool
}.

(** ** Step 2: the variables *)

Definition squareSize : float := F32.of_Z 50.
Definition moveSpeed : float := F32.of_Z 5.
Definition initialPosition : Position :=
  {| squareX := F32.of_Z 100; squareY := F32.of_Z 100 |}.
Definition noIntent : MovementIntent :=
  {| movingUp := false; movingDown := false;
     movingLeft := false; movingRight := false |}.
Definition initialGame : Game :=
  {| position := initialPosition; intent := noIntent; running := true |}.

Definition targetFrameTimeMS : float := F32.div (F32.of_Z 1000) (F32.of_Z 60).

(** ** Step 4: the event switch (lines 67-115) *)

Definition set_running (g : Game) (b : bool) : Game :=
  {| position := position g; intent := intent g; running := b |}.

Definition set_intent (g : Game) (i : MovementIntent) : Game :=
  {| position := position g; intent := i; running := running g |}.

Definition set_key (i : MovementIntent) (scancode : Z) (b : bool) : MovementIntent :=
  if scancode =? SDL_SCANCODE_W then
    {| movingUp := b; movingDown := movingDown i;
       movingLeft := movingLeft i; movingRight := movingRight i |}
  else if scancode =? SDL_SCANCODE_S then
    {| movingUp := movingUp i; movingDown := b;
       movingLeft := movingLeft i; movingRight := movingRight i |}
  else if scancode =? SDL_SCANCODE_A then
    {| movingUp := movingUp i; movingDown := movingDown i;
       movingLeft := b; movingRight := movingRight i |}
  else if scancode =? SDL_SCANCODE_D then
    {| movingUp := movingUp i; movingDown := movingDown i;
       movingLeft := movingLeft i; movingRight := b |}
  else i.

Definition process_event (g : Game) (e : SDL_Event) : Game :=
  if ev_type e =? SDL_EVENT_QUIT then set_running g false
  else if ev_type e =? SDL_EVENT_KEY_DOWN then
    set_intent g (set_key (intent g) (ev_scancode e) true)
  else if ev_type e =? SDL_EVENT_KEY_UP then
    set_intent g (set_key (intent g) (ev_scancode e) false)
  else g.

(** [while (SDL_PollEvent(&event))]: the queued events, oldest first. *)
Definition drain_events (g : Game) (queue : list SDL_Event) : Game :=
  fold_left process_event queue g.

(** ** Step 5: the update (lines 121-130) *)

Section Update.
Variables (speed size windowWidth windowHeight : float).

(** Lines 121-124. *)
Definition apply_movement (i : MovementIntent) (p : Position) : Position :=
  let y := squareY p in
  let x := squareX p in
  let y := if movingUp i then F32.sub y speed else y in
  let y := if movingDown i then F32.add y speed else y in
  let x := if movingLeft i then F32.sub x speed else x in
  let x := if movingRight i then F32.add x speed else x in
  {| squareX := x; squareY := y |}.

(** Lines 127-130. *)
Definition clamp (p : Position) : Position :=
  let x := squareX p in
  let y := squareY p in
  let x := if F32.ltb x F32.zero then F32.zero else x in
  let y := if F32.ltb y F32.zero then F32.zero else y in
  let x := if F32.gtb (F32.add x size) windowWidth
           then F32.sub windowWidth size else x in
  let y := if F32.gtb (F32.add y size) windowHeight
           then F32.sub windowHeight size else y in
  {| squareX := x; squareY := y |}.

Definition position_updater (i : MovementIntent) (p : Position) : Position :=
  clamp (apply_movement i p).
End Update.

(** ** Step 7: frame pacing (lines 151-156) *)

(** A value of type [Uint64]. *)
Definition Uint64 (z : Z) : Z := z mod 2 ^ 64.

Definition elapsedMS (frameStart frameEnd frequency : Z) : float :=
  F32.mul
    (F32.div (F32.of_Z (Uint64 (frameEnd - frameStart)))
             (F32.of_Z (Uint64 frequency)))
    (F32.of_Z 1000).

Inductive Pace :=
| NoDelay
| Delay (ms : Z)
| UndefinedDelay.

Definition frame_pacer (elapsed : float) : Pace :=
  if F32.ltb elapsed targetFrameTimeMS then
    match F32.to_Uint32 (F32.sub targetFrameTimeMS elapsed) with
    | Some ms => Delay ms
    | None => UndefinedDelay
    end
  else NoDelay.

(** ** The calls into SDL and the answers of the world *)

Inductive Action :=
| SDL_Init (ok : bool)
| SDL_Log (msg : string)
| SDL_CreateWindowAndRenderer (title : string) (w h : Z) (ok : bool)
| SDL_SetRenderDrawColor (r g b a : Z)
| SDL_RenderClear
| SDL_RenderFillRect (x y w h : float)
| SDL_RenderPresent
| SDL_Delay (ms : Z)
| SDL_DestroyRenderer
| SDL_DestroyWindow
| SDL_Quit.

(** What one iteration reads: the events queued when the drain loop starts
    (oldest first) and the two readings of the performance counter. *)
Record Frame := {
  queue : list SDL_Event;
  frameStart : Z;
  frameEnd : Z
}.

Record World := {
  init_ok : bool;              (* SDL_Init *)
  create_ok : bool;            (* SDL_CreateWindowAndRenderer *)
  windowWidthInt : Z;          (* SDL_GetWindowSize *)
  windowHeightInt : Z;
  frequency : Z;               (* SDL_GetPerformanceFrequency *)
  frames : list Frame
}.

(** ** Step 6: rendering (lines 134-143) *)

Definition render (p : Position) : list Action :=
  [ SDL_SetRenderDrawColor 0 0 0 255;
    SDL_RenderClear;
    SDL_SetRenderDrawColor 255 0 0 255;
    SDL_RenderFillRect (squareX p) (squareY p) squareSize squareSize;
    SDL_RenderPresent ].

Definition delay_actions (p : Pace) : list Action :=
  match p with
  | Delay ms => [SDL_Delay ms]
  | _ => []
  end.

(** ** The loop (lines 55-157) *)

Inductive LoopResult :=
| Stopped (g : Game) (trace : list Action)      (* [running] became false *)
| Unfinished (g : Game) (trace : list Action)   (* no frame left, still running *)
| Undefined (trace : list Action).              (* an out-of-range cast *)

Definition after (t : list Action) (r : LoopResult) : LoopResult :=
  match r with
  | Stopped g t' => Stopped g (t ++ t')
  | Unfinished g t' => Unfinished g (t ++ t')
  | Undefined t' => Undefined (t ++ t')
  end.

Section Loop.
Variables (windowWidth windowHeight : float) (freq : Z).

Definition update (g : Game) : Game :=
  {| position := position_updater moveSpeed squareSize windowWidth windowHeight
                   (intent g) (position g);
     intent := intent g;
     running := running g |}.

(** The state at line 131 of one iteration. *)
Definition frame_state (g : Game) (f : Frame) : Game :=
  update (drain_events g (queue f)).

Definition frame_pace (f : Frame) : Pace :=
  frame_pacer (elapsedMS (frameStart f) (frameEnd f) freq).

(** What one iteration calls after the drain. *)
Definition frame_trace (g : Game) (f : Frame) : list Action :=
  render (position (frame_state g f)) ++ delay_actions (frame_pace f).

Fixpoint game_loop (g : Game) (fs : list Frame) : LoopResult :=
  if running g then
    match fs with
    | [] => Unfinished g []
    | f :: fs' =>
        match frame_pace f with
        | UndefinedDelay => Undefined (render (position (frame_state g f)))
        | _ => after (frame_trace g f) (game_loop (frame_state g f) fs')
        end
    end
  else Stopped g [].
End Loop.

(** ** [main] *)

Inductive Outcome :=
| Exited (code : Z) (trace : list Action)
| StillRunning (trace : list Action)
| UndefinedBehaviour (trace : list Action).

Definition main (w : World) : Outcome :=
  if negb (init_ok w) then
    Exited 1 [ SDL_Init false; SDL_Log "Failed to initialize video! %s" ]
  else
    let create :=
      SDL_CreateWindowAndRenderer "Simple Game Loop" 800 600 (create_ok w) in
    if negb (create_ok w) then
      Exited 1 [ SDL_Init true; create;
                 SDL_Log "Failed to create window and renderer: %s"; SDL_Quit ]
    else
      let windowWidth := F32.of_Z (windowWidthInt w) in
      let windowHeight := F32.of_Z (windowHeightInt w) in
      match game_loop windowWidth windowHeight (frequency w) initialGame (frames w) with
      | Stopped _ t =>
          Exited 0 ([ SDL_Init true; create ] ++ t ++
                    [ SDL_DestroyRenderer; SDL_DestroyWindow; SDL_Quit ])
      | Unfinished _ t => StillRunning ([ SDL_Init true; create ] ++ t)
      | Undefined t => UndefinedBehaviour ([ SDL_Init true; create ] ++ t)
      end.

(** ** Resources held after a trace *)

Inductive Resource := Subsystem | Window | Renderer.

Definition Resource_eqb (a b : Resource) : bool :=
  match a, b with
  | Subsystem, Subsystem | Window, Window | Renderer, Renderer => true
  | _, _ => false
  end.

Definition release (r : Resource) (held : list Resource) : list Resource :=
  filter (fun r' => negb (Resource_eqb r r')) held.

Definition held_after (held : list Resource) (a : Action) : list Resource :=
  match a with
  | SDL_Init true => Subsystem :: held
  | SDL_CreateWindowAndRenderer _ _ _ true => Renderer :: Window :: held
  | SDL_DestroyRenderer => release Renderer held
  | SDL_DestroyWindow => release Window held
  | SDL_Quit => release Subsystem held
  | _ => held
  end.

Definition held (t : list Action) : list Resource := fold_left held_after t [].

Definition is_quit (e : SDL_Event) : bool := ev_type e =? SDL_EVENT_QUIT.

Definition quit_in (f : Frame) : bool := existsb is_quit (queue f).

Definition is_present (a : Action) : bool :=
  match a with SDL_RenderPresent => true | _ => false end.

Definition is_destroy_renderer (a : Action) : bool :=
  match a with SDL_DestroyRenderer => true | _ => false end.

Definition is_destroy_window (a : Action) : bool :=
  match a with SDL_DestroyWindow => true | _ => false end.

Definition count (p : Action -> bool) (t : list Action) : nat :=
  List.length (filter p t).

(** * Definitions used by the statements and the proofs *)

(** ** Rounding *)

(** A digit other than zero was shifted out. *)
Definition inexact (r : shr_record) : bool := shr_r r || shr_s r.

(** The result of rounding the mantissa [m2] at exponent [t]. *)
Definition rounded (sx : bool) (m2 t : Z) (r : float) : Prop :=
  (m2 = 0 /\ r = S754_zero sx) \/
  (0 < m2 /\ m2 * 2 ^ (t + 149) < 2 ^ 277 /\
   exists m e, r = S754_finite sx m e /\ bounded F32.prec F32.emax m e = true /\
               Zpos m * 2 ^ (e + 149) = m2 * 2 ^ (t + 149)) \/
  (0 < m2 /\ 2 ^ 277 <= m2 * 2 ^ (t + 149) /\ r = S754_infinity sx).

(** The exponent, counted in units, at which a positive number of units
    is rounded. *)
Definition round_exp (V : Z) : Z := Z.max (Zdigits2 V - 24) 0.

(** [rounds_to S r]: [r] is a faithful rounding of the exact result of [S]
    units: no finite number lies strictly between them. *)
Definition rounds_to (S : Z) (r : float) : Prop :=
  F32.valid r = true /\ F32.is_nan r = false /\
  forall f, F32.valid f = true -> F32.is_finite f = true ->
    (F32.units f <= S -> F32.ord f <= F32.ord r) /\
    (S <= F32.units f -> F32.ord r <= F32.ord f).

(** A finite number in its canonical representation. *)
Definition real (x : float) : bool := F32.valid x && F32.is_finite x.

(** A number in its canonical representation that is not a NaN. *)
Definition ordered (x : float) : bool := F32.valid x && negb (F32.is_nan x).

(** The smallest positive number: one unit. *)
Definition tiny : float := S754_finite false 1 (-149).

(** ** One axis of the update *)

(** Lines 121-122, or 123-124. *)
Definition move_axis (speed : float) (minus plus : bool) (v : float) : float :=
  let v := if minus then F32.sub v speed else v in
  if plus then F32.add v speed else v.

(** Lines 127 and 129, or 128 and 130. *)
Definition clamp_low (v : float) : float :=
  if F32.ltb v F32.zero then F32.zero else v.

Definition clamp_high (size limit v : float) : float :=
  if F32.gtb (F32.add v size) limit then F32.sub limit size else v.

Definition clamp_axis (size limit v : float) : float :=
  clamp_high size limit (clamp_low v).

(** ** Rounding to nearest *)

(** The location of a number with respect to the midpoint of the interval of
    length [2^n] in which it lies. *)
Definition location_of (rem n : Z) : location :=
  if rem =? 0 then loc_Exact else loc_Inexact (2 * rem ?= 2 ^ n).

(** [m2] is [q] rounded to nearest, ties to even, given the remainder
    [rem] of the division by [2^n]. *)
Definition nearest_even (q rem n m2 : Z) : Prop :=
  (m2 = q /\ (2 * rem < 2 ^ n \/ (2 * rem = 2 ^ n /\ Z.even q = true))) \/
  (m2 = q + 1 /\ (2 ^ n < 2 * rem \/ (2 * rem = 2 ^ n /\ Z.even q = false))).

(** [rounds_nearest S r]: [r] is the exact result of [S] units, not zero,
    rounded to nearest, ties to even. *)
Definition rounds_nearest (S : Z) (r : float) : Prop :=
  let V := Z.abs S in
  let T := round_exp V in
  exists m2,
    nearest_even (V / 2 ^ T) (V mod 2 ^ T) T m2 /\ rounded (S <? 0) m2 (T - 149) r.

(** [whole x n]: [x] is the whole number [n]. *)
Definition whole (x : float) (n : Z) : Prop :=
  real x = true /\ F32.units x = n * F32.one_unit.

(** ** The loop, frame by frame *)

Section LoopTrace.
Variables (windowWidth windowHeight : float) (freq : Z).

(** The state after the iterations that read [fs], and what they call. *)
Definition loop_state (g : Game) (fs : list Frame) : Game :=
  fold_left (frame_state windowWidth windowHeight) fs g.

Fixpoint loop_trace (g : Game) (fs : list Frame) : list Action :=
  match fs with
  | [] => []
  | f :: fs' =>
      frame_trace windowWidth windowHeight freq g f ++
      loop_trace (frame_state windowWidth windowHeight g f) fs'
  end.
End LoopTrace.

(** The calls that neither acquire nor release a resource. *)
Definition neutral (a : Action) : bool :=
  match a with
  | SDL_Init _ | SDL_CreateWindowAndRenderer _ _ _ _
  | SDL_DestroyRenderer | SDL_DestroyWindow | SDL_Quit => false
  | _ => true
  end.

Definition is_log (a : Action) : bool :=
  match a with SDL_Log _ => true | _ => false end.

(** ** The bounds invariant *)

(** [0 <= x <= windowWidth - size] and [0 <= y <= windowHeight - size],
    with the comparisons and the subtraction of the program. *)
Definition in_bounds (size windowWidth windowHeight : float) (p : Position) : bool :=
  F32.leb F32.zero (squareX p) && F32.leb (squareX p) (F32.sub windowWidth size) &&
  F32.leb F32.zero (squareY p) && F32.leb (squareY p) (F32.sub windowHeight size).

(** The same bounds in the form of the test of the program:
    [0 <= x], [x + size <= windowWidth], [0 <= y], [y + size <= windowHeight],
    with the sum of lines 129 and 130. *)
Definition in_bounds_sum (size windowWidth windowHeight : float) (p : Position) : bool :=
  F32.leb F32.zero (squareX p) && F32.leb (F32.add (squareX p) size) windowWidth &&
  F32.leb F32.zero (squareY p) && F32.leb (F32.add (squareY p) size) windowHeight.

(** A position with finite coordinates. *)
Definition real_position (p : Position) : bool :=
  real (squareX p) && real (squareY p).

(** ** Inputs of the examples *)

Definition window800 : float := F32.of_Z 800.
Definition window600 : float := F32.of_Z 600.

Definition allIntents : MovementIntent :=
  {| movingUp := true; movingDown := true;
     movingLeft := true; movingRight := true |}.

Definition rightIntent : MovementIntent :=
  {| movingUp := false; movingDown := false;
     movingLeft := false; movingRight := true |}.

Definition key_down (scancode : Z) : SDL_Event :=
  {| ev_type := SDL_EVENT_KEY_DOWN; ev_scancode := scancode |}.


Definition quit_event : SDL_Event :=
  {| ev_type := SDL_EVENT_QUIT; ev_scancode := 0 |}.

(** A frame that took 5 ms on a counter of 1 GHz. *)
Definition frame_of (q : list SDL_Event) : Frame :=
  {| queue := q; frameStart := 0; frameEnd := 5000000 |}.

Definition world_of (fs : list Frame) : World :=
  {| init_ok := true; create_ok := true;
     windowWidthInt := 800; windowHeightInt := 600;
     frequency := 1000000000; frames := fs |}.

(** [W] is pressed and the window is closed within one drain. *)
Definition quit_world : World :=
  world_of [ frame_of [ key_down SDL_SCANCODE_W; quit_event ] ].

(** 500 + 2^-15: the number that follows 500. *)
Definition after500 : float := S754_finite false 16384001 (-15).

Definition size300 : float := F32.of_Z 300.

(** 2^25 pixels per frame. *)
Definition speed2p25 : float := F32.of_Z 33554432.

(** The single-precision number nearest to 0.1. *)
Definition tenth : float := S754_finite false 13421773 (-27).

Definition tenthPosition : Position := {| squareX := tenth; squareY := tenth |}.

Definition unitPosition : Position :=
  {| squareX := F32.of_Z 1; squareY := F32.of_Z 1 |}.

(** (-30, 900): left of and below the window. *)
Definition outsidePosition : Position :=
  {| squareX := F32.of_Z (-30); squareY := F32.of_Z 900 |}.




(** ** Definitions of the further properties *)

(** What one event does to the flag of the key [scancode]. *)
Definition key_after (scancode : Z) (b : bool) (e : SDL_Event) : bool :=
  if (ev_type e =? SDL_EVENT_KEY_DOWN) && (ev_scancode e =? scancode) then true
  else if (ev_type e =? SDL_EVENT_KEY_UP) && (ev_scancode e =? scancode) then false
  else b.

(** The flag of the key [scancode] after the events [q], from [b]: the
    last press or release of that key decides. *)
Definition key_state (scancode : Z) (b : bool) (q : list SDL_Event) : bool :=
  fold_left (key_after scancode) q b.

(** The calls of a run, whatever its outcome. *)
Definition trace_of (o : Outcome) : list Action :=
  match o with
  | Exited _ t | StillRunning t | UndefinedBehaviour t => t
  end.

(** What a call uses: it must be held when the call is made. *)
Definition needs (a : Action) : list Resource :=
  match a with
  | SDL_CreateWindowAndRenderer _ _ _ _ => [Subsystem]
  | SDL_SetRenderDrawColor _ _ _ _ | SDL_RenderClear
  | SDL_RenderFillRect _ _ _ _ | SDL_RenderPresent => [Renderer]
  | SDL_DestroyRenderer => [Renderer]
  | SDL_DestroyWindow => [Window]
  | SDL_Quit => [Subsystem]
  | _ => []
  end.

Definition holds (held : list Resource) (r : Resource) : bool :=
  existsb (Resource_eqb r) held.

(** Every call of [t] finds what it uses, starting with [held]. *)
Fixpoint protocol_ok (held : list Resource) (t : list Action) : bool :=
  match t with
  | [] => true
  | a :: t' => forallb (holds held) (needs a) && protocol_ok (held_after held a) t'
  end.

(** A requested delay is one of 0 to 16 ms. *)
Definition delay_ok (a : Action) : bool :=
  match a with
  | SDL_Delay ms => (0 <=? ms) && (ms <=? 16)
  | _ => true
  end.

(** A rectangle that is drawn is the 50x50 square within the 800x600
    window, at finite coordinates. *)
Definition rect_ok (a : Action) : bool :=
  match a with
  | SDL_RenderFillRect x y w h =>
      real x && real y &&
      in_bounds squareSize window800 window600 {| squareX := x; squareY := y |}
  | _ => true
  end.

(** The update in whole numbers of pixels: lines 121-124 and 127-130 on
    one axis, in integer arithmetic. *)
Definition move_axis_Z (speed : Z) (minus plus : bool) (v : Z) : Z :=
  let v := if minus then v - speed else v in
  if plus then v + speed else v.

Definition clamp_axis_Z (size limit v : Z) : Z :=
  let v := if v <? 0 then 0 else v in
  if limit <? v + size then limit - size else v.

(** The largest finite number. *)
Definition max_float : float := S754_finite false 16777215 104.

(** The largest finite number and minus infinity. *)
Definition overflowPosition : Position :=
  {| squareX := max_float; squareY := S754_infinity true |}.

(** The delay that a frame is given, in ms; none counts as 0. *)
Definition delay_of (p : Pace) : Z :=
  match p with
  | Delay ms => ms
  | _ => 0
  end.

(** * Single precision: rounding, order and the operations *)

(** ** Digits *)

Lemma digits2_pos_size (p : positive) : digits2_pos p = Pos.size p.
Proof. induction p; simpl; congruence. Qed.

Lemma digits2_pos_bounds (p : positive) :
  2 ^ (Zpos (digits2_pos p) - 1) <= Zpos p < 2 ^ Zpos (digits2_pos p).
Proof.
  induction p as [p IH | p IH | ]; cbn [digits2_pos].
  - rewrite Pos2Z.inj_succ.
    replace (Z.succ (Zpos (digits2_pos p)) - 1) with (Z.succ (Zpos (digits2_pos p) - 1)) by lia.
    rewrite !Z.pow_succ_r by lia. lia.
  - rewrite Pos2Z.inj_succ.
    replace (Z.succ (Zpos (digits2_pos p)) - 1) with (Z.succ (Zpos (digits2_pos p) - 1)) by lia.
    rewrite !Z.pow_succ_r by lia. lia.
  - simpl. lia.
Qed.

(** The number of digits is determined by the two powers of two that
    enclose the number. *)
Lemma digits2_pos_unique (p : positive) (d : Z) :
  2 ^ (d - 1) <= Zpos p < 2 ^ d -> Zpos (digits2_pos p) = d.
Proof.
  intros [Hlo Hhi].
  pose proof (digits2_pos_bounds p) as [Hlo' Hhi'].
  assert (0 < d).
  { destruct (Z.ltb_spec 0 d); [assumption|].
    destruct (Z.eq_dec d 0) as [->|]; [simpl in Hhi; lia|].
    rewrite Z.pow_neg_r in Hhi by lia. lia. }
  destruct (Z.lt_trichotomy (Zpos (digits2_pos p)) d) as [Hlt | [Heq | Hgt]]; [|exact Heq|].
  - assert (2 ^ Zpos (digits2_pos p) <= 2 ^ (d - 1)) by (apply Z.pow_le_mono_r; lia). lia.
  - assert (2 ^ d <= 2 ^ (Zpos (digits2_pos p) - 1)) by (apply Z.pow_le_mono_r; lia). lia.
Qed.

Lemma Zdigits2_nonneg (m : Z) : 0 <= Zdigits2 m.
Proof. destruct m; simpl; lia. Qed.

Lemma Zdigits2_pos (m : Z) : 0 < m -> 0 < Zdigits2 m.
Proof. destruct m; cbn [Zdigits2]; lia. Qed.

Lemma Zdigits2_bounds (m : Z) :
  0 < m -> 2 ^ (Zdigits2 m - 1) <= m < 2 ^ Zdigits2 m.
Proof. destruct m; try lia. intros _. apply digits2_pos_bounds. Qed.

Lemma Zdigits2_unique (m d : Z) :
  0 < m -> 2 ^ (d - 1) <= m < 2 ^ d -> Zdigits2 m = d.
Proof. destruct m; try lia. intros _. apply digits2_pos_unique. Qed.

(** Shifting to the left adds digits. *)
Lemma Zdigits2_shiftl (m k : Z) :
  0 < m -> 0 <= k -> Zdigits2 (m * 2 ^ k) = Zdigits2 m + k.
Proof.
  intros Hm Hk. pose proof (Zdigits2_bounds m Hm) as [Hlo Hhi].
  assert (0 < 2 ^ k) by (apply Z.pow_pos_nonneg; lia).
  apply Zdigits2_unique; [apply Z.mul_pos_pos; lia|].
  replace (Zdigits2 m + k - 1) with ((Zdigits2 m - 1) + k) by lia.
  pose proof (Zdigits2_pos m Hm).
  rewrite !Z.pow_add_r by lia. nia.
Qed.

(** Shifting to the right removes digits, as long as some are left. *)
Lemma Zdigits2_shiftr (m k : Z) :
  0 < m -> 0 <= k < Zdigits2 m -> Zdigits2 (m / 2 ^ k) = Zdigits2 m - k /\ 0 < m / 2 ^ k.
Proof.
  intros Hm Hk. pose proof (Zdigits2_bounds m Hm) as [Hlo Hhi].
  assert (Hp : 0 < 2 ^ k) by (apply Z.pow_pos_nonneg; lia).
  assert (Hlo' : 2 ^ (Zdigits2 m - k - 1) <= m / 2 ^ k).
  { apply Z.div_le_lower_bound; [lia|].
    rewrite <- Z.pow_add_r by lia.
    replace (k + (Zdigits2 m - k - 1)) with (Zdigits2 m - 1) by lia. exact Hlo. }
  assert (Hhi' : m / 2 ^ k < 2 ^ (Zdigits2 m - k)).
  { apply Z.div_lt_upper_bound; [lia|].
    rewrite <- Z.pow_add_r by lia.
    replace (k + (Zdigits2 m - k)) with (Zdigits2 m) by lia. exact Hhi. }
  assert (0 < 2 ^ (Zdigits2 m - k - 1)) by (apply Z.pow_pos_nonneg; lia).
  split; [apply Zdigits2_unique; [lia|] | lia].
  split; [assumption|assumption].
Qed.

(** ** The shift to the right with its round and sticky bits *)

Lemma shr_1_spec (r : shr_record) :
  0 <= shr_m r ->
  shr_m (shr_1 r) = shr_m r / 2 /\
  inexact (shr_1 r) = inexact r || negb (shr_m r mod 2 =? 0).
Proof.
  destruct r as [m r s]. unfold inexact. cbn [shr_m shr_r shr_s].
  intros Hm. destruct m as [ | [p | p | ] | p]; try lia; cbn [shr_1 shr_m shr_r shr_s].
  - split; [reflexivity | destruct r, s; reflexivity].
  - split.
    + rewrite Pos2Z.inj_xI. apply Z.div_unique with (r := 1); lia.
    + replace (Zpos p~1 mod 2) with 1.
      * destruct r, s; reflexivity.
      * rewrite Pos2Z.inj_xI. apply Z.mod_unique with (q := Zpos p); lia.
  - split.
    + rewrite Pos2Z.inj_xO. apply Z.div_unique with (r := 0); lia.
    + replace (Zpos p~0 mod 2) with 0.
      * destruct r, s; reflexivity.
      * rewrite Pos2Z.inj_xO. apply Z.mod_unique with (q := Zpos p); lia.
  - split; [reflexivity | destruct r, s; reflexivity].
Qed.

Lemma mod_mul_zero (m a b : Z) :
  0 < a -> 0 < b ->
  (m mod (a * b) =? 0) = (m mod a =? 0) && ((m / a) mod b =? 0).
Proof.
  intros Ha Hb. rewrite Z.rem_mul_r by lia.
  pose proof (Z.mod_pos_bound m a Ha). pose proof (Z.mod_pos_bound (m / a) b Hb).
  destruct (Z.eqb_spec (m mod a + a * ((m / a) mod b)) 0);
    destruct (Z.eqb_spec (m mod a) 0); destruct (Z.eqb_spec ((m / a) mod b) 0);
    simpl; try reflexivity; nia.
Qed.

Lemma shr_step_compose (m a b : Z) (i i1 i2 : bool) :
  0 < a -> 0 < b ->
  i1 = i || negb (m mod a =? 0) ->
  i2 = i1 || negb ((m / a) mod b =? 0) ->
  m / a / b = m / (a * b) /\ i2 = i || negb (m mod (a * b) =? 0).
Proof.
  intros Ha Hb -> ->. split.
  - apply Z.div_div; lia.
  - rewrite (mod_mul_zero m a b Ha Hb).
    destruct i, (m mod a =? 0), ((m / a) mod b =? 0); reflexivity.
Qed.

Lemma pow2_xI (n : positive) : 2 ^ Zpos n~1 = 2 * 2 ^ Zpos n * 2 ^ Zpos n.
Proof. rewrite (Pos2Z.inj_xI n), Z.pow_add_r, Z.pow_twice_r by lia. lia. Qed.

Lemma pow2_xO (n : positive) : 2 ^ Zpos n~0 = 2 ^ Zpos n * 2 ^ Zpos n.
Proof. rewrite (Pos2Z.inj_xO n), Z.pow_twice_r. reflexivity. Qed.

Lemma iter_pos_shr_1 (n : positive) (r : shr_record) :
  0 <= shr_m r ->
  shr_m (iter_pos shr_1 n r) = shr_m r / 2 ^ Zpos n /\
  inexact (iter_pos shr_1 n r) = inexact r || negb (shr_m r mod 2 ^ Zpos n =? 0).
Proof.
  revert r. induction n as [n IH | n IH | ]; intros r Hr; cbn [iter_pos].
  - destruct (shr_1_spec r Hr) as [E1 I1].
    assert (Hp : 0 < 2 ^ Zpos n) by (apply Z.pow_pos_nonneg; lia).
    assert (H1 : 0 <= shr_m (shr_1 r)) by (rewrite E1; apply Z.div_pos; lia).
    destruct (IH _ H1) as [E2 I2].
    assert (H2 : 0 <= shr_m (iter_pos shr_1 n (shr_1 r))) by (rewrite E2; apply Z.div_pos; lia).
    destruct (IH _ H2) as [E3 I3].
    rewrite E1 in E2, I2. rewrite E2 in E3, I3.
    destruct (shr_step_compose (shr_m r) 2 (2 ^ Zpos n) _ _ _ ltac:(lia) Hp I1 I2) as [D1 J1].
    rewrite D1 in E3, I3.
    assert (Hq : 0 < 2 * 2 ^ Zpos n) by lia.
    destruct (shr_step_compose (shr_m r) (2 * 2 ^ Zpos n) (2 ^ Zpos n) _ _ _ Hq Hp J1 I3) as [D2 J2].
    rewrite D2 in E3. rewrite pow2_xI. split; assumption.
  - assert (Hp : 0 < 2 ^ Zpos n) by (apply Z.pow_pos_nonneg; lia).
    destruct (IH _ Hr) as [E2 I2].
    assert (H2 : 0 <= shr_m (iter_pos shr_1 n r)) by (rewrite E2; apply Z.div_pos; lia).
    destruct (IH _ H2) as [E3 I3].
    rewrite E2 in E3, I3.
    destruct (shr_step_compose (shr_m r) (2 ^ Zpos n) (2 ^ Zpos n) _ _ _ Hp Hp I2 I3) as [D2 J2].
    rewrite D2 in E3. rewrite pow2_xO. split; assumption.
  - apply shr_1_spec; assumption.
Qed.

(** ** Rounding to nearest, ties to even *)

Lemma round_nearest_even_cases (m : Z) (l : location) :
  round_nearest_even m l = m \/
  (round_nearest_even m l = m + 1 /\ l <> loc_Exact).
Proof.
  destruct l as [ | [ | | ]]; cbn [round_nearest_even];
    try destruct (Z.even m); try (left; reflexivity);
    right; (split; [reflexivity | discriminate]).
Qed.

Lemma loc_of_shr_record_exact (r : shr_record) :
  loc_of_shr_record r = loc_Exact <-> inexact r = false.
Proof.
  destruct r as [m [ | ] [ | ]]; unfold inexact; cbn; split; intros H;
    congruence || discriminate.
Qed.

Lemma inexact_of_loc_exact (m : Z) : inexact (shr_record_of_loc m loc_Exact) = false.
Proof. reflexivity. Qed.

Lemma shr_m_of_loc (m : Z) (l : location) : shr_m (shr_record_of_loc m l) = m.
Proof. destruct l as [ | [ | | ]]; reflexivity. Qed.

(** ** The shift to the left *)

Lemma iter_xO (d m : positive) : Zpos (Pos.iter xO m d) = Zpos m * 2 ^ Zpos d.
Proof.
  induction d as [ | d IH] using Pos.peano_ind.
  - simpl. lia.
  - rewrite Pos.iter_succ, (Pos2Z.inj_xO (Pos.iter xO m d)), IH, Pos2Z.inj_succ,
      Z.pow_succ_r by lia. lia.
Qed.

Lemma fexp_eq (e : Z) : fexp F32.prec F32.emax e = Z.max (e - 24) (-149).
Proof. reflexivity. Qed.

Lemma pow2_pos (k : Z) : 0 <= k -> 0 < 2 ^ k.
Proof. intros. apply Z.pow_pos_nonneg; lia. Qed.

Lemma shr_fexp_spec (m e : Z) (l : location) :
  0 <= m -> e <= fexp F32.prec F32.emax (Zdigits2 m + e) ->
  let t := fexp F32.prec F32.emax (Zdigits2 m + e) in
  let r := shr_fexp F32.prec F32.emax m e l in
  snd r = t /\ shr_m (fst r) = m / 2 ^ (t - e) /\
  inexact (fst r) = inexact (shr_record_of_loc m l) || negb (m mod 2 ^ (t - e) =? 0).
Proof.
  intros Hm He t r. subst r. unfold shr_fexp. fold t.
  unfold shr. destruct (t - e) as [ | n | n] eqn:En; cbn [fst snd]; try lia.
  - rewrite shr_m_of_loc, Z.pow_0_r, Z.div_1_r, Z.mod_1_r. simpl.
    rewrite orb_false_r. repeat split; lia.
  - destruct (iter_pos_shr_1 n (shr_record_of_loc m l)) as [E I].
    + rewrite shr_m_of_loc. assumption.
    + rewrite shr_m_of_loc in E, I. repeat split; [lia | assumption | assumption].
Qed.

(** What the first shift leaves: at most 24 digits, and exactly 24 above
    the subnormal range. *)
Lemma shifted_mantissa_bounds (m e : Z) :
  0 <= m -> e <= fexp F32.prec F32.emax (Zdigits2 m + e) ->
  let t := fexp F32.prec F32.emax (Zdigits2 m + e) in
  let q := m / 2 ^ (t - e) in
  -149 <= t /\ 0 <= q < 2 ^ 24 /\ (t <> -149 -> 2 ^ 23 <= q).
Proof.
  intros Hm He t q. subst q. rewrite fexp_eq in He. unfold t. rewrite fexp_eq.
  set (d := Zdigits2 m) in *. set (t' := Z.max (d + e - 24) (-149)) in *.
  assert (Hd : 0 <= d) by apply Zdigits2_nonneg.
  assert (Hp : 0 < 2 ^ (t' - e)) by (apply pow2_pos; lia).
  split; [lia|].
  destruct (Z.eq_dec m 0) as [-> | Hne].
  { rewrite Z.div_0_l by lia. unfold d in *. simpl in *. split; [lia|]. intros; lia. }
  assert (Hm' : 0 < m) by lia.
  destruct (Z.lt_ge_cases (t' - e) d) as [Hlt | Hge].
  - destruct (Zdigits2_shiftr m (t' - e) Hm' ltac:(fold d; lia)) as [Hdig Hpos].
    fold d in Hdig.
    pose proof (Zdigits2_bounds _ Hpos) as [Hlo Hhi]. rewrite Hdig in Hlo, Hhi.
    split.
    + split; [lia|]. eapply Z.lt_le_trans; [exact Hhi|]. apply Z.pow_le_mono_r; lia.
    + intros Ht. assert (t' = d + e - 24) by lia.
      replace (d - (t' - e) - 1) with 23 in Hlo by lia. exact Hlo.
  - assert (m / 2 ^ (t' - e) = 0) as ->.
    { apply Z.div_small. split; [lia|].
      pose proof (Zdigits2_bounds m Hm') as [_ Hhi]. fold d in Hhi.
      eapply Z.lt_le_trans; [exact Hhi|]. apply Z.pow_le_mono_r; lia. }
    split; [lia|]. intros; lia.
Qed.

Lemma bounded_intro (m : positive) (e : Z) :
  -149 <= e <= 104 -> Zpos m < 2 ^ 24 -> (e <> -149 -> 2 ^ 23 <= Zpos m) ->
  bounded F32.prec F32.emax m e = true.
Proof.
  intros He Hhi Hlo. unfold bounded, canonical_mantissa.
  apply andb_true_intro. split; [|apply Z.leb_le; unfold F32.emax, F32.prec; lia].
  apply Z.eqb_eq. rewrite fexp_eq.
  pose proof (digits2_pos_bounds m) as [Dlo Dhi].
  assert (Zpos (digits2_pos m) <= 24).
  { destruct (Z.le_gt_cases (Zpos (digits2_pos m)) 24); [assumption|].
    assert (2 ^ 24 <= 2 ^ (Zpos (digits2_pos m) - 1)) by (apply Z.pow_le_mono_r; lia). lia. }
  destruct (Z.eq_dec e (-149)) as [-> | Hne]; [lia|].
  specialize (Hlo Hne).
  assert (24 <= Zpos (digits2_pos m)).
  { destruct (Z.le_gt_cases 24 (Zpos (digits2_pos m))); [assumption|].
    assert (2 ^ (Zpos (digits2_pos m)) <= 2 ^ 23) by (apply Z.pow_le_mono_r; lia). lia. }
  lia.
Qed.

Lemma bounded_elim (m : positive) (e : Z) :
  bounded F32.prec F32.emax m e = true ->
  -149 <= e <= 104 /\ Zpos m < 2 ^ 24 /\ (e <> -149 -> 2 ^ 23 <= Zpos m).
Proof.
  unfold bounded, canonical_mantissa. intros H.
  apply andb_prop in H. destruct H as [Hc He].
  apply Z.eqb_eq in Hc. apply Z.leb_le in He. rewrite fexp_eq in Hc.
  unfold F32.emax, F32.prec in He.
  pose proof (digits2_pos_bounds m) as [Dlo Dhi].
  split; [lia|]. split.
  - eapply Z.lt_le_trans; [exact Dhi|]. apply Z.pow_le_mono_r; lia.
  - intros Hne. eapply Z.le_trans; [|exact Dlo]. apply Z.pow_le_mono_r; lia.
Qed.

(** The second shift of [binary_round_aux] undoes a carry into a 25th
    digit and otherwise does nothing. *)
Lemma renormalize (sx : bool) (m2 t : Z) :
  -149 <= t -> 0 <= m2 <= 2 ^ 24 -> (t <> -149 -> 2 ^ 23 <= m2) ->
  let '(r, e) := shr_fexp F32.prec F32.emax m2 t loc_Exact in
  rounded sx m2 t
    match shr_m r with
    | Z0 => S754_zero sx
    | Zpos m => if e <=? F32.emax - F32.prec then S754_finite sx m e
                else S754_infinity sx
    | Zneg _ => S754_nan
    end.
Proof.
  intros Ht Hm Hlo.
  assert (P149 : 0 < 2 ^ (t + 149)) by (apply pow2_pos; lia).
  destruct (Z.eq_dec m2 0) as [-> | Hne].
  { unfold shr_fexp, shr. rewrite fexp_eq. cbn [Zdigits2].
    destruct (Z.max (0 + t - 24) (-149) - t) eqn:E; try lia; cbn [shr_record_of_loc shr_m];
      left; split; reflexivity. }
  assert (Hpos : 0 < m2) by lia.
  pose proof (Zdigits2_bounds m2 Hpos) as [Dlo Dhi].
  destruct (Z.eq_dec m2 (2 ^ 24)) as [-> | Hne24].
  - (* a carry *)
    unfold shr_fexp, shr. rewrite fexp_eq.
    change (Zdigits2 (2 ^ 24)) with 25.
    replace (Z.max (25 + t - 24) (-149) - t) with 1 by lia.
    cbn [iter_pos shr_record_of_loc]. change (2 ^ 24) with (Zpos (2 ^ 24)%positive) at 1.
    cbn [shr_1 shr_m]. unfold F32.emax, F32.prec.
    destruct (Z.leb_spec (t + 1) (128 - 24)) as [Hle | Hgt].
    + right; left. split; [lia|]. split.
      * assert (2 ^ (t + 149) <= 2 ^ 252) by (apply Z.pow_le_mono_r; lia).
        change (2 ^ 277) with (2 ^ 24 * 2 ^ 253). nia.
      * eexists _, _. split; [reflexivity|]. split.
        -- apply bounded_intro; [lia | reflexivity | intros _; discriminate].
        -- replace (t + 1 + 149) with (Z.succ (t + 149)) by lia.
           rewrite Z.pow_succ_r by lia.
           change (Zpos (2 ^ 23)%positive) with (2 ^ 23). change (2 ^ 24) with (2 * 2 ^ 23). lia.
    + right; right. split; [lia|]. split; [|reflexivity].
      assert (2 ^ 253 <= 2 ^ (t + 149)) by (apply Z.pow_le_mono_r; lia).
      change (2 ^ 277) with (2 ^ 24 * 2 ^ 253). nia.
  - (* no carry *)
    assert (Hlt : m2 < 2 ^ 24) by lia.
    assert (Hd : Zdigits2 m2 <= 24).
    { destruct (Z.le_gt_cases (Zdigits2 m2) 24); [assumption|].
      assert (2 ^ 24 <= 2 ^ (Zdigits2 m2 - 1)) by (apply Z.pow_le_mono_r; lia). lia. }
    assert (Hd' : t <> -149 -> 24 <= Zdigits2 m2).
    { intros Hne'. specialize (Hlo Hne').
      destruct (Z.le_gt_cases 24 (Zdigits2 m2)); [assumption|].
      assert (2 ^ (Zdigits2 m2) <= 2 ^ 23) by (apply Z.pow_le_mono_r; [lia|lia]). lia. }
    unfold shr_fexp, shr. rewrite fexp_eq.
    replace (Z.max (Zdigits2 m2 + t - 24) (-149) - t) with 0
      by (destruct (Z.eq_dec t (-149)); [lia | specialize (Hd' n); lia]).
    cbn [shr_record_of_loc shr_m].
    destruct m2 as [ | m | m]; try lia.
    unfold F32.emax, F32.prec.
    destruct (Z.leb_spec t (128 - 24)) as [Hle | Hgt].
    + right; left. split; [lia|]. split.
      * assert (2 ^ (t + 149) <= 2 ^ 253) by (apply Z.pow_le_mono_r; lia).
        change (2 ^ 277) with (2 ^ 24 * 2 ^ 253). nia.
      * eexists _, _. split; [reflexivity|]. split; [|reflexivity].
        apply bounded_intro; [lia | assumption | assumption].
    + right; right. split; [lia|]. split; [|reflexivity].
      assert (2 ^ 254 <= 2 ^ (t + 149)) by (apply Z.pow_le_mono_r; lia).
      assert (2 ^ 23 <= Zpos m) by (apply Hlo; lia).
      change (2 ^ 277) with (2 ^ 23 * 2 ^ 254). nia.
Qed.

(** [binary_round_aux] divides the mantissa by the power of two that
    leaves 24 digits (fewer in the subnormal range), rounds the quotient
    down or up, and up only when the division is not exact. *)
Lemma binary_round_aux_spec (sx : bool) (mx ex : Z) (lx : location) :
  0 <= mx -> ex <= fexp F32.prec F32.emax (Zdigits2 mx + ex) ->
  let t := fexp F32.prec F32.emax (Zdigits2 mx + ex) in
  let q := mx / 2 ^ (t - ex) in
  exists m2,
    (m2 = q \/ (m2 = q + 1 /\ (lx = loc_Exact -> mx mod 2 ^ (t - ex) <> 0))) /\
    rounded sx m2 t (binary_round_aux F32.prec F32.emax sx mx ex lx).
Proof.
  intros Hm He t q.
  destruct (shr_fexp_spec mx ex lx Hm He) as [E1 [E2 E3]]. fold t in E1, E2, E3.
  destruct (shifted_mantissa_bounds mx ex Hm He) as [Ht [Hq Hq']]. fold t q in Ht, Hq, Hq'.
  fold q in E2.
  unfold binary_round_aux.
  destruct (shr_fexp F32.prec F32.emax mx ex lx) as [r1 e1].
  cbn [fst snd] in E1, E2, E3. subst e1. rewrite E2.
  set (m2 := round_nearest_even q (loc_of_shr_record r1)).
  exists m2. split.
  - destruct (round_nearest_even_cases q (loc_of_shr_record r1)) as [H | [H Hl]];
      fold m2 in H; [left; exact H | right; split; [exact H|]].
    intros -> Hz. apply Hl. apply loc_of_shr_record_exact.
    rewrite E3, Hz. reflexivity.
  - assert (Hm2 : 0 <= m2 <= 2 ^ 24 /\ (t <> -149 -> 2 ^ 23 <= m2)).
    { destruct (round_nearest_even_cases q (loc_of_shr_record r1)) as [H | [H Hl]];
        fold m2 in H; rewrite H; split; try lia; intros Hne; specialize (Hq' Hne); lia. }
    destruct Hm2 as [Hm2 Hm2'].
    pose proof (renormalize sx m2 t Ht Hm2 Hm2') as R.
    destruct (shr_fexp F32.prec F32.emax m2 t loc_Exact) as [r2 e2]. exact R.
Qed.

Lemma shl_align_spec (mx : positive) (ex t : Z) :
  let '(mz, ez) := shl_align mx ex t in
  (t < ex /\ ez = t /\ Zpos mz = Zpos mx * 2 ^ (ex - t)) \/
  (ex <= t /\ ez = ex /\ mz = mx).
Proof.
  unfold shl_align. destruct (t - ex) as [ | d | d] eqn:E.
  - right. repeat split; lia.
  - right. repeat split; lia.
  - left. split; [lia|]. split; [reflexivity|].
    rewrite iter_xO. f_equal. f_equal. lia.
Qed.

Lemma binary_round_spec (sx : bool) (mx : positive) (ex : Z) :
  -149 <= ex ->
  let V := Zpos mx * 2 ^ (ex + 149) in
  let T := round_exp V in
  exists m2,
    (m2 = V / 2 ^ T \/ (m2 = V / 2 ^ T + 1 /\ V mod 2 ^ T <> 0)) /\
    rounded sx m2 (T - 149) (binary_round F32.prec F32.emax sx mx ex).
Proof.
  intros Hex V T.
  assert (HV : Zdigits2 V = Zpos (digits2_pos mx) + (ex + 149)).
  { unfold V. rewrite Zdigits2_shiftl by lia. reflexivity. }
  set (d := Zpos (digits2_pos mx)) in *.
  set (t0 := fexp F32.prec F32.emax (d + ex)).
  assert (Ht0 : t0 = Z.max (d + ex - 24) (-149)) by apply fexp_eq.
  assert (HT : T = t0 + 149) by (unfold T, round_exp; rewrite HV; lia).
  unfold binary_round. fold d. fold t0.
  pose proof (shl_align_spec mx ex t0) as Hs.
  destruct (shl_align mx ex t0) as [mz ez].
  destruct Hs as [[Hlt [-> Hz]] | [Hle [-> ->]]].
  - (* aligned to the left: the division below is by one *)
    assert (Hd : Zdigits2 (Zpos mz) + t0 = d + ex).
    { rewrite Hz, Zdigits2_shiftl by lia. cbn [Zdigits2]. fold d. lia. }
    destruct (binary_round_aux_spec sx (Zpos mz) t0 loc_Exact) as [m2 [Hm2 Hr]]; [lia | | ].
    { rewrite Hd. fold t0. lia. }
    rewrite Hd in Hm2, Hr. fold t0 in Hm2, Hr.
    rewrite Z.sub_diag, Z.pow_0_r, Z.div_1_r, Z.mod_1_r in Hm2.
    exists m2. split.
    + left. destruct Hm2 as [-> | [_ H]]; [|exfalso; apply H; reflexivity].
      unfold V. rewrite Hz, HT.
      replace (ex + 149) with ((ex - t0) + (t0 + 149)) by lia.
      rewrite Z.pow_add_r, Z.mul_assoc, Z.div_mul by (try lia; apply Z.pow_nonzero; lia).
      reflexivity.
    + replace (T - 149) with t0 by lia. exact Hr.
  - (* already aligned: the division drops [t0 - ex] digits *)
    destruct (binary_round_aux_spec sx (Zpos mx) ex loc_Exact) as [m2 [Hm2 Hr]]; [lia | | ].
    { cbn [Zdigits2]. fold d. fold t0. lia. }
    cbn [Zdigits2] in Hm2, Hr. fold d in Hm2, Hr. fold t0 in Hm2, Hr.
    assert (P1 : 0 < 2 ^ (t0 - ex)) by (apply pow2_pos; lia).
    assert (P2 : 0 < 2 ^ (ex + 149)) by (apply pow2_pos; lia).
    assert (HTe : 2 ^ T = 2 ^ (t0 - ex) * 2 ^ (ex + 149)).
    { rewrite <- Z.pow_add_r by lia. f_equal. lia. }
    assert (Hq : V / 2 ^ T = Zpos mx / 2 ^ (t0 - ex)).
    { unfold V. rewrite HTe. apply Z.div_mul_cancel_r; lia. }
    assert (Hr' : V mod 2 ^ T = (Zpos mx mod 2 ^ (t0 - ex)) * 2 ^ (ex + 149)).
    { unfold V. rewrite HTe. apply Z.mul_mod_distr_r; lia. }
    exists m2. split.
    + rewrite Hq, Hr'. destruct Hm2 as [-> | [-> H]]; [left; reflexivity | right].
      split; [reflexivity|]. specialize (H eq_refl). nia.
    + replace (T - 149) with t0 by lia. exact Hr.
Qed.

(** No number with at most 24 digits lies strictly between a number and
    the result of rounding it down or up. *)
Lemma round_down_faithful (V m k : Z) :
  0 < V -> 0 <= m < 2 ^ 24 -> 0 <= k -> m * 2 ^ k <= V ->
  m * 2 ^ k <= V / 2 ^ round_exp V * 2 ^ round_exp V.
Proof.
  intros HV Hm Hk Hle. set (T := round_exp V).
  assert (HT : 0 <= T) by (unfold T, round_exp; lia).
  assert (PT : 0 < 2 ^ T) by (apply pow2_pos; lia).
  destruct (Z.le_gt_cases T k) as [Hge | Hlt].
  - (* a multiple of [2^T] *)
    replace k with ((k - T) + T) in * by lia.
    rewrite Z.pow_add_r, Z.mul_assoc in * by lia.
    apply Z.mul_le_mono_nonneg_r; [lia|].
    apply Z.div_le_lower_bound; lia.
  - (* below the 24 digits that rounding keeps *)
    assert (HTd : T = Zdigits2 V - 24) by (unfold T, round_exp in *; lia).
    destruct (Zdigits2_shiftr V T HV ltac:(lia)) as [Hd Hpos]. 
    pose proof (Zdigits2_bounds _ Hpos) as [Hlo _]. rewrite Hd in Hlo.
    replace (Zdigits2 V - T - 1) with 23 in Hlo by lia.
    assert (2 ^ k * 2 <= 2 ^ T).
    { replace T with (Z.succ (T - 1)) by lia. rewrite Z.pow_succ_r by lia.
      assert (2 ^ k <= 2 ^ (T - 1)) by (apply Z.pow_le_mono_r; lia). lia. }
    assert (0 < 2 ^ k) by (apply pow2_pos; lia).
    change (2 ^ 24) with (2 ^ 23 * 2) in Hm. nia.
Qed.

Lemma round_up_faithful (V m k : Z) :
  0 < V -> 0 <= m < 2 ^ 24 -> 0 <= k -> V <= m * 2 ^ k ->
  V mod 2 ^ round_exp V <> 0 ->
  (V / 2 ^ round_exp V + 1) * 2 ^ round_exp V <= m * 2 ^ k.
Proof.
  intros HV Hm Hk Hle Hne. set (T := round_exp V) in *.
  assert (HT : 0 <= T) by (unfold T, round_exp; lia).
  assert (PT : 0 < 2 ^ T) by (apply pow2_pos; lia).
  pose proof (Z.div_mod V (2 ^ T) ltac:(lia)) as Hdm.
  pose proof (Z.mod_pos_bound V (2 ^ T) PT) as Hmod.
  destruct (Z.le_gt_cases T k) as [Hge | Hlt].
  - replace k with ((k - T) + T) in * by lia.
    rewrite Z.pow_add_r, Z.mul_assoc in * by lia.
    apply Z.mul_le_mono_nonneg_r; [lia|].
    assert (V / 2 ^ T < m * 2 ^ (k - T)); [|lia].
    apply Z.div_lt_upper_bound; [lia|].
    destruct (Z.eq_dec V (m * 2 ^ (k - T) * 2 ^ T)) as [E | E]; [|lia].
    exfalso. apply Hne. rewrite E. apply Z.mod_mul. lia.
  - exfalso.
    assert (HTd : T = Zdigits2 V - 24) by (unfold T, round_exp in *; lia).
    pose proof (Zdigits2_bounds V HV) as [Hlo _].
    replace (Zdigits2 V - 1) with (23 + T) in Hlo by lia.
    rewrite Z.pow_add_r in Hlo by lia.
    assert (2 ^ k * 2 <= 2 ^ T).
    { replace T with (Z.succ (T - 1)) by lia. rewrite Z.pow_succ_r by lia.
      assert (2 ^ k <= 2 ^ (T - 1)) by (apply Z.pow_le_mono_r; lia). lia. }
    assert (0 < 2 ^ k) by (apply pow2_pos; lia).
    change (2 ^ 24) with (2 ^ 23 * 2) in Hm. nia.
Qed.

(** ** Units and order of valid numbers *)

Lemma units_finite_pos (m : positive) (e : Z) :
  bounded F32.prec F32.emax m e = true ->
  0 <= e + 149 /\ 0 < Zpos m * 2 ^ (e + 149) < 2 ^ 277.
Proof.
  intros H. apply bounded_elim in H. destruct H as [He [Hm _]].
  assert (0 < 2 ^ (e + 149)) by (apply pow2_pos; lia).
  assert (2 ^ (e + 149) <= 2 ^ 253) by (apply Z.pow_le_mono_r; lia).
  split; [lia|]. change (2 ^ 277) with (2 ^ 24 * 2 ^ 253). nia.
Qed.

Lemma units_lt_of_exp_lt (m1 m2 : positive) (e1 e2 : Z) :
  bounded F32.prec F32.emax m1 e1 = true ->
  bounded F32.prec F32.emax m2 e2 = true ->
  e1 < e2 -> Zpos m1 * 2 ^ (e1 + 149) < Zpos m2 * 2 ^ (e2 + 149).
Proof.
  intros H1 H2 Hlt. apply bounded_elim in H1, H2.
  destruct H1 as [He1 [Hm1 _]], H2 as [He2 [_ Hm2]].
  specialize (Hm2 ltac:(lia)).
  assert (0 < 2 ^ (e1 + 149)) by (apply pow2_pos; lia).
  assert (2 * 2 ^ (e1 + 149) <= 2 ^ (e2 + 149)).
  { rewrite <- Z.pow_succ_r by lia. apply Z.pow_le_mono_r; lia. }
  change (2 ^ 24) with (2 ^ 23 * 2) in Hm1. nia.
Qed.

Lemma units_compare (m1 m2 : positive) (e1 e2 : Z) :
  bounded F32.prec F32.emax m1 e1 = true ->
  bounded F32.prec F32.emax m2 e2 = true ->
  match e1 ?= e2 with
  | Lt => Lt
  | Gt => Gt
  | Eq => Pos.compare_cont Eq m1 m2
  end = (Zpos m1 * 2 ^ (e1 + 149) ?= Zpos m2 * 2 ^ (e2 + 149)).
Proof.
  intros H1 H2. destruct (Z.compare_spec e1 e2) as [-> | Hlt | Hgt].
  - destruct (units_finite_pos _ _ H2) as [He _].
    rewrite <- Zmult_compare_compat_r by (apply Z.lt_gt, pow2_pos; lia). reflexivity.
  - symmetry. apply Z.compare_lt_iff. apply units_lt_of_exp_lt; assumption.
  - symmetry. apply Z.compare_gt_iff. apply units_lt_of_exp_lt; assumption.
Qed.

Lemma beyond_units (x : float) :
  F32.valid x = true -> - F32.beyond < F32.units x < F32.beyond.
Proof.
  assert (2 ^ 277 < F32.beyond) by reflexivity.
  assert (0 < F32.beyond) by reflexivity.
  destruct x as [s | s | | s m e]; cbn [F32.units]; try lia.
  intros Hv. destruct (units_finite_pos m e Hv) as [_ Hu].
  destruct s; cbn [cond_Zopp]; lia.
Qed.

(** The comparison of C++ on numbers that are not NaN is the order of
    their images under [ord]. *)
Lemma compare_ord (x y : float) :
  F32.valid x = true -> F32.valid y = true ->
  F32.is_nan x = false -> F32.is_nan y = false ->
  SFcompare x y = Some (F32.ord x ?= F32.ord y).
Proof.
  intros Vx Vy Nx Ny.
  pose proof (beyond_units x Vx) as Bx. pose proof (beyond_units y Vy) as By.
  assert (B0 : 0 < F32.beyond) by reflexivity.
  destruct x as [sx | sx | | sx mx ex]; try discriminate;
  destruct y as [sy | sy | | sy my ey]; try discriminate;
  cbn [SFcompare F32.ord F32.units] in *.
  - reflexivity.
  - f_equal. destruct sy; symmetry; [apply Z.compare_gt_iff | apply Z.compare_lt_iff]; lia.
  - f_equal. destruct (units_finite_pos my ey Vy) as [_ H].
    destruct sy; cbn [cond_Zopp]; symmetry;
      [apply Z.compare_gt_iff | apply Z.compare_lt_iff]; lia.
  - f_equal. destruct sx; symmetry; [apply Z.compare_lt_iff | apply Z.compare_gt_iff]; lia.
  - f_equal. destruct sx, sy; symmetry;
      first [apply Z.compare_eq_iff | apply Z.compare_lt_iff | apply Z.compare_gt_iff]; lia.
  - f_equal. destruct sx; symmetry; [apply Z.compare_lt_iff | apply Z.compare_gt_iff]; lia.
  - f_equal. destruct (units_finite_pos mx ex Vx) as [_ H].
    destruct sx; cbn [cond_Zopp]; symmetry;
      [apply Z.compare_lt_iff | apply Z.compare_gt_iff]; lia.
  - f_equal. destruct sy; symmetry; [apply Z.compare_gt_iff | apply Z.compare_lt_iff]; lia.
  - f_equal. destruct (units_finite_pos mx ex Vx) as [_ Hx].
    destruct (units_finite_pos my ey Vy) as [_ Hy].
    destruct sx, sy; cbn [cond_Zopp].
    + rewrite Z.compare_opp, <- (units_compare my mx ey ex Vy Vx).
      rewrite (Z.compare_antisym ex ey), (Pos.compare_cont_antisym mx my Eq).
      cbn [CompOpp]. destruct (ex ?= ey); reflexivity.
    + symmetry. apply Z.compare_lt_iff. lia.
    + symmetry. apply Z.compare_gt_iff. lia.
    + apply units_compare; assumption.
Qed.

Lemma ltb_ord (x y : float) :
  F32.valid x = true -> F32.valid y = true ->
  F32.is_nan x = false -> F32.is_nan y = false ->
  F32.ltb x y = (F32.ord x <? F32.ord y).
Proof.
  intros Vx Vy Nx Ny. unfold F32.ltb, SFltb. rewrite compare_ord by assumption.
  unfold Z.ltb. destruct (F32.ord x ?= F32.ord y); reflexivity.
Qed.

Lemma leb_ord (x y : float) :
  F32.valid x = true -> F32.valid y = true ->
  F32.is_nan x = false -> F32.is_nan y = false ->
  F32.leb x y = (F32.ord x <=? F32.ord y).
Proof.
  intros Vx Vy Nx Ny. unfold F32.leb, SFleb. rewrite compare_ord by assumption.
  unfold Z.leb. destruct (F32.ord x ?= F32.ord y); reflexivity.
Qed.

Lemma eqb_ord (x y : float) :
  F32.valid x = true -> F32.valid y = true ->
  F32.is_nan x = false -> F32.is_nan y = false ->
  F32.eqb x y = (F32.ord x =? F32.ord y).
Proof.
  intros Vx Vy Nx Ny. unfold F32.eqb, SFeqb. rewrite compare_ord by assumption.
  rewrite Z.eqb_compare. destruct (F32.ord x ?= F32.ord y); reflexivity.
Qed.

(** A comparison that holds has no NaN among its operands. *)
Lemma ltb_true_not_nan (x y : float) :
  F32.ltb x y = true -> F32.is_nan x = false /\ F32.is_nan y = false.
Proof.
  unfold F32.ltb, SFltb. destruct x, y; cbn; try discriminate; auto.
Qed.

Lemma leb_true_not_nan (x y : float) :
  F32.leb x y = true -> F32.is_nan x = false /\ F32.is_nan y = false.
Proof.
  unfold F32.leb, SFleb. destruct x, y; cbn; try discriminate; auto.
Qed.

(** Valid numbers with the same image are the same number, up to the sign
    of zero. *)
Lemma ord_inj (x y : float) :
  F32.valid x = true -> F32.valid y = true ->
  F32.is_nan x = false -> F32.is_nan y = false ->
  F32.ord x = F32.ord y -> F32.ord x <> 0 -> x = y.
Proof.
  intros Vx Vy Nx Ny E Hne.
  pose proof (beyond_units x Vx) as Bx. pose proof (beyond_units y Vy) as By.
  assert (B0 : 0 < F32.beyond) by reflexivity.
  destruct x as [sx | sx | | sx mx ex]; try discriminate;
  destruct y as [sy | sy | | sy my ey]; try discriminate;
  cbn [F32.ord F32.units] in *; try lia.
  - destruct sx, sy; try reflexivity; lia.
  - destruct sx; lia.
  - destruct sy; lia.
  - destruct (units_finite_pos mx ex Vx) as [_ Hx].
    destruct (units_finite_pos my ey Vy) as [_ Hy].
    assert (Es : sx = sy) by (destruct sx, sy; cbn [cond_Zopp] in E; try reflexivity; lia).
    subst sy.
    assert (Eu : Zpos mx * 2 ^ (ex + 149) = Zpos my * 2 ^ (ey + 149))
      by (destruct sx; cbn [cond_Zopp] in E; lia).
    destruct (Z.lt_trichotomy ex ey) as [Hlt | [-> | Hgt]].
    + pose proof (units_lt_of_exp_lt mx my ex ey Vx Vy Hlt). lia.
    + destruct (units_finite_pos my ey Vy) as [He _].
      apply Z.mul_cancel_r in Eu; [congruence|].
      apply Z.pow_nonzero; lia.
    + pose proof (units_lt_of_exp_lt my mx ey ex Vy Vx Hgt). lia.
Qed.

Lemma finite_ord (f : float) : F32.is_finite f = true -> F32.ord f = F32.units f.
Proof. destruct f as [s | s | | s m e]; try discriminate; reflexivity. Qed.

Lemma finite_not_nan (f : float) : F32.is_finite f = true -> F32.is_nan f = false.
Proof. destruct f; try discriminate; reflexivity. Qed.

Lemma valid_abs_units (f : float) :
  F32.valid f = true ->
  exists m k, Z.abs (F32.units f) = m * 2 ^ k /\ 0 <= m < 2 ^ 24 /\ 0 <= k.
Proof.
  destruct f as [s | s | | s m e]; cbn [F32.units];
    try (intros _; exists 0, 0; repeat split; try reflexivity; lia).
  intros H. destruct (units_finite_pos m e H) as [He Hu].
  apply bounded_elim in H. destruct H as [_ [Hm _]].
  exists (Zpos m), (e + 149). split; [|lia].
  destruct s; cbn [cond_Zopp]; lia.
Qed.

(** The bracket of a number between its two roundings contains no number
    of at most 24 digits other than the roundings themselves. *)
Lemma bracket (V m2 u : Z) :
  0 < V ->
  (m2 = V / 2 ^ round_exp V \/
   (m2 = V / 2 ^ round_exp V + 1 /\ V mod 2 ^ round_exp V <> 0)) ->
  (exists m k, Z.abs u = m * 2 ^ k /\ 0 <= m < 2 ^ 24 /\ 0 <= k) ->
  0 < m2 /\
  (u <= V -> u <= m2 * 2 ^ round_exp V) /\ (V <= u -> m2 * 2 ^ round_exp V <= u).
Proof.
  intros HV Hm2 [m [k [Hu [Hm Hk]]]].
  set (T := round_exp V) in *.
  assert (HT : 0 <= T) by (unfold T, round_exp; lia).
  assert (PT : 0 < 2 ^ T) by (apply pow2_pos; lia).
  pose proof (Z.div_mod V (2 ^ T) ltac:(lia)) as Hdm.
  pose proof (Z.mod_pos_bound V (2 ^ T) PT) as Hmod.
  pose proof (round_down_faithful V 1 0 HV ltac:(lia) ltac:(lia) ltac:(simpl; lia)) as H1.
  fold T in H1. simpl in H1.
  assert (Hq : 0 < V / 2 ^ T) by nia.
  split; [destruct Hm2 as [-> | [-> _]]; lia|].
  destruct (Z.le_gt_cases u 0) as [Hneg | Hpos].
  - split; [intros _ | intros; lia]. destruct Hm2 as [-> | [-> _]]; nia.
  - rewrite Z.abs_eq in Hu by lia. subst u. split.
    + intros Hle. pose proof (round_down_faithful V m k HV Hm Hk Hle) as H. fold T in H.
      destruct Hm2 as [-> | [-> _]]; nia.
    + intros Hge. destruct Hm2 as [-> | [-> Hne]]; [nia|].
      apply round_up_faithful; assumption.
Qed.

Lemma binary_round_rounds_to (sx : bool) (mx : positive) (ex : Z) :
  -149 <= ex ->
  rounds_to (cond_Zopp sx (Zpos mx * 2 ^ (ex + 149)))
            (binary_round F32.prec F32.emax sx mx ex).
Proof.
  intros Hex. destruct (binary_round_spec sx mx ex Hex) as [m2 [Hm2 Hr]].
  set (V := Zpos mx * 2 ^ (ex + 149)) in *. set (T := round_exp V) in *.
  assert (HV : 0 < V) by (unfold V; apply Z.mul_pos_pos; [lia | apply pow2_pos; lia]).
  unfold rounded in Hr. replace (T - 149 + 149) with T in Hr by lia.
  assert (B0 : 2 ^ 277 < F32.beyond) by reflexivity.
  assert (Hbr : forall f, F32.valid f = true ->
            0 < m2 /\
            (F32.units f <= V -> F32.units f <= m2 * 2 ^ T) /\
            (V <= F32.units f -> m2 * 2 ^ T <= F32.units f) /\
            (- F32.units f <= V -> - F32.units f <= m2 * 2 ^ T) /\
            (V <= - F32.units f -> m2 * 2 ^ T <= - F32.units f)).
  { intros f Vf. pose proof (valid_abs_units f Vf) as Hf.
    destruct (bracket V m2 (F32.units f) HV Hm2 Hf) as [P [A B]].
    destruct (bracket V m2 (- F32.units f) HV Hm2) as [_ [C D]].
    { rewrite Z.abs_opp. exact Hf. }
    repeat split; assumption. }
  destruct Hr as [[Hz _] | [[Hpos [Hlt [m [e [-> [Hb Hu]]]]]] | [Hpos [Hge ->]]]].
  - exfalso. destruct (Hbr (S754_zero false) eq_refl) as [P _]. lia.
  - split; [exact Hb|]. split; [reflexivity|].
    intros f Vf Ff. rewrite (finite_ord f Ff). cbn [F32.ord F32.units]. rewrite Hu.
    destruct (Hbr f Vf) as [_ [A [B [C D]]]].
    destruct sx; cbn [cond_Zopp]; split; intros; lia.
  - split; [reflexivity|]. split; [reflexivity|].
    intros f Vf Ff. rewrite (finite_ord f Ff).
    destruct (Hbr f Vf) as [_ [A [B [C D]]]].
    pose proof (beyond_units f Vf) as Bf.
    assert (Hf : - 2 ^ 277 < F32.units f < 2 ^ 277).
    { destruct f as [s | s | | s m e]; try discriminate; cbn [F32.units]; try lia.
      destruct (units_finite_pos m e Vf) as [_ H]. destruct s; cbn [cond_Zopp]; lia. }
    destruct sx; cbn [cond_Zopp F32.ord]; split; intros; lia.
Qed.

Lemma rounds_to_zero (s : bool) : rounds_to 0 (S754_zero s).
Proof.
  split; [reflexivity|]. split; [reflexivity|].
  intros f Vf Ff. rewrite (finite_ord f Ff). cbn [F32.ord F32.units]. lia.
Qed.

Lemma rounds_to_exact (x : float) :
  F32.valid x = true -> F32.is_finite x = true -> rounds_to (F32.units x) x.
Proof.
  intros Vx Fx. split; [exact Vx|]. split; [apply finite_not_nan; exact Fx|].
  intros f Vf Ff. rewrite (finite_ord f Ff), (finite_ord x Fx). lia.
Qed.

Lemma binary_normalize_rounds_to (M e : Z) (sz : bool) :
  -149 <= e ->
  rounds_to (M * 2 ^ (e + 149)) (binary_normalize F32.prec F32.emax M e sz).
Proof.
  intros He. destruct M as [ | p | p]; cbn [binary_normalize].
  - apply rounds_to_zero.
  - apply (binary_round_rounds_to false p e He).
  - pose proof (binary_round_rounds_to true p e He) as H. cbn [cond_Zopp] in H.
    replace (Z.neg p * 2 ^ (e + 149)) with (- (Zpos p * 2 ^ (e + 149))) by lia. exact H.
Qed.

Lemma shl_align_fst (mx : positive) (ex ez : Z) :
  ez <= ex -> Zpos (fst (shl_align mx ex ez)) = Zpos mx * 2 ^ (ex - ez).
Proof.
  intros H. pose proof (shl_align_spec mx ex ez) as Hs.
  destruct (shl_align mx ex ez) as [mz e']. cbn [fst].
  destruct Hs as [[_ [_ Hz]] | [Hle [_ ->]]]; [exact Hz|].
  replace (ex - ez) with 0 by lia. rewrite Z.pow_0_r. lia.
Qed.

Lemma units_aligned (s : bool) (m : positive) (e ez : Z) :
  -149 <= ez <= e ->
  cond_Zopp s (Zpos (fst (shl_align m e ez))) * 2 ^ (ez + 149) =
  F32.units (S754_finite s m e).
Proof.
  intros H. rewrite shl_align_fst by lia. cbn [F32.units].
  replace (e + 149) with ((e - ez) + (ez + 149)) by lia.
  rewrite (Z.pow_add_r 2 (e - ez) (ez + 149)) by lia.
  destruct s; cbn [cond_Zopp]; lia.
Qed.

Lemma valid_finite_exp (s : bool) (m : positive) (e : Z) :
  F32.valid (S754_finite s m e) = true -> -149 <= e.
Proof. intros H. apply bounded_elim in H. lia. Qed.

(** The sum and the difference of finite numbers are faithful roundings
    of the exact sum and difference. *)
Lemma add_rounds_to (x y : float) :
  F32.valid x = true -> F32.valid y = true ->
  F32.is_finite x = true -> F32.is_finite y = true ->
  rounds_to (F32.units x + F32.units y) (F32.add x y).
Proof.
  intros Vx Vy Fx Fy.
  destruct x as [sx | sx | | sx mx ex]; try discriminate;
  destruct y as [sy | sy | | sy my ey]; try discriminate.
  - cbn [F32.units]. destruct sx, sy; apply rounds_to_zero.
  - apply (rounds_to_exact (S754_finite sy my ey)); assumption.
  - cbn [F32.units F32.add SFadd]. rewrite Z.add_0_r.
    apply (rounds_to_exact (S754_finite sx mx ex)); assumption.
  - pose proof (valid_finite_exp _ _ _ Vx). pose proof (valid_finite_exp _ _ _ Vy).
    unfold F32.add. cbn [SFadd].
    rewrite <- (units_aligned sx mx ex (Z.min ex ey)), <- (units_aligned sy my ey (Z.min ex ey)) by lia.
    rewrite <- Z.mul_add_distr_r. apply binary_normalize_rounds_to. lia.
Qed.

Lemma sub_rounds_to (x y : float) :
  F32.valid x = true -> F32.valid y = true ->
  F32.is_finite x = true -> F32.is_finite y = true ->
  rounds_to (F32.units x - F32.units y) (F32.sub x y).
Proof.
  intros Vx Vy Fx Fy.
  destruct x as [sx | sx | | sx mx ex]; try discriminate;
  destruct y as [sy | sy | | sy my ey]; try discriminate.
  - cbn [F32.units]. destruct sx, sy; apply rounds_to_zero.
  - replace (F32.units (S754_zero sx) - F32.units (S754_finite sy my ey))
      with (F32.units (S754_finite (negb sy) my ey))
      by (cbn [F32.units]; destruct sy; cbn [cond_Zopp negb]; lia).
    apply (rounds_to_exact (S754_finite (negb sy) my ey)); assumption.
  - cbn [F32.units F32.sub SFsub]. rewrite Z.sub_0_r.
    apply (rounds_to_exact (S754_finite sx mx ex)); assumption.
  - pose proof (valid_finite_exp _ _ _ Vx). pose proof (valid_finite_exp _ _ _ Vy).
    unfold F32.sub. cbn [SFsub].
    rewrite <- (units_aligned sx mx ex (Z.min ex ey)), <- (units_aligned sy my ey (Z.min ex ey)) by lia.
    rewrite <- Z.mul_sub_distr_r. apply binary_normalize_rounds_to. lia.
Qed.

Lemma of_Z_rounds_to (n : Z) : rounds_to (n * F32.one_unit) (F32.of_Z n).
Proof. apply (binary_normalize_rounds_to n 0 false). lia. Qed.

Lemma real_elim (x : float) :
  real x = true -> F32.valid x = true /\ F32.is_finite x = true /\ F32.is_nan x = false.
Proof.
  unfold real. intros H. apply andb_prop in H. destruct H as [V F].
  repeat split; try assumption. apply finite_not_nan; exact F.
Qed.

Lemma ordered_elim (x : float) :
  ordered x = true -> F32.valid x = true /\ F32.is_nan x = false.
Proof.
  unfold ordered. intros H. apply andb_prop in H. destruct H as [V N].
  split; [exact V|]. destruct (F32.is_nan x); [discriminate | reflexivity].
Qed.

Lemma ordered_intro (x : float) :
  F32.valid x = true -> F32.is_nan x = false -> ordered x = true.
Proof. unfold ordered. intros -> ->. reflexivity. Qed.

Lemma real_ordered (x : float) : real x = true -> ordered x = true.
Proof. intros H. apply real_elim in H. apply ordered_intro; tauto. Qed.

Lemma rounds_to_ordered (S : Z) (r : float) : rounds_to S r -> ordered r = true.
Proof. intros [V [N _]]. apply ordered_intro; assumption. Qed.

Lemma rounds_to_sign (S : Z) (r : float) :
  rounds_to S r ->
  (0 < S -> 0 < F32.ord r) /\ (S < 0 -> F32.ord r < 0) /\ (S = 0 -> F32.ord r = 0).
Proof.
  intros [_ [_ H]].
  destruct (H tiny eq_refl eq_refl) as [A _].
  destruct (H (SFopp tiny) eq_refl eq_refl) as [_ B].
  destruct (H F32.zero eq_refl eq_refl) as [C D].
  change (F32.units tiny) with 1 in A. change (F32.ord tiny) with 1 in A.
  change (F32.units (SFopp tiny)) with (-1) in B. change (F32.ord (SFopp tiny)) with (-1) in B.
  change (F32.units F32.zero) with 0 in C, D. change (F32.ord F32.zero) with 0 in C, D.
  repeat split; intros; lia.
Qed.

(** An exact result that is a number is returned as it is. *)
Lemma rounds_to_representable (S : Z) (r f : float) :
  rounds_to S r -> real f = true -> F32.units f = S ->
  F32.ord r = S /\ real r = true.
Proof.
  intros Hr Hf E. pose proof Hr as [V [N H]].
  apply real_elim in Hf. destruct Hf as [Vf [Ff _]].
  destruct (H f Vf Ff) as [A B]. rewrite (finite_ord f Ff) in A, B.
  assert (Ho : F32.ord r = S) by lia. split; [exact Ho|].
  unfold real. rewrite V. cbn [andb].
  pose proof (beyond_units f Vf) as Bf.
  destruct r as [s | [ | ] | | s m e]; try reflexivity; try discriminate;
    cbn [F32.ord] in Ho; lia.
Qed.

(** Sums and differences with a finite second operand. *)
Lemma add_ordered (x y : float) :
  ordered x = true -> real y = true ->
  ordered (F32.add x y) = true /\
  (F32.is_finite x = true -> rounds_to (F32.units x + F32.units y) (F32.add x y)) /\
  (F32.is_finite x = false -> F32.add x y = x).
Proof.
  intros Hx Hy. apply ordered_elim in Hx. destruct Hx as [Vx Nx].
  pose proof (real_elim y Hy) as [Vy [Fy Ny]].
  destruct (F32.is_finite x) eqn:Fx.
  - pose proof (add_rounds_to x y Vx Vy Fx Fy) as R.
    split; [exact (rounds_to_ordered _ _ R)|]. split; [intros _; exact R | discriminate].
  - assert (E : F32.add x y = x).
    { destruct x as [sx | sx | | sx mx ex]; try discriminate;
      destruct y as [sy | sy | | sy my ey]; try discriminate; reflexivity. }
    rewrite E. split; [apply ordered_intro; assumption|].
    split; [discriminate | reflexivity].
Qed.

Lemma sub_ordered (x y : float) :
  ordered x = true -> real y = true ->
  ordered (F32.sub x y) = true /\
  (F32.is_finite x = true -> rounds_to (F32.units x - F32.units y) (F32.sub x y)) /\
  (F32.is_finite x = false -> F32.sub x y = x).
Proof.
  intros Hx Hy. apply ordered_elim in Hx. destruct Hx as [Vx Nx].
  pose proof (real_elim y Hy) as [Vy [Fy Ny]].
  destruct (F32.is_finite x) eqn:Fx.
  - pose proof (sub_rounds_to x y Vx Vy Fx Fy) as R.
    split; [exact (rounds_to_ordered _ _ R)|]. split; [intros _; exact R | discriminate].
  - assert (E : F32.sub x y = x).
    { destruct x as [sx | sx | | sx mx ex]; try discriminate;
      destruct y as [sy | sy | | sy my ey]; try discriminate; reflexivity. }
    rewrite E. split; [apply ordered_intro; assumption|].
    split; [discriminate | reflexivity].
Qed.

(** ** One axis of the update *)

Lemma position_updater_axes (speed size W H : float) (i : MovementIntent) (p : Position) :
  position_updater speed size W H i p =
  {| squareX := clamp_axis size W (move_axis speed (movingLeft i) (movingRight i) (squareX p));
     squareY := clamp_axis size H (move_axis speed (movingUp i) (movingDown i) (squareY p)) |}.
Proof. reflexivity. Qed.

Lemma move_axis_ordered (speed : float) (minus plus : bool) (v : float) :
  real speed = true -> ordered v = true -> ordered (move_axis speed minus plus v) = true.
Proof.
  intros Hs Hv. unfold move_axis.
  destruct minus, plus; try assumption.
  - apply add_ordered; [|assumption]. apply sub_ordered; assumption.
  - apply sub_ordered; assumption.
  - apply add_ordered; assumption.
Qed.

Lemma clamp_low_spec (v : float) :
  ordered v = true ->
  ordered (clamp_low v) = true /\ 0 <= F32.ord (clamp_low v) /\
  (0 <= F32.ord v -> clamp_low v = v).
Proof.
  intros Hv. pose proof (ordered_elim v Hv) as [Vv Nv]. unfold clamp_low.
  rewrite (ltb_ord v F32.zero Vv eq_refl Nv eq_refl).
  change (F32.ord F32.zero) with 0.
  destruct (Z.ltb_spec (F32.ord v) 0).
  - repeat split; try reflexivity. intros; lia.
  - repeat split; try assumption.
Qed.

Lemma gtb_ord (x y : float) :
  ordered x = true -> ordered y = true -> F32.gtb x y = (F32.ord y <? F32.ord x).
Proof.
  intros Hx Hy. apply ordered_elim in Hx, Hy. unfold F32.gtb.
  apply (ltb_ord y x); tauto.
Qed.

Lemma rounds_to_exact_units (S : Z) (r : float) :
  rounds_to S r -> F32.units r = S -> F32.ord r = S /\ real r = true.
Proof.
  intros Hr E. pose proof Hr as [V [N H]].
  destruct (F32.is_finite r) eqn:F.
  - split; [rewrite finite_ord; assumption|]. unfold real. rewrite V, F. reflexivity.
  - exfalso. assert (S = 0) by (destruct r; try discriminate; cbn in E; lia).
    destruct (rounds_to_sign S r Hr) as [_ [_ Z0]]. specialize (Z0 H0).
    destruct r as [s | [ | ] | | s m e]; try discriminate; cbn in Z0; lia.
Qed.

Lemma ordered_nonneg_infinite (v : float) :
  ordered v = true -> F32.is_finite v = false -> 0 <= F32.ord v -> F32.ord v = F32.beyond.
Proof.
  intros Hv F H. destruct v as [s | [ | ] | | s m e]; try discriminate; cbn in *; lia.
Qed.

(** Above [2^23 * 2^k] units the numbers are [2^k] units apart. *)
Lemma units_grid (f : float) (k : Z) :
  F32.valid f = true -> 0 <= k -> 2 ^ 23 * 2 ^ k <= F32.units f ->
  exists j, F32.units f = j * 2 ^ k.
Proof.
  intros Vf Hk Hge. assert (0 < 2 ^ k) by (apply pow2_pos; lia).
  destruct f as [s | s | | s m e]; cbn [F32.units] in *; try lia.
  destruct (units_finite_pos m e Vf) as [He Hu].
  destruct s; cbn [cond_Zopp] in *; [lia|].
  apply bounded_elim in Vf. destruct Vf as [_ [Hm _]].
  assert (k <= e + 149).
  { destruct (Z.le_gt_cases k (e + 149)); [assumption|]. exfalso.
    assert (2 ^ (e + 149) * 2 <= 2 ^ k).
    { rewrite Z.mul_comm, <- Z.pow_succ_r by lia. apply Z.pow_le_mono_r; lia. }
    assert (0 < 2 ^ (e + 149)) by (apply pow2_pos; lia).
    change (2 ^ 24) with (2 ^ 23 * 2) in Hm. nia. }
  exists (Zpos m * 2 ^ (e + 149 - k)).
  rewrite <- Z.mul_assoc, <- Z.pow_add_r by lia. do 2 f_equal. lia.
Qed.

(** The number with mantissa [M] of 24 digits at exponent [-14]. *)
Lemma on_grid_real (M : Z) :
  2 ^ 23 <= M < 2 ^ 24 ->
  real (S754_finite false (Z.to_pos M) (-14)) = true /\
  F32.units (S754_finite false (Z.to_pos M) (-14)) = M * 2 ^ 135.
Proof.
  intros HM. assert (E : Zpos (Z.to_pos M) = M) by (apply Z2Pos.id; lia). split.
  - unfold real. cbn [F32.is_finite F32.valid valid_binary]. rewrite andb_true_r.
    apply bounded_intro; rewrite ?E; try lia.
  - cbn [F32.units cond_Zopp]. rewrite E. reflexivity.
Qed.

(** ** A coordinate within the bounds is left as it is *)

Lemma clamp_axis_in_bounds (size limit v : float) :
  real size = true -> real limit = true -> real v = true ->
  F32.leb F32.zero v = true -> F32.leb v (F32.sub limit size) = true ->
  clamp_axis size limit v = v.
Proof.
  intros Hs Hl Hv H0 H1.
  pose proof (real_elim size Hs) as [Vs [Fs Ns]].
  pose proof (real_elim limit Hl) as [Vl [Fl Nl]].
  pose proof (real_elim v Hv) as [Vv [Fv Nv]].
  pose proof (sub_rounds_to limit size Vl Vs Fl Fs) as Rd.
  pose proof (add_rounds_to v size Vv Vs Fv Fs) as Rr.
  pose proof Rd as [Vd [Nd Hd]]. pose proof Rr as [Vr [Nr Hr]].
  rewrite (leb_ord F32.zero v eq_refl Vv eq_refl Nv) in H0.
  rewrite (leb_ord v _ Vv Vd Nv Nd) in H1.
  apply Z.leb_le in H0, H1. change (F32.ord F32.zero) with 0 in H0.
  unfold clamp_axis. destruct (clamp_low_spec v (real_ordered v Hv)) as [_ [_ E]].
  rewrite (E H0). unfold clamp_high.
  rewrite (gtb_ord _ _ (rounds_to_ordered _ _ Rr) (real_ordered _ Hl)).
  destruct (Z.ltb_spec (F32.ord limit) (F32.ord (F32.add v size))) as [Hgt | Hle];
    [|reflexivity].
  (* the upper clamp fires: then [v] is the bound itself *)
  destruct (Hd v Vv Fv) as [_ Dv]. destruct (Hr limit Vl Fl) as [_ Rl].
  rewrite (finite_ord v Fv) in *. rewrite (finite_ord limit Fl) in *.
  assert (Heq : F32.ord (F32.sub limit size) = F32.units v) by lia.
  destruct (Z.eq_dec (F32.units v) 0) as [Hz | Hnz].
  - (* both are zero: the sum is [size], which is [limit] *)
    exfalso. destruct (rounds_to_sign _ _ Rd) as [P [Q _]]. lia.
  - symmetry. apply ord_inj; try assumption.
    + rewrite (finite_ord v Fv). lia.
    + rewrite (finite_ord v Fv). exact Hnz.
Qed.

(** ** A size above the limit *)

Lemma clamp_axis_oversize (size limit v : float) :
  real size = true -> real limit = true -> ordered v = true ->
  F32.gtb size limit = true ->
  clamp_axis size limit v = F32.sub limit size /\
  F32.ltb (F32.sub limit size) F32.zero = true.
Proof.
  intros Hs Hl Hv Hgt.
  pose proof (real_elim size Hs) as [Vs [Fs Ns]].
  pose proof (real_elim limit Hl) as [Vl [Fl Nl]].
  rewrite (gtb_ord _ _ (real_ordered _ Hs) (real_ordered _ Hl)) in Hgt.
  apply Z.ltb_lt in Hgt. rewrite (finite_ord size Fs), (finite_ord limit Fl) in Hgt.
  pose proof (sub_rounds_to limit size Vl Vs Fl Fs) as Rd.
  destruct (rounds_to_sign _ _ Rd) as [_ [Neg _]].
  pose proof Rd as [Vd [Nd _]].
  split.
  - unfold clamp_axis. destruct (clamp_low_spec v Hv) as [Ho [Hnn _]].
    set (v' := clamp_low v) in *. unfold clamp_high.
    destruct (add_ordered v' size Ho Hs) as [Hr [Hfin Hinf]].
    rewrite (gtb_ord _ _ Hr (real_ordered _ Hl)).
    destruct (Z.ltb_spec (F32.ord limit) (F32.ord (F32.add v' size))) as [_ | Hle];
      [reflexivity | exfalso].
    rewrite (finite_ord limit Fl) in Hle. pose proof (beyond_units limit Vl).
    destruct (F32.is_finite v') eqn:Fv.
    + destruct (Hfin eq_refl) as [_ [_ Hf]]. destruct (Hf size Vs Fs) as [A _].
      rewrite (finite_ord v' Fv) in Hnn. rewrite (finite_ord size Fs) in A. lia.
    + rewrite (Hinf eq_refl) in Hle.
      rewrite (ordered_nonneg_infinite v' Ho Fv Hnn) in Hle. lia.
  - rewrite (ltb_ord _ F32.zero Vd eq_refl Nd eq_refl). apply Z.ltb_lt.
    change (F32.ord F32.zero) with 0. lia.
Qed.

(** ** The bounds after the clamp, for a size on the grid of the limit *)

Lemma clamp_axis_bounds (size limit v : float) (L k : Z) :
  real size = true -> real limit = true -> ordered v = true ->
  F32.units limit = L * 2 ^ 135 -> F32.units size = k * 2 ^ 135 ->
  0 <= k -> 2 ^ 23 <= L - k -> L + 1 < 2 ^ 24 ->
  F32.leb F32.zero (clamp_axis size limit v) = true /\
  F32.leb (clamp_axis size limit v) (F32.sub limit size) = true.
Proof.
  intros Hs Hl Hv EL Ek Hk Hlo Hhi.
  pose proof (real_elim size Hs) as [Vs [Fs Ns]].
  pose proof (real_elim limit Hl) as [Vl [Fl Nl]].
  pose proof (sub_rounds_to limit size Vl Vs Fl Fs) as Rd.
  destruct (on_grid_real (L - k) ltac:(lia)) as [Rfd Ufd].
  destruct (rounds_to_representable _ _ _ Rd Rfd) as [Od Rdd].
  { rewrite Ufd, EL, Ek. lia. }
  pose proof (real_elim _ Rdd) as [Vd [Fd Nd]].
  rewrite EL, Ek in Od.
  assert (P135 : 0 < 2 ^ 135) by reflexivity.
  assert (P23 : 0 < 2 ^ 23) by reflexivity.
  assert (Od0 : 0 <= F32.ord (F32.sub limit size)) by nia.
  unfold clamp_axis. destruct (clamp_low_spec v Hv) as [Ho [Hnn _]].
  set (v' := clamp_low v) in *. pose proof (ordered_elim v' Ho) as [Vv Nv].
  unfold clamp_high.
  destruct (add_ordered v' size Ho Hs) as [Hr [Hfin Hinf]].
  rewrite (gtb_ord _ _ Hr (real_ordered _ Hl)).
  destruct (Z.ltb_spec (F32.ord limit) (F32.ord (F32.add v' size))) as [_ | Hle].
  - rewrite !leb_ord by (assumption || reflexivity).
    change (F32.ord F32.zero) with 0. split; apply Z.leb_le; lia.
  - rewrite !leb_ord by (assumption || reflexivity).
    change (F32.ord F32.zero) with 0. split; apply Z.leb_le; [lia|].
    rewrite (finite_ord limit Fl), EL in Hle. pose proof (beyond_units limit Vl) as Bl.
    rewrite EL in Bl.
    destruct (F32.is_finite v') eqn:Fv.
    + rewrite (finite_ord v' Fv) in *.
      destruct (Z.le_gt_cases (F32.units v') (F32.ord (F32.sub limit size))) as [|Hgt];
        [assumption | exfalso].
      destruct (units_grid v' 135 Vv ltac:(lia)) as [j Hj]; [nia|].
      destruct (on_grid_real (L + 1) ltac:(lia)) as [Rfn Ufn].
      pose proof (real_elim _ Rfn) as [Vn [Fn _]].
      destruct (Hfin eq_refl) as [_ [_ Hf]]. destruct (Hf _ Vn Fn) as [A _].
      rewrite (finite_ord _ Fn), Ufn, Hj, Ek in A.
      rewrite Hj, Od in Hgt. assert (L - k + 1 <= j) by nia.
      assert (F32.ord (F32.add v' size) >= (L + 1) * 2 ^ 135) by (apply Z.le_ge, A; nia).
      nia.
    + rewrite (Hinf eq_refl) in Hle.
      rewrite (ordered_nonneg_infinite v' Ho Fv Hnn) in Hle. lia.
Qed.

(** ** Opposing adjustments *)

Lemma move_axis_cancel (speed v : float) :
  real speed = true -> real v = true ->
  F32.units (F32.sub v speed) = F32.units v - F32.units speed ->
  F32.eqb (move_axis speed true true v) v = true.
Proof.
  intros Hs Hv Ex.
  pose proof (real_elim speed Hs) as [Vs [Fs Ns]].
  pose proof (real_elim v Hv) as [Vv [Fv Nv]].
  pose proof (sub_rounds_to v speed Vv Vs Fv Fs) as Rt.
  destruct (rounds_to_exact_units _ _ Rt Ex) as [Ot Rt'].
  pose proof (real_elim _ Rt') as [Vt [Ft Nt]].
  unfold move_axis.
  pose proof (add_rounds_to _ speed Vt Vs Ft Fs) as Rr.
  destruct (rounds_to_representable _ _ v Rr Hv) as [Or Rr']; [lia|].
  pose proof (real_elim _ Rr') as [Vr [Fr Nr]].
  rewrite eqb_ord by assumption. apply Z.eqb_eq.
  rewrite Or, (finite_ord v Fv). lia.
Qed.

(** ** Truncation *)

Lemma trunc_units (x : float) :
  real x = true -> F32.trunc x = Some (Z.quot (F32.units x) F32.one_unit).
Proof.
  intros Hx. apply real_elim in Hx. destruct Hx as [Vx [Fx _]].
  destruct x as [s | s | | s m e]; try discriminate; cbn [F32.trunc F32.units].
  - reflexivity.
  - f_equal. destruct (units_finite_pos m e Vx) as [He Hu].
    assert (P : 0 < F32.one_unit) by reflexivity.
    assert (E : Z.shiftl (Zpos m) e = Zpos m * 2 ^ (e + 149) / F32.one_unit).
    { unfold F32.one_unit. destruct (Z.le_gt_cases 0 e) as [Hnn | Hneg].
      - rewrite Z.shiftl_mul_pow2 by lia.
        rewrite Z.pow_add_r, Z.mul_assoc, Z.div_mul by lia. reflexivity.
      - rewrite Z.shiftl_div_pow2 by lia.
        replace (2 ^ 149) with (2 ^ (- e) * 2 ^ (e + 149)).
        + rewrite Z.div_mul_cancel_r; [reflexivity | |]; apply Z.pow_nonzero; lia.
        + rewrite <- Z.pow_add_r by lia. f_equal. lia. }
    rewrite E. destruct s; cbn [cond_Zopp].
    + rewrite Z.quot_opp_l by lia. rewrite Z.quot_div_nonneg by lia. reflexivity.
    + rewrite Z.quot_div_nonneg by lia. reflexivity.
Qed.

(** ** Whole numbers *)

Lemma integer_representable (n : Z) :
  - 2 ^ 24 < n < 2 ^ 24 -> exists f, real f = true /\ F32.units f = n * F32.one_unit.
Proof.
  assert (Hpos : forall n, 0 < n < 2 ^ 24 ->
            exists m e, bounded F32.prec F32.emax m e = true /\
                        Zpos m * 2 ^ (e + 149) = n * F32.one_unit).
  { clear n. intros n Hn. set (d := Zdigits2 n).
    pose proof (Zdigits2_bounds n ltac:(lia)) as [Dlo Dhi]. fold d in Dlo, Dhi.
    pose proof (Zdigits2_pos n ltac:(lia)) as Dpos. fold d in Dpos.
    assert (Hd : d <= 24).
    { destruct (Z.le_gt_cases d 24); [assumption|].
      assert (2 ^ 24 <= 2 ^ (d - 1)) by (apply Z.pow_le_mono_r; lia). lia. }
    assert (P : 0 < 2 ^ (24 - d)) by (apply pow2_pos; lia).
    exists (Z.to_pos (n * 2 ^ (24 - d))), (d - 24).
    assert (E : Zpos (Z.to_pos (n * 2 ^ (24 - d))) = n * 2 ^ (24 - d))
      by (apply Z2Pos.id; nia).
    split.
    - apply bounded_intro; rewrite ?E; try lia.
      + replace 24 with (d + (24 - d)) at 2 by lia. rewrite Z.pow_add_r by lia. nia.
      + intros _. replace 23 with ((d - 1) + (24 - d)) by lia.
        rewrite Z.pow_add_r by lia. nia.
    - rewrite E. unfold F32.one_unit. rewrite <- Z.mul_assoc, <- Z.pow_add_r by lia.
      do 2 f_equal. lia. }
  intros Hn. destruct (Z.lt_trichotomy n 0) as [Hneg | [-> | Hp]].
  - destruct (Hpos (- n) ltac:(lia)) as [m [e [Hb Hu]]].
    exists (S754_finite true m e). split.
    + unfold real. cbn. rewrite Hb. reflexivity.
    + cbn [F32.units cond_Zopp]. lia.
  - exists F32.zero. split; reflexivity.
  - destruct (Hpos n ltac:(lia)) as [m [e [Hb Hu]]].
    exists (S754_finite false m e). split.
    + unfold real. cbn. rewrite Hb. reflexivity.
    + cbn [F32.units cond_Zopp]. lia.
Qed.

(** Whole numbers below [2^24] are converted exactly. *)
Lemma of_Z_exact (n : Z) :
  - 2 ^ 24 < n < 2 ^ 24 ->
  real (F32.of_Z n) = true /\ F32.units (F32.of_Z n) = n * F32.one_unit.
Proof.
  intros Hn. destruct (integer_representable n Hn) as [f [Rf Uf]].
  destruct (rounds_to_representable _ _ f (of_Z_rounds_to n) Rf Uf) as [O R].
  split; [exact R|]. pose proof (real_elim _ R) as [_ [F _]].
  rewrite <- finite_ord by exact F. exact O.
Qed.

(** ** The frame pacer *)

Lemma targetFrameTimeMS_eq : targetFrameTimeMS = S754_finite false 8738133 (-19).
Proof. vm_compute. reflexivity. Qed.

Lemma targetFrameTimeMS_units :
  real targetFrameTimeMS = true /\
  16 * F32.one_unit < F32.units targetFrameTimeMS < 17 * F32.one_unit.
Proof. rewrite targetFrameTimeMS_eq. split; [reflexivity|]. vm_compute. split; reflexivity. Qed.

(** The sign bit of a number below the target that is not negative. *)
Lemma sign_clear_units (x : float) :
  F32.valid x = true -> F32.sign_clear x = true -> F32.ltb x targetFrameTimeMS = true ->
  real x = true /\ 0 <= F32.units x < F32.units targetFrameTimeMS.
Proof.
  intros Vx Sx Hlt. destruct targetFrameTimeMS_units as [Rt Ut].
  pose proof (real_elim _ Rt) as [Vt [Ft Nt]].
  destruct (ltb_true_not_nan _ _ Hlt) as [Nx _].
  rewrite (ltb_ord x _ Vx Vt Nx Nt) in Hlt. apply Z.ltb_lt in Hlt.
  rewrite (finite_ord _ Ft) in Hlt. pose proof (beyond_units _ Vt) as Bt.
  destruct x as [s | s | | s m e]; try discriminate; cbn [F32.sign_clear] in Sx;
    destruct s; try discriminate; cbn [F32.ord F32.units cond_Zopp] in *;
    try lia.
  - split; [reflexivity | lia].
  - destruct (units_finite_pos m e Vx) as [_ Hu]. split; [|lia].
    unfold real. cbn [F32.is_finite]. rewrite Vx. reflexivity.
Qed.

(** The remainder of the frame, when there is one: a positive number of
    at most the target. *)
Lemma remainder_spec (elapsed : float) :
  F32.valid elapsed = true -> F32.sign_clear elapsed = true ->
  F32.ltb elapsed targetFrameTimeMS = true ->
  let d := F32.sub targetFrameTimeMS elapsed in
  real d = true /\ rounds_to (F32.units targetFrameTimeMS - F32.units elapsed) d /\
  0 < F32.units d <= F32.units targetFrameTimeMS /\
  F32.trunc d = Some (F32.units d / F32.one_unit).
Proof.
  intros Ve Se Hlt d.
  destruct (sign_clear_units elapsed Ve Se Hlt) as [Re Ue].
  destruct targetFrameTimeMS_units as [Rt Ut].
  pose proof (real_elim _ Rt) as [Vt [Ft Nt]]. pose proof (real_elim _ Re) as [_ [Fe _]].
  pose proof (sub_rounds_to _ _ Vt Ve Ft Fe) as Rd. fold d in Rd.
  destruct (rounds_to_sign _ _ Rd) as [Pos _]. specialize (Pos ltac:(lia)).
  pose proof Rd as [Vd [Nd Hd]]. destruct (Hd _ Vt Ft) as [_ Le].
  specialize (Le ltac:(lia)). rewrite (finite_ord _ Ft) in Le.
  pose proof (beyond_units _ Vt) as Bt.
  assert (Fd : F32.is_finite d = true).
  { destruct d as [s | [ | ] | | s m e]; try reflexivity; try discriminate;
      cbn [F32.ord] in *; lia. }
  assert (Rd' : real d = true) by (unfold real; rewrite Vd, Fd; reflexivity).
  rewrite (finite_ord d Fd) in *.
  split; [exact Rd'|]. split; [exact Rd|]. split; [lia|].
  rewrite (trunc_units d Rd'). f_equal. apply Z.quot_div_nonneg; [lia | reflexivity].
Qed.

(** ** Products and quotients are canonical and keep the sign *)

Lemma rounded_valid (sx : bool) (m2 t : Z) (r : float) :
  rounded sx m2 t r ->
  F32.valid r = true /\ (sx = false -> F32.sign_clear r = true).
Proof.
  intros [[_ ->] | [[_ [_ [m [e [-> [Hb _]]]]]] | [_ [_ ->]]]]; cbn.
  - split; [reflexivity | intros ->; reflexivity].
  - split; [exact Hb | intros ->; reflexivity].
  - split; [reflexivity | intros ->; reflexivity].
Qed.

Lemma Zdigits2_lower (m k : Z) : 0 <= k -> 2 ^ k <= m -> k + 1 <= Zdigits2 m.
Proof.
  intros Hk Hle. assert (0 < 2 ^ k) by (apply pow2_pos; lia).
  pose proof (Zdigits2_bounds m ltac:(lia)) as [_ Hhi].
  destruct (Z.le_gt_cases (k + 1) (Zdigits2 m)); [assumption|].
  assert (2 ^ Zdigits2 m <= 2 ^ k) by (apply Z.pow_le_mono_r; lia). lia.
Qed.

Lemma fexp_mono (a b : Z) : a <= b -> fexp F32.prec F32.emax a <= fexp F32.prec F32.emax b.
Proof. rewrite !fexp_eq. lia. Qed.

Lemma mul_valid (x y : float) :
  F32.valid x = true -> F32.valid y = true ->
  F32.valid (F32.mul x y) = true /\
  (F32.sign_clear x = true -> F32.sign_clear y = true ->
   F32.sign_clear (F32.mul x y) = true).
Proof.
  intros Vx Vy.
  destruct x as [sx | sx | | sx mx ex]; destruct y as [sy | sy | | sy my ey];
    try (split; [reflexivity | cbn; intros Hx Hy; try reflexivity;
                 destruct sx, sy; try discriminate; reflexivity]).
  unfold F32.mul. cbn [SFmul].
  destruct (binary_round_aux_spec (xorb sx sy) (Zpos (mx * my)) (ex + ey) loc_Exact)
    as [m2 [_ Hr]]; [lia | | ].
  - pose proof (bounded_elim mx ex Vx) as [Hex [Hmx Hmx']].
    pose proof (bounded_elim my ey Vy) as [Hey [Hmy Hmy']].
    rewrite fexp_eq.
    destruct (Z.eq_dec ex (-149)) as [Ex | Ex]; destruct (Z.eq_dec ey (-149)) as [Ey | Ey];
      try lia.
    + specialize (Hmy' Ey).
      assert (24 <= Zdigits2 (Zpos (mx * my))); [|lia].
      apply (Zdigits2_lower _ 23); [lia|]. rewrite Pos2Z.inj_mul. nia.
    + specialize (Hmx' Ex).
      assert (24 <= Zdigits2 (Zpos (mx * my))); [|lia].
      apply (Zdigits2_lower _ 23); [lia|]. rewrite Pos2Z.inj_mul. nia.
    + specialize (Hmx' Ex).
      assert (24 <= Zdigits2 (Zpos (mx * my))); [|lia].
      apply (Zdigits2_lower _ 23); [lia|]. rewrite Pos2Z.inj_mul. nia.
  - destruct (rounded_valid _ _ _ _ Hr) as [V S]. split; [exact V|].
    cbn [F32.sign_clear]. intros Hx Hy. apply S. destruct sx, sy; try discriminate; reflexivity.
Qed.

Lemma div_core_spec (mx my : positive) (ex ey : Z) :
  let '(q, e, _) := SFdiv_core_binary F32.prec F32.emax (Zpos mx) ex (Zpos my) ey in
  0 <= q /\ e <= fexp F32.prec F32.emax (Zdigits2 q + e).
Proof.
  unfold SFdiv_core_binary.
  set (d1 := Zdigits2 (Zpos mx)). set (d2 := Zdigits2 (Zpos my)).
  set (D := d1 + ex - (d2 + ey)).
  set (e' := Z.min (fexp F32.prec F32.emax D) (ex - ey)).
  set (s := ex - ey - e').
  assert (Hs : 0 <= s) by (unfold s, e'; lia).
  set (m' := match s with Z.pos _ => Z.shiftl (Zpos mx) s | 0 => Zpos mx | Z.neg _ => 0 end).
  assert (Hm' : m' = Zpos mx * 2 ^ s).
  { unfold m'. destruct s as [ | p | p] eqn:Es; [rewrite Z.pow_0_r; lia | | lia].
    apply Z.shiftl_mul_pow2. lia. }
  assert (Hq : fst (Z.div_eucl m' (Zpos my)) = m' / Zpos my) by reflexivity.
  destruct (Z.div_eucl m' (Zpos my)) as [q r]. cbn [fst] in Hq.
  assert (P : 0 < 2 ^ s) by (apply pow2_pos; lia).
  assert (Hq0 : 0 <= q) by (rewrite Hq; apply Z.div_pos; nia).
  split; [exact Hq0|].
  apply Z.le_trans with (fexp F32.prec F32.emax D); [unfold e'; lia|].
  apply fexp_mono.
  replace D with (d1 + s - d2 + e') by (unfold D, s; lia).
  apply Z.add_le_mono_r.
  pose proof (Zdigits2_nonneg q).
  destruct (Z.le_gt_cases (d1 + s - d2) 0) as [|Hpos]; [lia|].
  pose proof (Zdigits2_bounds (Zpos mx) ltac:(lia)) as [Lo1 _]. fold d1 in Lo1.
  pose proof (Zdigits2_bounds (Zpos my) ltac:(lia)) as [_ Hi2]. fold d2 in Hi2.
  pose proof (Zdigits2_pos (Zpos mx) ltac:(lia)) as P1. fold d1 in P1.
  pose proof (Zdigits2_pos (Zpos my) ltac:(lia)) as P2. fold d2 in P2.
  assert (2 ^ (d1 + s - d2 - 1) <= q); [|pose proof (Zdigits2_lower q (d1 + s - d2 - 1)); lia].
  rewrite Hq. apply Z.div_le_lower_bound; [lia|]. rewrite Hm'.
  assert (E : 2 ^ (d1 - 1) * 2 ^ s = 2 ^ d2 * 2 ^ (d1 + s - d2 - 1)).
  { rewrite <- !Z.pow_add_r by lia. f_equal. lia. }
  assert (0 < 2 ^ (d1 + s - d2 - 1)) by (apply pow2_pos; lia).
  nia.
Qed.

Lemma div_valid (x y : float) :
  F32.valid (F32.div x y) = true /\
  (F32.sign_clear x = true -> F32.sign_clear y = true ->
   F32.sign_clear (F32.div x y) = true).
Proof.
  destruct x as [sx | sx | | sx mx ex]; destruct y as [sy | sy | | sy my ey];
    try (split; [reflexivity | cbn; intros Hx Hy; try reflexivity;
                 destruct sx, sy; try discriminate; reflexivity]).
  unfold F32.div. cbn [SFdiv].
  pose proof (div_core_spec mx my ex ey) as Hc.
  destruct (SFdiv_core_binary F32.prec F32.emax (Zpos mx) ex (Zpos my) ey) as [[q e] l].
  destruct Hc as [Hq He].
  destruct (binary_round_aux_spec (xorb sx sy) q e l Hq He) as [m2 [_ Hr]].
  destruct (rounded_valid _ _ _ _ Hr) as [V S]. split; [exact V|].
  cbn [F32.sign_clear]. intros Hx Hy. apply S. destruct sx, sy; try discriminate; reflexivity.
Qed.

Lemma of_Z_valid (n : Z) :
  F32.valid (F32.of_Z n) = true /\ (0 <= n -> F32.sign_clear (F32.of_Z n) = true).
Proof.
  split; [apply (of_Z_rounds_to n)|]. intros Hn.
  destruct n as [ | p | p]; try lia; [reflexivity|].
  unfold F32.of_Z. cbn [binary_normalize].
  destruct (binary_round_spec false p 0 ltac:(lia)) as [m2 [_ Hr]].
  apply (rounded_valid _ _ _ _ Hr). reflexivity.
Qed.

(** The request of the pacer when a part of the frame is left. *)
Lemma frame_pacer_delay (elapsed : float) :
  F32.valid elapsed = true -> F32.sign_clear elapsed = true ->
  F32.ltb elapsed targetFrameTimeMS = true ->
  let d := F32.sub targetFrameTimeMS elapsed in
  let ms := F32.units d / F32.one_unit in
  frame_pacer elapsed = Delay ms /\ F32.to_Uint32 d = Some ms /\
  F32.trunc d = Some ms /\ 0 <= ms <= 16.
Proof.
  intros Ve Se Hlt d ms.
  destruct (remainder_spec elapsed Ve Se Hlt) as [Rd [_ [Ud Td]]]. fold d in Rd, Ud, Td.
  fold ms in Td. destruct targetFrameTimeMS_units as [_ Ut].
  assert (P : 0 < F32.one_unit) by reflexivity.
  assert (Hms : 0 <= ms <= 16).
  { unfold ms. split; [apply Z.div_pos; lia|].
    assert (F32.units d / F32.one_unit < 17); [|lia].
    apply Z.div_lt_upper_bound; lia. }
  assert (Hc : F32.to_Uint32 d = Some ms).
  { unfold F32.to_Uint32. rewrite Td.
    destruct (Z.leb_spec 0 ms); [|lia]. destruct (Z.ltb_spec ms (2 ^ 32)); [reflexivity|].
    assert (2 ^ 32 > 16) by reflexivity. lia. }
  unfold frame_pacer. rewrite Hlt. fold d. rewrite Hc. repeat split; try assumption; lia.
Qed.

Lemma frame_pacer_defined (elapsed : float) :
  F32.valid elapsed = true -> F32.sign_clear elapsed = true ->
  frame_pacer elapsed <> UndefinedDelay.
Proof.
  intros Ve Se. destruct (F32.ltb elapsed targetFrameTimeMS) eqn:Hlt.
  - destruct (frame_pacer_delay elapsed Ve Se Hlt) as [-> _]. discriminate.
  - unfold frame_pacer. rewrite Hlt. discriminate.
Qed.

(** ** Rounding to nearest *)

Lemma iter_pos_iter {A : Type} (f : A -> A) (p : positive) (x : A) :
  iter_pos f p x = Pos.iter f x p.
Proof.
  revert x. induction p as [p IH | p IH | ]; intros x; cbn [iter_pos Pos.iter].
  - rewrite !IH, !Pos.iter_swap. reflexivity.
  - rewrite !IH. reflexivity.
  - reflexivity.
Qed.

Lemma iter_pos_succ {A : Type} (f : A -> A) (p : positive) (x : A) :
  iter_pos f (Pos.succ p) x = f (iter_pos f p x).
Proof. rewrite !iter_pos_iter. apply Pos.iter_succ. Qed.

Lemma shr_1_bits (r : shr_record) :
  0 <= shr_m r ->
  shr_r (shr_1 r) = Z.odd (shr_m r) /\ shr_s (shr_1 r) = inexact r.
Proof.
  destruct r as [m r s]. unfold inexact. cbn [shr_m shr_r shr_s].
  intros Hm. destruct m as [ | [p | p | ] | p]; try lia; cbn; split; reflexivity.
Qed.

Lemma location_of_bits (lo b k : Z) (r s : bool) :
  0 <= k -> 0 <= lo < 2 ^ k -> r = Z.odd b -> s = negb (lo =? 0) ->
  loc_of_shr_record {| shr_m := b / 2; shr_r := r; shr_s := s |} =
  location_of (lo + 2 ^ k * (b mod 2)) (k + 1).
Proof.
  intros Hk Hlo -> ->. unfold location_of.
  rewrite Z.pow_add_r, Z.pow_1_r by lia.
  rewrite Zmod_odd. assert (0 < 2 ^ k) by (apply Z.pow_pos_nonneg; lia).
  destruct (Z.odd b); destruct (Z.eqb_spec lo 0) as [-> | Hne]; cbn [negb loc_of_shr_record].
  - destruct (Z.eqb_spec (0 + 2 ^ k * 1) 0); [lia|].
    f_equal. symmetry. apply Z.compare_eq_iff. lia.
  - destruct (Z.eqb_spec (lo + 2 ^ k * 1) 0); [lia|].
    f_equal. symmetry. apply Z.compare_gt_iff. lia.
  - destruct (Z.eqb_spec (0 + 2 ^ k * 0) 0); [reflexivity | lia].
  - destruct (Z.eqb_spec (lo + 2 ^ k * 0) 0); [lia|].
    f_equal. symmetry. apply Z.compare_lt_iff. lia.
Qed.

Lemma shr_location (p : positive) (m : Z) :
  0 <= m ->
  loc_of_shr_record (iter_pos shr_1 p (shr_record_of_loc m loc_Exact)) =
  location_of (m mod 2 ^ Zpos p) (Zpos p).
Proof.
  intros Hm. set (r0 := shr_record_of_loc m loc_Exact).
  assert (H0 : 0 <= shr_m r0) by exact Hm.
  destruct (Pos.eq_dec p 1) as [-> | Hne].
  - cbn [iter_pos]. destruct (shr_1_bits r0 H0) as [Br Bs].
    destruct (shr_1_spec r0 H0) as [Em _].
    change (shr_m r0) with m in Em, Br. change (inexact r0) with false in Bs.
    destruct (shr_1 r0) as [m1 r1 s1]. cbn [shr_m shr_r shr_s] in *. subst m1.
    rewrite (location_of_bits 0 m 0 r1 s1); try lia; try assumption.
    f_equal. rewrite Z.pow_0_r, Z.pow_1_r. lia.
  - destruct (Pos.succ_pred_or p) as [-> | E]; [contradiction|].
    set (p' := Pos.pred p) in *. rewrite <- E. rewrite iter_pos_succ.
    destruct (iter_pos_shr_1 p' r0 H0) as [Em Ei].
    change (shr_m r0) with m in Em, Ei. change (inexact r0) with false in Ei.
    cbn [orb] in Ei.
    set (r1 := iter_pos shr_1 p' r0) in *.
    assert (P : 0 < 2 ^ Zpos p') by (apply Z.pow_pos_nonneg; lia).
    assert (H1 : 0 <= shr_m r1) by (rewrite Em; apply Z.div_pos; lia).
    destruct (shr_1_bits r1 H1) as [Br Bs]. destruct (shr_1_spec r1 H1) as [Em' _].
    destruct (shr_1 r1) as [m2 r2 s2]. cbn [shr_m shr_r shr_s] in *. subst m2.
    rewrite Em in *.
    rewrite (location_of_bits (m mod 2 ^ Zpos p') (m / 2 ^ Zpos p') (Zpos p') r2 s2);
      try lia; try assumption.
    + rewrite Pos2Z.inj_succ. unfold Z.succ. f_equal.
      rewrite Z.pow_add_r, Z.pow_1_r by lia. symmetry. apply Z.rem_mul_r; lia.
    + apply Z.mod_pos_bound. exact P.
    + rewrite Bs, Ei. reflexivity.
Qed.

Lemma round_nearest_even_location (q rem n : Z) :
  0 <= n -> 0 <= rem < 2 ^ n ->
  nearest_even q rem n (round_nearest_even q (location_of rem n)).
Proof.
  intros Hn Hrem. unfold nearest_even, location_of.
  destruct (Z.eqb_spec rem 0) as [-> | Hne]; cbn [round_nearest_even].
  - left. split; [reflexivity|]. left. lia.
  - destruct (Z.compare_spec (2 * rem) (2 ^ n)) as [E | Hlt | Hgt].
    + destruct (Z.even q) eqn:Ev; [left | right]; (split; [reflexivity|]); right; split;
        reflexivity || assumption.
    + left. split; [reflexivity|]. left. exact Hlt.
    + right. split; [reflexivity|]. left. exact Hgt.
Qed.

Lemma shr_fexp_location (m e : Z) :
  0 <= m -> e <= fexp F32.prec F32.emax (Zdigits2 m + e) ->
  let t := fexp F32.prec F32.emax (Zdigits2 m + e) in
  loc_of_shr_record (fst (shr_fexp F32.prec F32.emax m e loc_Exact)) =
  location_of (m mod 2 ^ (t - e)) (t - e).
Proof.
  intros Hm He t. unfold shr_fexp. fold t. unfold shr.
  destruct (t - e) as [ | n | n] eqn:En; cbn [fst]; try lia.
  - rewrite Z.pow_0_r, Z.mod_1_r. reflexivity.
  - apply shr_location. exact Hm.
Qed.

Lemma binary_round_aux_nearest (sx : bool) (mx ex : Z) :
  0 <= mx -> ex <= fexp F32.prec F32.emax (Zdigits2 mx + ex) ->
  let t := fexp F32.prec F32.emax (Zdigits2 mx + ex) in
  exists m2,
    nearest_even (mx / 2 ^ (t - ex)) (mx mod 2 ^ (t - ex)) (t - ex) m2 /\
    rounded sx m2 t (binary_round_aux F32.prec F32.emax sx mx ex loc_Exact).
Proof.
  intros Hm He t.
  destruct (shr_fexp_spec mx ex loc_Exact Hm He) as [E1 [E2 _]]. fold t in E1, E2.
  pose proof (shr_fexp_location mx ex Hm He) as El. fold t in El.
  destruct (shifted_mantissa_bounds mx ex Hm He) as [Ht [Hq Hq']]. fold t in Ht, Hq, Hq'.
  set (q := mx / 2 ^ (t - ex)) in *. set (rem := mx mod 2 ^ (t - ex)) in *.
  assert (Hrem : 0 <= rem < 2 ^ (t - ex))
    by (apply Z.mod_pos_bound, Z.pow_pos_nonneg; lia).
  unfold binary_round_aux.
  destruct (shr_fexp F32.prec F32.emax mx ex loc_Exact) as [r1 e1].
  cbn [fst snd] in E1, E2, El. subst e1. rewrite E2, El.
  match goal with
  | |- context [round_nearest_even ?a ?l] => set (m2 := round_nearest_even a l)
  end.
  assert (Hn : nearest_even q rem (t - ex) m2)
    by (apply round_nearest_even_location; [lia | exact Hrem]).
  exists m2. split; [exact Hn|].
  assert (Hm2 : 0 <= m2 <= 2 ^ 24 /\ (t <> -149 -> 2 ^ 23 <= m2)).
  { destruct Hn as [[-> _] | [-> _]]; split; try lia; intros Hne; specialize (Hq' Hne); lia. }
  destruct Hm2 as [Hm2 Hm2'].
  pose proof (renormalize sx m2 t Ht Hm2 Hm2') as R.
  destruct (shr_fexp F32.prec F32.emax m2 t loc_Exact) as [r2 e2]. exact R.
Qed.

Lemma binary_round_nearest (sx : bool) (mx : positive) (ex : Z) :
  -149 <= ex ->
  let V := Zpos mx * 2 ^ (ex + 149) in
  let T := round_exp V in
  exists m2,
    nearest_even (V / 2 ^ T) (V mod 2 ^ T) T m2 /\
    rounded sx m2 (T - 149) (binary_round F32.prec F32.emax sx mx ex).
Proof.
  intros Hex V T.
  assert (HV : Zdigits2 V = Zpos (digits2_pos mx) + (ex + 149)).
  { unfold V. rewrite Zdigits2_shiftl by lia. reflexivity. }
  set (d := Zpos (digits2_pos mx)) in *.
  set (t0 := fexp F32.prec F32.emax (d + ex)).
  assert (Ht0 : t0 = Z.max (d + ex - 24) (-149)) by apply fexp_eq.
  assert (HT : T = t0 + 149) by (unfold T, round_exp; rewrite HV; lia).
  unfold binary_round. fold d. fold t0.
  pose proof (shl_align_spec mx ex t0) as Hs.
  destruct (shl_align mx ex t0) as [mz ez].
  destruct Hs as [[Hlt [-> Hz]] | [Hle [-> ->]]].
  - assert (Hd : Zdigits2 (Zpos mz) + t0 = d + ex).
    { rewrite Hz, Zdigits2_shiftl by lia. cbn [Zdigits2]. fold d. lia. }
    destruct (binary_round_aux_nearest sx (Zpos mz) t0) as [m2 [Hm2 Hr]]; [lia | | ].
    { rewrite Hd. fold t0. lia. }
    rewrite Hd in Hm2, Hr. fold t0 in Hm2, Hr.
    rewrite Z.sub_diag, Z.pow_0_r, Z.div_1_r, Z.mod_1_r in Hm2.
    assert (EV : V = Zpos mz * 2 ^ T).
    { unfold V. rewrite Hz, HT, <- Z.mul_assoc, <- Z.pow_add_r by lia. do 2 f_equal. lia. }
    assert (PT : 0 < 2 ^ T) by (apply Z.pow_pos_nonneg; lia).
    exists m2. split.
    + rewrite EV, Z.div_mul, Z.mod_mul by lia.
      destruct Hm2 as [[-> _] | [_ [? | [? _]]]]; try lia.
      left. split; [reflexivity|]. left. lia.
    + replace (T - 149) with t0 by lia. exact Hr.
  - destruct (binary_round_aux_nearest sx (Zpos mx) ex) as [m2 [Hm2 Hr]]; [lia | | ].
    { cbn [Zdigits2]. fold d. fold t0. lia. }
    cbn [Zdigits2] in Hm2, Hr. fold d in Hm2, Hr. fold t0 in Hm2, Hr.
    assert (P1 : 0 < 2 ^ (t0 - ex)) by (apply Z.pow_pos_nonneg; lia).
    assert (P2 : 0 < 2 ^ (ex + 149)) by (apply Z.pow_pos_nonneg; lia).
    assert (HTe : 2 ^ T = 2 ^ (t0 - ex) * 2 ^ (ex + 149)).
    { rewrite <- Z.pow_add_r by lia. f_equal. lia. }
    assert (Hq : V / 2 ^ T = Zpos mx / 2 ^ (t0 - ex)).
    { unfold V. rewrite HTe. apply Z.div_mul_cancel_r; lia. }
    assert (Hr' : V mod 2 ^ T = (Zpos mx mod 2 ^ (t0 - ex)) * 2 ^ (ex + 149)).
    { unfold V. rewrite HTe. apply Z.mul_mod_distr_r; lia. }
    exists m2. split.
    + unfold nearest_even in *. rewrite Hq, Hr', HTe.
      destruct Hm2 as [[-> [A | [A B]]] | [-> [A | [A B]]]].
      * left. split; [reflexivity|]. left. nia.
      * left. split; [reflexivity|]. right. split; [nia | exact B].
      * right. split; [reflexivity|]. left. nia.
      * right. split; [reflexivity|]. right. split; [nia | exact B].
    + replace (T - 149) with t0 by lia. exact Hr.
Qed.

Lemma binary_normalize_nearest (M e : Z) (sz : bool) :
  -149 <= e -> M <> 0 ->
  rounds_nearest (M * 2 ^ (e + 149)) (binary_normalize F32.prec F32.emax M e sz).
Proof.
  intros He HM. assert (P : 0 < 2 ^ (e + 149)) by (apply Z.pow_pos_nonneg; lia).
  unfold rounds_nearest. destruct M as [ | p | p]; [contradiction | | ]; cbn [binary_normalize].
  - rewrite Z.abs_eq by lia.
    replace (Zpos p * 2 ^ (e + 149) <? 0) with false by (symmetry; apply Z.ltb_ge; lia).
    apply (binary_round_nearest false p e He).
  - replace (Z.abs (Z.neg p * 2 ^ (e + 149))) with (Zpos p * 2 ^ (e + 149)) by lia.
    replace (Z.neg p * 2 ^ (e + 149) <? 0) with true by (symmetry; apply Z.ltb_lt; lia).
    apply (binary_round_nearest true p e He).
Qed.

Lemma rounds_nearest_exact (s : bool) (m : positive) (e : Z) :
  F32.valid (S754_finite s m e) = true ->
  rounds_nearest (F32.units (S754_finite s m e)) (S754_finite s m e).
Proof.
  intros Hv. destruct (units_finite_pos m e Hv) as [He Hu].
  set (V := Zpos m * 2 ^ (e + 149)) in *.
  assert (EV : Z.abs (F32.units (S754_finite s m e)) = V)
    by (cbn [F32.units]; fold V; destruct s; cbn [cond_Zopp]; lia).
  assert (Es : (F32.units (S754_finite s m e) <? 0) = s).
  { cbn [F32.units]. fold V. destruct s; cbn [cond_Zopp];
      [apply Z.ltb_lt | apply Z.ltb_ge]; lia. }
  unfold rounds_nearest. rewrite EV, Es.
  assert (HT : round_exp V = e + 149).
  { unfold round_exp, V. rewrite Zdigits2_shiftl by lia. cbn [Zdigits2].
    unfold F32.valid, valid_binary, bounded, canonical_mantissa in Hv.
    apply andb_prop in Hv. destruct Hv as [Hc _]. apply Z.eqb_eq in Hc.
    rewrite fexp_eq in Hc. lia. }
  rewrite HT. assert (P : 0 < 2 ^ (e + 149)) by (apply Z.pow_pos_nonneg; lia).
  exists (Zpos m). split.
  - unfold V. rewrite Z.div_mul, Z.mod_mul by lia. left. split; [reflexivity|]. left. lia.
  - right; left. replace (e + 149 - 149 + 149) with (e + 149) by lia. fold V.
    split; [lia|]. split; [lia|]. exists m, e. replace (e + 149 - 149) with e by lia.
    repeat split. exact Hv.
Qed.

Lemma add_nearest (x y : float) :
  real x = true -> real y = true -> F32.units x + F32.units y <> 0 ->
  rounds_nearest (F32.units x + F32.units y) (F32.add x y).
Proof.
  intros Hx Hy Hne.
  pose proof (real_elim _ Hx) as [Vx [Fx _]]. pose proof (real_elim _ Hy) as [Vy [Fy _]].
  destruct x as [sx | sx | | sx mx ex]; try discriminate;
  destruct y as [sy | sy | | sy my ey]; try discriminate.
  - cbn [F32.units] in Hne. lia.
  - apply (rounds_nearest_exact sy my ey Vy).
  - cbn [F32.add SFadd]. change (F32.units (S754_zero sy)) with 0. rewrite Z.add_0_r.
    apply (rounds_nearest_exact sx mx ex Vx).
  - pose proof (valid_finite_exp _ _ _ Vx). pose proof (valid_finite_exp _ _ _ Vy).
    unfold F32.add. cbn [SFadd]. revert Hne.
    rewrite <- (units_aligned sx mx ex (Z.min ex ey)), <- (units_aligned sy my ey (Z.min ex ey)) by lia.
    rewrite <- Z.mul_add_distr_r. intros Hne.
    apply binary_normalize_nearest; [lia|]. intros E. rewrite E in Hne. lia.
Qed.

Lemma sub_nearest (x y : float) :
  real x = true -> real y = true -> F32.units x - F32.units y <> 0 ->
  rounds_nearest (F32.units x - F32.units y) (F32.sub x y).
Proof.
  intros Hx Hy Hne.
  pose proof (real_elim _ Hx) as [Vx [Fx _]]. pose proof (real_elim _ Hy) as [Vy [Fy _]].
  destruct x as [sx | sx | | sx mx ex]; try discriminate;
  destruct y as [sy | sy | | sy my ey]; try discriminate.
  - cbn [F32.units] in Hne. lia.
  - replace (F32.units (S754_zero sx) - F32.units (S754_finite sy my ey))
      with (F32.units (S754_finite (negb sy) my ey))
      by (cbn [F32.units]; destruct sy; cbn [cond_Zopp negb]; lia).
    apply (rounds_nearest_exact (negb sy) my ey Vy).
  - cbn [F32.sub SFsub]. change (F32.units (S754_zero sy)) with 0. rewrite Z.sub_0_r.
    apply (rounds_nearest_exact sx mx ex Vx).
  - pose proof (valid_finite_exp _ _ _ Vx). pose proof (valid_finite_exp _ _ _ Vy).
    unfold F32.sub. cbn [SFsub]. revert Hne.
    rewrite <- (units_aligned sx mx ex (Z.min ex ey)), <- (units_aligned sy my ey (Z.min ex ey)) by lia.
    rewrite <- Z.mul_sub_distr_r. intros Hne.
    apply binary_normalize_nearest; [lia|]. intros E. rewrite E in Hne. lia.
Qed.

(** The units of a positive result that is finite. *)
Lemma rounded_units (m2 t : Z) (r : float) :
  rounded false m2 t r -> F32.is_finite r = true -> F32.units r = m2 * 2 ^ (t + 149).
Proof.
  intros [[-> ->] | [[_ [_ [m [e [-> [_ Hu]]]]]] | [_ [_ ->]]]] F; try discriminate.
  - reflexivity.
  - cbn [F32.units cond_Zopp]. exact Hu.
Qed.

Lemma rounded_finite (m2 t : Z) (r : float) :
  rounded false m2 t r -> m2 * 2 ^ (t + 149) < 2 ^ 277 -> real r = true.
Proof.
  intros [[_ ->] | [[_ [_ [m [e [-> [Hb _]]]]]] | [_ [Hge ->]]]] Hlt.
  - reflexivity.
  - unfold real. cbn. rewrite Hb. reflexivity.
  - lia.
Qed.

Lemma round_exp_le (V k : Z) : 0 < V -> 0 <= k -> V < 2 ^ 24 * 2 ^ k -> round_exp V <= k.
Proof.
  intros HV Hk Hlt. unfold round_exp.
  pose proof (Zdigits2_bounds V HV) as [Hlo _]. pose proof (Zdigits2_pos V HV).
  destruct (Z.le_gt_cases (Zdigits2 V) (24 + k)); [lia|].
  assert (2 ^ (24 + k) <= 2 ^ (Zdigits2 V - 1)) by (apply Z.pow_le_mono_r; lia).
  rewrite Z.pow_add_r in * by lia. lia.
Qed.

(** Subtracting the size from a window size and adding it again does not
    lead above the window size. *)
Lemma sub_add_back (size limit : float) (L : Z) :
  real size = true -> real limit = true ->
  F32.units limit = L * 2 ^ 135 -> 2 ^ 23 <= L -> L + 1 < 2 ^ 24 -> Z.even L = true ->
  0 <= F32.units size <= F32.units limit ->
  F32.leb (F32.add (F32.sub limit size) size) limit = true.
Proof.
  intros Hs Hl EL HL1 HL2 Lev Hsz.
  pose proof (real_elim _ Hs) as [Vs [Fs Ns]]. pose proof (real_elim _ Hl) as [Vl [Fl Nl]].
  assert (P135 : 0 < 2 ^ 135) by reflexivity.
  set (d := F32.sub limit size). set (S := F32.units limit - F32.units size).
  pose proof (sub_rounds_to limit size Vl Vs Fl Fs) as Rd. fold d S in Rd.
  destruct (rounds_to_sign _ _ Rd) as [_ [_ Z0]].
  pose proof Rd as [Vd [Nd Hd]].
  destruct (Hd limit Vl Fl) as [_ Dl]. destruct (Hd F32.zero eq_refl eq_refl) as [D0 _].
  rewrite (finite_ord _ Fl) in Dl. change (F32.units F32.zero) with 0 in D0.
  change (F32.ord F32.zero) with 0 in D0.
  specialize (Dl ltac:(lia)). specialize (D0 ltac:(lia)).
  pose proof (beyond_units limit Vl) as Bl.
  assert (Fd : F32.is_finite d = true).
  { destruct d as [sd | [ | ] | | sd md ed]; try reflexivity; try discriminate;
      cbn [F32.ord] in *; lia. }
  assert (Rd' : real d = true) by (unfold real; rewrite Vd, Fd; reflexivity).
  rewrite (finite_ord _ Fd) in *.
  pose proof (add_rounds_to d size Vd Vs Fd Fs) as Rr. pose proof Rr as [Vr [Nr Hr]].
  rewrite (leb_ord _ _ Vr Vl Nr Nl), (finite_ord _ Fl). apply Z.leb_le.
  destruct (Z.le_gt_cases (F32.units d) S) as [Hle | Hgt].
  - (* the difference was not rounded up *)
    destruct (Hr limit Vl Fl) as [_ A]. rewrite (finite_ord _ Fl) in A. apply A. lia.
  - (* it was rounded up, by at most half a step of the window size *)
    assert (HS : 0 < S) by (destruct (Z.eq_dec S 0) as [E | E]; [specialize (Z0 E)|]; lia).
    pose proof (sub_nearest limit size Hl Hs ltac:(fold S; lia)) as Nd'. fold d S in Nd'.
    unfold rounds_nearest in Nd'. rewrite Z.abs_eq in Nd' by lia.
    replace (S <? 0) with false in Nd' by (symmetry; apply Z.ltb_ge; lia).
    set (T := round_exp S) in *. destruct Nd' as [m2 [Hm2 Hrd]].
    pose proof (rounded_units _ _ _ Hrd Fd) as Ud.
    replace (T - 149 + 149) with T in Ud by lia.
    assert (HT : 0 <= T <= 135).
    { split; [unfold T, round_exp; lia|]. apply round_exp_le; lia. }
    assert (PT : 0 < 2 ^ T) by (apply Z.pow_pos_nonneg; lia).
    pose proof (Z.div_mod S (2 ^ T) ltac:(lia)) as Hdm.
    pose proof (Z.mod_pos_bound S (2 ^ T) PT) as Hmod.
    assert (HTle : 2 ^ T <= 2 ^ 135) by (apply Z.pow_le_mono_r; lia).
    assert (Hdelta : 0 < F32.units d - S /\ 2 * (F32.units d - S) <= 2 ^ 135).
    { split; [lia|]. unfold nearest_even in Hm2.
      destruct Hm2 as [[-> _] | [-> [A | [A _]]]]; nia. }
    set (delta := F32.units d - S) in *.
    assert (EV : F32.units d + F32.units size = L * 2 ^ 135 + delta)
      by (unfold delta, S; lia).
    pose proof (add_nearest d size Rd' Hs ltac:(nia)) as Nr'.
    unfold rounds_nearest in Nr'. rewrite EV in Nr'.
    rewrite Z.abs_eq in Nr' by nia.
    replace (L * 2 ^ 135 + delta <? 0) with false in Nr' by (symmetry; apply Z.ltb_ge; nia).
    assert (HT' : round_exp (L * 2 ^ 135 + delta) = 135).
    { unfold round_exp. rewrite (Zdigits2_unique _ 159); [lia | nia |].
      change (2 ^ (159 - 1)) with (2 ^ 23 * 2 ^ 135).
      change (2 ^ 159) with (2 ^ 24 * 2 ^ 135). nia. }
    rewrite HT' in Nr'. destruct Nr' as [m3 [Hm3 Hrr]].
    assert (Eq : (L * 2 ^ 135 + delta) / 2 ^ 135 = L)
      by (symmetry; apply Z.div_unique with (r := delta); lia).
    assert (Er : (L * 2 ^ 135 + delta) mod 2 ^ 135 = delta)
      by (symmetry; apply Z.mod_unique with (q := L); lia).
    rewrite Eq, Er in Hm3.
    assert (E3 : m3 = L).
    { unfold nearest_even in Hm3. destruct Hm3 as [[-> _] | [_ [A | [_ B]]]];
        [reflexivity | lia | congruence]. }
    subst m3. change (135 - 149 + 149) with 135 in *.
    assert (Hlt : L * 2 ^ (135 - 149 + 149) < 2 ^ 277).
    { change (135 - 149 + 149) with 135. change (2 ^ 277) with (2 ^ 24 * 2 ^ 135 * 2 ^ 118).
      assert (0 < 2 ^ 118) by reflexivity. nia. }
    pose proof (rounded_finite _ _ _ Hrr Hlt) as Rr'.
    pose proof (real_elim _ Rr') as [_ [Fr _]].
    rewrite (finite_ord _ Fr), (rounded_units _ _ _ Hrr Fr).
    change (135 - 149 + 149) with 135. lia.
Qed.

(** The bounds in the form of the comparisons of the program, on one axis. *)
Lemma clamp_axis_sum_bounds (size limit v : float) (L : Z) :
  real size = true -> real limit = true -> ordered v = true ->
  F32.units limit = L * 2 ^ 135 -> 2 ^ 23 <= L -> L + 1 < 2 ^ 24 -> Z.even L = true ->
  0 <= F32.units size <= F32.units limit ->
  F32.leb F32.zero (clamp_axis size limit v) = true /\
  F32.leb (F32.add (clamp_axis size limit v) size) limit = true.
Proof.
  intros Hs Hl Hv EL HL1 HL2 Lev Hsz.
  pose proof (real_elim _ Hs) as [Vs [Fs Ns]]. pose proof (real_elim _ Hl) as [Vl [Fl Nl]].
  pose proof (sub_rounds_to limit size Vl Vs Fl Fs) as Rd.
  pose proof Rd as [Vd [Nd Hd]].
  destruct (Hd F32.zero eq_refl eq_refl) as [D0 _].
  change (F32.units F32.zero) with 0 in D0. change (F32.ord F32.zero) with 0 in D0.
  specialize (D0 ltac:(lia)).
  unfold clamp_axis. destruct (clamp_low_spec v Hv) as [Ho [Hnn _]].
  set (v' := clamp_low v) in *. pose proof (ordered_elim v' Ho) as [Vv Nv].
  destruct (add_ordered v' size Ho Hs) as [Hr _].
  pose proof (ordered_elim _ Hr) as [Vr Nr].
  unfold clamp_high. rewrite (gtb_ord _ _ Hr (real_ordered _ Hl)).
  destruct (Z.ltb_spec (F32.ord limit) (F32.ord (F32.add v' size))) as [Hgt | Hle].
  - split; [|apply (sub_add_back size limit L); assumption].
    rewrite leb_ord by (assumption || reflexivity). apply Z.leb_le. exact D0.
  - rewrite !leb_ord by (assumption || reflexivity). split; apply Z.leb_le; assumption.
Qed.

(** ** Whole numbers of pixels *)

(** Sums and differences that are whole numbers below [2^24] are exact. *)
Lemma add_whole (x y : float) (n : Z) :
  real x = true -> real y = true ->
  F32.units x + F32.units y = n * F32.one_unit -> - 2 ^ 24 < n < 2 ^ 24 ->
  real (F32.add x y) = true /\ F32.units (F32.add x y) = n * F32.one_unit.
Proof.
  intros Hx Hy E Hn.
  pose proof (real_elim _ Hx) as [Vx [Fx _]]. pose proof (real_elim _ Hy) as [Vy [Fy _]].
  destruct (integer_representable n Hn) as [f [Rf Uf]].
  pose proof (add_rounds_to x y Vx Vy Fx Fy) as R. rewrite E in R.
  destruct (rounds_to_representable _ _ f R Rf Uf) as [O Rr].
  pose proof (real_elim _ Rr) as [_ [Fr _]].
  split; [exact Rr|]. rewrite <- (finite_ord _ Fr). exact O.
Qed.

Lemma sub_whole (x y : float) (n : Z) :
  real x = true -> real y = true ->
  F32.units x - F32.units y = n * F32.one_unit -> - 2 ^ 24 < n < 2 ^ 24 ->
  real (F32.sub x y) = true /\ F32.units (F32.sub x y) = n * F32.one_unit.
Proof.
  intros Hx Hy E Hn.
  pose proof (real_elim _ Hx) as [Vx [Fx _]]. pose proof (real_elim _ Hy) as [Vy [Fy _]].
  destruct (integer_representable n Hn) as [f [Rf Uf]].
  pose proof (sub_rounds_to x y Vx Vy Fx Fy) as R. rewrite E in R.
  destruct (rounds_to_representable _ _ f R Rf Uf) as [O Rr].
  pose proof (real_elim _ Rr) as [_ [Fr _]].
  split; [exact Rr|]. rewrite <- (finite_ord _ Fr). exact O.
Qed.

Lemma of_Z_whole (n : Z) : - 2 ^ 24 < n < 2 ^ 24 -> whole (F32.of_Z n) n.
Proof. apply of_Z_exact. Qed.

Lemma move_axis_whole (speed v : float) (s a : Z) (minus plus : bool) :
  whole speed s -> whole v a -> Z.abs s <= 2 ^ 22 -> Z.abs a <= 2 ^ 22 ->
  exists b, whole (move_axis speed minus plus v) b /\ Z.abs b <= 2 ^ 23.
Proof.
  intros [Rs Us] [Rv Uv] Hs Ha. assert (E : 2 ^ 24 = 2 * 2 ^ 23) by reflexivity.
  assert (E' : 2 ^ 23 = 2 * 2 ^ 22) by reflexivity.
  unfold move_axis. destruct minus, plus.
  - destruct (sub_whole v speed (a - s) Rv Rs ltac:(lia) ltac:(lia)) as [R1 U1].
    destruct (add_whole _ speed a R1 Rs ltac:(lia) ltac:(lia)) as [R2 U2].
    exists a. split; [split; assumption | lia].
  - destruct (sub_whole v speed (a - s) Rv Rs ltac:(lia) ltac:(lia)) as [R1 U1].
    exists (a - s). split; [split; assumption | lia].
  - destruct (add_whole v speed (a + s) Rv Rs ltac:(lia) ltac:(lia)) as [R1 U1].
    exists (a + s). split; [split; assumption | lia].
  - exists a. split; [split; assumption | lia].
Qed.

Lemma clamp_axis_whole (size limit v : float) (n L b : Z) :
  whole size n -> whole limit L -> whole v b ->
  0 <= n <= L -> L <= 2 ^ 22 -> Z.abs b <= 2 ^ 23 ->
  F32.leb F32.zero (clamp_axis size limit v) = true /\
  F32.leb (clamp_axis size limit v) (F32.sub limit size) = true.
Proof.
  intros [Rs Us] [Rl Ul] [Rv Uv] Hn HL Hb.
  assert (E : 2 ^ 24 = 2 * 2 ^ 23) by reflexivity.
  assert (E' : 2 ^ 23 = 2 * 2 ^ 22) by reflexivity.
  assert (P : 0 < F32.one_unit) by reflexivity.
  destruct (sub_whole limit size (L - n) Rl Rs ltac:(lia) ltac:(lia)) as [Rd Ud].
  pose proof (real_elim _ Rd) as [Vd [Fd Nd]].
  pose proof (real_elim _ Rl) as [Vl [Fl Nl]].
  pose proof (real_elim _ Rv) as [Vv [Fv Nv]].
  unfold clamp_axis.
  destruct (clamp_low_spec v (real_ordered _ Rv)) as [Ho [Hnn Hid]].
  assert (Hw : exists c, whole (clamp_low v) c /\ 0 <= c <= 2 ^ 23).
  { unfold clamp_low in *. rewrite (ltb_ord v F32.zero Vv eq_refl Nv eq_refl) in *.
    change (F32.ord F32.zero) with 0 in *. rewrite (finite_ord v Fv), Uv in *.
    destruct (Z.ltb_spec (b * F32.one_unit) 0).
    - exists 0. split; [split; reflexivity | lia].
    - exists b. split; [split; assumption | nia]. }
  destruct Hw as [c [[Rc Uc] Hc]]. set (v' := clamp_low v) in *.
  pose proof (real_elim _ Rc) as [Vc [Fc Nc]].
  destruct (add_whole v' size (c + n) Rc Rs ltac:(lia) ltac:(lia)) as [Rr Ur].
  pose proof (real_elim _ Rr) as [Vr [Fr Nr]].
  unfold clamp_high. rewrite (gtb_ord _ _ (real_ordered _ Rr) (real_ordered _ Rl)).
  rewrite (finite_ord _ Fr), (finite_ord _ Fl), Ur, Ul.
  destruct (Z.ltb_spec (L * F32.one_unit) ((c + n) * F32.one_unit)) as [Hgt | Hle];
    rewrite !leb_ord by (assumption || reflexivity);
    change (F32.ord F32.zero) with 0;
    rewrite ?(finite_ord _ Fd), ?(finite_ord _ Fc), ?Ud, ?Uc;
    split; apply Z.leb_le; nia.
Qed.

(** ** The loop *)

Lemma elapsedMS_measured (frameStart frameEnd frequency : Z) :
  F32.valid (elapsedMS frameStart frameEnd frequency) = true /\
  F32.sign_clear (elapsedMS frameStart frameEnd frequency) = true.
Proof.
  unfold elapsedMS.
  assert (U : forall z, 0 <= Uint64 z) by (intros z; apply Z.mod_pos_bound; reflexivity).
  destruct (of_Z_valid (Uint64 (frameEnd - frameStart))) as [V1 S1].
  destruct (of_Z_valid (Uint64 frequency)) as [V2 S2].
  destruct (of_Z_valid 1000) as [V3 S3].
  destruct (div_valid (F32.of_Z (Uint64 (frameEnd - frameStart))) (F32.of_Z (Uint64 frequency)))
    as [Vd Sd].
  destruct (mul_valid _ (F32.of_Z 1000) Vd V3) as [Vm Sm].
  split; [exact Vm|]. apply Sm; [apply Sd; [apply S1 | apply S2]; apply U | apply S3; lia].
Qed.

(** The cast of line 155 is always defined. *)
Lemma frame_pace_defined (freq : Z) (f : Frame) : frame_pace freq f <> UndefinedDelay.
Proof.
  unfold frame_pace.
  destruct (elapsedMS_measured (frameStart f) (frameEnd f) freq) as [V S].
  apply frame_pacer_defined; assumption.
Qed.

Section LoopFacts.
Variables (W H : float) (freq : Z).

Lemma game_loop_cons (g : Game) (f : Frame) (fs : list Frame) :
  running g = true ->
  game_loop W H freq g (f :: fs) =
  after (frame_trace W H freq g f) (game_loop W H freq (frame_state W H g f) fs).
Proof.
  intros Hr. cbn [game_loop]. rewrite Hr.
  pose proof (frame_pace_defined freq f) as Hd.
  destruct (frame_pace freq f); [reflexivity | reflexivity | contradiction].
Qed.

Lemma game_loop_stopped (g : Game) (fs : list Frame) :
  running g = false -> game_loop W H freq g fs = Stopped g [].
Proof. intros Hr. destruct fs; cbn [game_loop]; rewrite Hr; reflexivity. Qed.

Lemma running_process_event (g : Game) (e : SDL_Event) :
  running (process_event g e) = running g && negb (is_quit e).
Proof.
  unfold process_event, is_quit.
  destruct (ev_type e =? SDL_EVENT_QUIT); cbn [negb].
  - cbn. rewrite andb_false_r. reflexivity.
  - rewrite andb_true_r.
    destruct (ev_type e =? SDL_EVENT_KEY_DOWN); [reflexivity|].
    destruct (ev_type e =? SDL_EVENT_KEY_UP); reflexivity.
Qed.

Lemma running_drain_events (q : list SDL_Event) (g : Game) :
  running (drain_events g q) = running g && negb (existsb is_quit q).
Proof.
  unfold drain_events. revert g. induction q as [ | e q IH]; intros g; cbn [fold_left existsb].
  - rewrite andb_true_r. reflexivity.
  - rewrite IH, running_process_event. destruct (running g), (is_quit e); reflexivity.
Qed.

Lemma position_process_event (g : Game) (e : SDL_Event) :
  position (process_event g e) = position g.
Proof.
  unfold process_event.
  destruct (ev_type e =? SDL_EVENT_QUIT); [reflexivity|].
  destruct (ev_type e =? SDL_EVENT_KEY_DOWN); [reflexivity|].
  destruct (ev_type e =? SDL_EVENT_KEY_UP); reflexivity.
Qed.

Lemma position_drain_events (q : list SDL_Event) (g : Game) :
  position (drain_events g q) = position g.
Proof.
  unfold drain_events. revert g. induction q as [ | e q IH]; intros g; [reflexivity|].
  cbn [fold_left]. rewrite IH. apply position_process_event.
Qed.

Lemma running_frame_state (g : Game) (f : Frame) :
  running (frame_state W H g f) = running g && negb (quit_in f).
Proof. unfold frame_state, update, quit_in. cbn [running]. apply running_drain_events. Qed.

(** As long as no quit event is read the loop goes on. *)
Lemma game_loop_app (pre rest : list Frame) (g : Game) :
  running g = true -> existsb quit_in pre = false ->
  game_loop W H freq g (pre ++ rest) =
  after (loop_trace W H freq g pre) (game_loop W H freq (loop_state W H g pre) rest) /\
  running (loop_state W H g pre) = true.
Proof.
  revert g. induction pre as [ | f pre IH]; intros g Hr Hq.
  - cbn. split; [|exact Hr]. destruct (game_loop W H freq g rest); reflexivity.
  - cbn [existsb] in Hq. apply orb_false_elim in Hq. destruct Hq as [Hf Hpre].
    assert (Hr' : running (frame_state W H g f) = true)
      by (rewrite running_frame_state, Hr, Hf; reflexivity).
    destruct (IH _ Hr' Hpre) as [E R].
    cbn [app loop_trace loop_state fold_left]. rewrite (game_loop_cons g f _ Hr), E.
    split; [|exact R].
    destruct (game_loop W H freq _ rest); cbn [after]; rewrite app_assoc; reflexivity.
Qed.

Lemma game_loop_no_quit (fs : list Frame) (g : Game) :
  running g = true -> existsb quit_in fs = false ->
  game_loop W H freq g fs = Unfinished (loop_state W H g fs) (loop_trace W H freq g fs).
Proof.
  intros Hr Hq. destruct (game_loop_app fs [] g Hr Hq) as [E R].
  rewrite app_nil_r in E. rewrite E. cbn [game_loop]. rewrite R. cbn [after].
  rewrite app_nil_r. reflexivity.
Qed.

(** The iteration that reads a quit event is completed, and is the last. *)
Lemma game_loop_quit (pre post : list Frame) (f : Frame) (g : Game) :
  running g = true -> existsb quit_in pre = false -> quit_in f = true ->
  game_loop W H freq g (pre ++ f :: post) =
  Stopped (frame_state W H (loop_state W H g pre) f)
          (loop_trace W H freq g pre ++ frame_trace W H freq (loop_state W H g pre) f).
Proof.
  intros Hr Hq Hf. destruct (game_loop_app pre (f :: post) g Hr Hq) as [E R].
  rewrite E, (game_loop_cons _ f post R).
  rewrite game_loop_stopped by (rewrite running_frame_state, R, Hf; reflexivity).
  cbn [after]. rewrite app_nil_r. reflexivity.
Qed.

Lemma count_app (p : Action -> bool) (t1 t2 : list Action) :
  count p (t1 ++ t2) = (count p t1 + count p t2)%nat.
Proof. unfold count. rewrite filter_app, length_app. reflexivity. Qed.

Lemma count_delay_actions (p : Action -> bool) (d : Pace) :
  (forall ms, p (SDL_Delay ms) = false) -> count p (delay_actions d) = 0%nat.
Proof. intros Hp. destruct d; cbn; rewrite ?Hp; reflexivity. Qed.

Lemma count_frame_trace (g : Game) (f : Frame) :
  count is_present (frame_trace W H freq g f) = 1%nat /\
  count is_destroy_renderer (frame_trace W H freq g f) = 0%nat /\
  count is_destroy_window (frame_trace W H freq g f) = 0%nat.
Proof.
  unfold frame_trace. rewrite !count_app, !count_delay_actions by reflexivity.
  repeat split; reflexivity.
Qed.

Lemma count_loop_trace (fs : list Frame) (g : Game) :
  count is_present (loop_trace W H freq g fs) = List.length fs /\
  count is_destroy_renderer (loop_trace W H freq g fs) = 0%nat /\
  count is_destroy_window (loop_trace W H freq g fs) = 0%nat.
Proof.
  revert g. induction fs as [ | f fs IH]; intros g; cbn [loop_trace List.length].
  - repeat split; reflexivity.
  - destruct (IH (frame_state W H g f)) as [A [B C]].
    destruct (count_frame_trace g f) as [A' [B' C']].
    rewrite !count_app, A, B, C, A', B', C'. repeat split; reflexivity.
Qed.

Lemma neutral_frame_trace (g : Game) (f : Frame) :
  forallb neutral (frame_trace W H freq g f) = true.
Proof.
  unfold frame_trace. rewrite forallb_app. cbn.
  destruct (frame_pace freq f); reflexivity.
Qed.

Lemma neutral_loop_trace (fs : list Frame) (g : Game) :
  forallb neutral (loop_trace W H freq g fs) = true.
Proof.
  revert g. induction fs as [ | f fs IH]; intros g; cbn [loop_trace]; [reflexivity|].
  rewrite forallb_app, neutral_frame_trace, IH. reflexivity.
Qed.
End LoopFacts.

Lemma held_neutral (t : list Action) (h : list Resource) :
  forallb neutral t = true -> fold_left held_after t h = h.
Proof.
  revert h. induction t as [ | a t IH]; intros h Hn; [reflexivity|].
  cbn [forallb] in Hn. apply andb_prop in Hn. destruct Hn as [Ha Ht].
  cbn [fold_left]. rewrite <- (IH h Ht) at 2. f_equal.
  destruct a; try discriminate; reflexivity.
Qed.

Lemma existsb_first {A : Type} (p : A -> bool) (l : list A) :
  existsb p l = true ->
  exists pre x post, l = pre ++ x :: post /\ existsb p pre = false /\ p x = true.
Proof.
  induction l as [ | a l IH]; [discriminate|]. cbn [existsb]. intros Hex.
  destruct (p a) eqn:Pa.
  - exists [], a, l. repeat split; try reflexivity; assumption.
  - destruct (IH Hex) as [pre [x [post [-> [Hpre Hx]]]]].
    exists (a :: pre), x, post. cbn [existsb app]. rewrite Pa, Hpre.
    repeat split; try reflexivity; assumption.
Qed.

(** What [main] does once SDL is initialised and the window is created. *)
Lemma main_running (w : World) :
  init_ok w = true -> create_ok w = true ->
  let W := F32.of_Z (windowWidthInt w) in
  let H := F32.of_Z (windowHeightInt w) in
  let opening := [ SDL_Init true;
                   SDL_CreateWindowAndRenderer "Simple Game Loop" 800 600 true ] in
  (existsb quit_in (frames w) = false ->
   main w = StillRunning (opening ++ loop_trace W H (frequency w) initialGame (frames w))) /\
  (forall pre f post,
     frames w = pre ++ f :: post -> existsb quit_in pre = false -> quit_in f = true ->
     main w = Exited 0 (opening ++
                        (loop_trace W H (frequency w) initialGame pre ++
                         frame_trace W H (frequency w) (loop_state W H initialGame pre) f) ++
                        [ SDL_DestroyRenderer; SDL_DestroyWindow; SDL_Quit ])).
Proof.
  intros Hi Hc W H opening. unfold main. rewrite Hi, Hc. cbn [negb]. fold W H. split.
  - intros Hq. rewrite (game_loop_no_quit W H (frequency w) _ initialGame eq_refl Hq).
    reflexivity.
  - intros pre f post E Hpre Hf. rewrite E.
    rewrite (game_loop_quit W H (frequency w) pre post f initialGame eq_refl Hpre Hf).
    reflexivity.
Qed.

(** ** The invariant of the running program *)

Lemma clamp_axis_ordered (size limit v : float) :
  real size = true -> real limit = true -> ordered v = true ->
  ordered (clamp_axis size limit v) = true.
Proof.
  intros Hs Hl Hv. pose proof (real_elim _ Hs) as [Vs [Fs _]].
  pose proof (real_elim _ Hl) as [Vl [Fl _]].
  unfold clamp_axis, clamp_high. destruct (clamp_low_spec v Hv) as [Ho _].
  destruct (F32.gtb _ limit); [|exact Ho].
  apply (rounds_to_ordered _ _ (sub_rounds_to limit size Vl Vs Fl Fs)).
Qed.

Lemma in_bounds_real (size W H : float) (p : Position) :
  real size = true -> real W = true -> real H = true ->
  0 <= F32.units size <= F32.units W -> F32.units size <= F32.units H ->
  F32.valid (squareX p) = true -> F32.valid (squareY p) = true ->
  in_bounds size W H p = true -> real_position p = true.
Proof.
  intros Hs HW HH Hsz Hsz' Vx Vy Hb. unfold in_bounds in Hb.
  apply andb_prop in Hb. destruct Hb as [Hb By1].
  apply andb_prop in Hb. destruct Hb as [Hb By0].
  apply andb_prop in Hb. destruct Hb as [Bx0 Bx1].
  pose proof (real_elim _ Hs) as [Vs [Fs _]].
  assert (Hax : forall limit v, real limit = true -> F32.units size <= F32.units limit ->
            F32.valid v = true ->
            F32.leb F32.zero v = true -> F32.leb v (F32.sub limit size) = true ->
            real v = true).
  { intros limit v Hl Hle Vv H0 H1. pose proof (real_elim _ Hl) as [Vl [Fl _]].
    destruct (leb_true_not_nan _ _ H0) as [_ Nv].
    pose proof (sub_rounds_to limit size Vl Vs Fl Fs) as Rd. pose proof Rd as [Vd [Nd Hd]].
    rewrite (leb_ord F32.zero v eq_refl Vv eq_refl Nv) in H0. rewrite (leb_ord _ _ Vv Vd Nv Nd) in H1.
    apply Z.leb_le in H0, H1. change (F32.ord F32.zero) with 0 in H0.
    destruct (Hd limit Vl Fl) as [_ A]. specialize (A ltac:(lia)).
    rewrite (finite_ord _ Fl) in A. pose proof (beyond_units limit Vl).
    unfold real. rewrite Vv. cbn [andb].
    destruct v as [s | [ | ] | | s m e]; try reflexivity; try discriminate;
      cbn [F32.ord] in *; lia. }
  unfold real_position.
  rewrite (Hax W (squareX p)), (Hax H (squareY p)) by (assumption || lia). reflexivity.
Qed.

(** In the 800x600 window every frame leaves the square of the program
    within the bounds, at a position with finite coordinates. *)
Lemma update_in_bounds (g : Game) :
  real_position (position g) = true ->
  let g' := update window800 window600 g in
  in_bounds squareSize window800 window600 (position g') = true /\
  real_position (position g') = true.
Proof.
  intros Hp g'. pose proof Hp as Hp'. apply andb_prop in Hp'. destruct Hp' as [Hx Hy].
  assert (Hb : in_bounds squareSize window800 window600 (position g') = true).
  { unfold g', update. cbn [position].
    assert (Hm : F32.units squareSize mod 2 ^ 135 = 0) by reflexivity.
    set (k := F32.units squareSize / 2 ^ 135).
    assert (Ek : F32.units squareSize = k * 2 ^ 135) by reflexivity.
    assert (Hk : k = 819200) by reflexivity.
    pose proof (move_axis_ordered moveSpeed (movingLeft (intent g)) (movingRight (intent g))
                  _ eq_refl (real_ordered _ Hx)) as Ox.
    pose proof (move_axis_ordered moveSpeed (movingUp (intent g)) (movingDown (intent g))
                  _ eq_refl (real_ordered _ Hy)) as Oy.
    destruct (clamp_axis_bounds squareSize window800 _ 13107200 k eq_refl eq_refl Ox
                eq_refl Ek) as [X0 X1]; try lia.
    destruct (clamp_axis_bounds squareSize window600 _ 9830400 k eq_refl eq_refl Oy
                eq_refl Ek) as [Y0 Y1]; try lia.
    rewrite position_updater_axes. unfold in_bounds. cbn [squareX squareY].
    rewrite X0, X1, Y0, Y1. reflexivity. }
  split; [exact Hb|].
  apply (in_bounds_real squareSize window800 window600); try reflexivity; try exact Hb.
  - vm_compute. split; discriminate.
  - vm_compute. discriminate.
  - unfold g', update. cbn [position]. rewrite position_updater_axes. cbn [squareX].
    apply ordered_elim, clamp_axis_ordered; try reflexivity.
    apply move_axis_ordered; [reflexivity | apply real_ordered; exact Hx].
  - unfold g', update. cbn [position]. rewrite position_updater_axes. cbn [squareY].
    apply ordered_elim, clamp_axis_ordered; try reflexivity.
    apply move_axis_ordered; [reflexivity | apply real_ordered; exact Hy].
Qed.

Lemma loop_state_in_bounds (fs : list Frame) :
  let g := loop_state window800 window600 initialGame fs in
  in_bounds squareSize window800 window600 (position g) = true /\
  real_position (position g) = true.
Proof.
  unfold loop_state. rewrite <- fold_left_rev_right.
  induction (rev fs) as [ | f l IH]; cbn [fold_right].
  - split; vm_compute; reflexivity.
  - destruct IH as [_ IH]. unfold frame_state.
    apply update_in_bounds. rewrite position_drain_events. exact IH.
Qed.

(** * Properties of the program *)

(** ** Scenarios *)

(** The initial position (100, 100) of the 50x50 square is within the
    800x600 window. *)
Example initial_state_in_bounds :
  in_bounds squareSize window800 window600 initialPosition = true.
Proof. vm_compute. reflexivity. Qed.

(** A frame of 5 ms is followed by a sleep of 11 ms, a frame of 20 ms by
    none. *)
Example frame_pacing_scenario :
  frame_pacer (F32.of_Z 5) = Delay 11 /\ frame_pacer (F32.of_Z 20) = NoDelay /\
  frame_pacer (elapsedMS 0 5000000 1000000000) = Delay 11.
Proof. vm_compute. repeat split; reflexivity. Qed.

(** ** C1 *)

(** C1 as stated fails: with size 300 (at most min(800, 600)) and no flag
    set, the position x = 500 + 2^-15 is left where it is, because
    x + size = 800 + 2^-15 is rounded to 800 and is not above the width,
    although x is above windowWidth - size = 500. *)
Lemma C1_counterexample :
  let p := {| squareX := after500; squareY := F32.of_Z 100 |} in
  real_position p = true /\ F32.leb F32.zero moveSpeed = true /\
  F32.leb size300 window800 = true /\ F32.leb size300 window600 = true /\
  F32.add after500 size300 = window800 /\
  F32.sub window800 size300 = F32.of_Z 500 /\
  position_updater moveSpeed size300 window800 window600 noIntent p = p /\
  F32.leb (squareX p) (F32.sub window800 size300) = false /\
  in_bounds size300 window800 window600
    (position_updater moveSpeed size300 window800 window600 noIntent p) = false.
Proof. vm_compute. repeat split; reflexivity. Qed.

(** C1, amended: in the 800x600 window, for every position with finite
    coordinates (in or out of bounds), every intent and every finite move
    speed, one update yields
    - for every size from 0 to min(800, 600): 0 <= x, x + size <= windowWidth,
      0 <= y and y + size <= windowHeight, the sums being those the program
      computes;
    - for every size from 0 to 88 that is a multiple of 2^-14 (every whole
      number of pixels up to 88, the 50 of the program among them):
      0 <= x <= windowWidth - size and 0 <= y <= windowHeight - size;
    - the same when the coordinates and the move speed are whole numbers of
      magnitude at most 2^22 and the size is a whole number from 0 to 600. *)
Theorem C1_bounds_after_update
  (speed size : float) (i : MovementIntent) (p : Position) :
  real speed = true -> real size = true -> real_position p = true ->
  let p' := position_updater speed size window800 window600 i p in
  (0 <= F32.units size <= F32.units window600 ->
   in_bounds_sum size window800 window600 p' = true) /\
  (0 <= F32.units size <= 88 * F32.one_unit -> F32.units size mod 2 ^ 135 = 0 ->
   in_bounds size window800 window600 p' = true) /\
  (forall s n a b,
     whole speed s -> whole size n -> whole (squareX p) a -> whole (squareY p) b ->
     Z.abs s <= 2 ^ 22 -> Z.abs a <= 2 ^ 22 -> Z.abs b <= 2 ^ 22 -> 0 <= n <= 600 ->
     in_bounds size window800 window600 p' = true).
Proof.
  intros Hv Hs Hp p'. apply andb_prop in Hp. destruct Hp as [Hx Hy].
  pose proof (move_axis_ordered speed (movingLeft i) (movingRight i) _ Hv
                (real_ordered _ Hx)) as Ox.
  pose proof (move_axis_ordered speed (movingUp i) (movingDown i) _ Hv
                (real_ordered _ Hy)) as Oy.
  unfold p'. rewrite position_updater_axes. unfold in_bounds, in_bounds_sum.
  cbn [squareX squareY]. split; [|split].
  - intros Hr.
    assert (E6 : F32.units window600 = 9830400 * 2 ^ 135) by reflexivity.
    assert (E8 : F32.units window800 = 13107200 * 2 ^ 135) by reflexivity.
    assert (P : 0 < 2 ^ 135) by reflexivity.
    destruct (clamp_axis_sum_bounds size window800 _ 13107200 Hs eq_refl Ox E8)
      as [X0 X1]; try reflexivity; try lia.
    destruct (clamp_axis_sum_bounds size window600 _ 9830400 Hs eq_refl Oy E6)
      as [Y0 Y1]; try reflexivity; try lia.
    rewrite X0, X1, Y0, Y1. reflexivity.
  - intros Hr Hm. set (k := F32.units size / 2 ^ 135).
    assert (Ek : F32.units size = k * 2 ^ 135).
    { unfold k. rewrite Z.mul_comm. apply Z_div_exact_full_2; [discriminate | exact Hm]. }
    assert (Hk : 0 <= k <= 1441792).
    { unfold F32.one_unit in Hr. change (2 ^ 149) with (16384 * 2 ^ 135) in Hr.
      assert (0 < 2 ^ 135) by reflexivity. nia. }
    destruct (clamp_axis_bounds size window800 _ 13107200 k Hs eq_refl Ox eq_refl Ek)
      as [X0 X1]; try lia.
    destruct (clamp_axis_bounds size window600 _ 9830400 k Hs eq_refl Oy eq_refl Ek)
      as [Y0 Y1]; try lia.
    rewrite X0, X1, Y0, Y1. reflexivity.
  - intros s n a b Ws Wn Wa Wb Hsb Ha Hb Hn.
    assert (E22 : 2 ^ 22 = 4194304) by reflexivity.
    destruct (move_axis_whole speed _ s a (movingLeft i) (movingRight i) Ws Wa Hsb Ha)
      as [a' [Wa' Ha']].
    destruct (move_axis_whole speed _ s b (movingUp i) (movingDown i) Ws Wb Hsb Hb)
      as [b' [Wb' Hb']].
    destruct (clamp_axis_whole size window800 _ n 800 a' Wn (of_Z_whole 800 ltac:(lia)) Wa')
      as [X0 X1]; try lia.
    destruct (clamp_axis_whole size window600 _ n 600 b' Wn (of_Z_whole 600 ltac:(lia)) Wb')
      as [Y0 Y1]; try lia.
    rewrite X0, X1, Y0, Y1. reflexivity.
Qed.

Lemma C1_bounds_after_update_witness :
  real_position outsidePosition = true /\
  0 <= F32.units squareSize <= 88 * F32.one_unit /\
  F32.units squareSize mod 2 ^ 135 = 0 /\
  in_bounds squareSize window800 window600
    (position_updater moveSpeed squareSize window800 window600 allIntents outsidePosition)
  = true /\
  in_bounds_sum size300 window800 window600
    (position_updater moveSpeed size300 window800 window600 noIntent
       {| squareX := after500; squareY := F32.of_Z 100 |}) = true.
Proof.
  split; [vm_compute; reflexivity|].
  split; [vm_compute; split; discriminate|].
  split; [vm_compute; reflexivity|].
  split.
  - apply (C1_bounds_after_update moveSpeed squareSize allIntents outsidePosition);
      [ vm_compute; reflexivity | vm_compute; reflexivity | vm_compute; reflexivity
      | vm_compute; split; discriminate | vm_compute; reflexivity ].
  - apply (C1_bounds_after_update moveSpeed size300 noIntent
             {| squareX := after500; squareY := F32.of_Z 100 |});
      [ vm_compute; reflexivity | vm_compute; reflexivity | vm_compute; reflexivity
      | vm_compute; split; discriminate ].
Defined.

(** ** C2 *)

(** C2 as stated fails: in the iteration that reads the quit event the
    position is still updated (W is held: y goes from 100 to 95) and the
    frame is still rendered and presented. *)
Lemma C2_counterexample :
  quit_in (frame_of [ key_down SDL_SCANCODE_W; quit_event ]) = true /\
  main quit_world =
  Exited 0 [ SDL_Init true;
             SDL_CreateWindowAndRenderer "Simple Game Loop" 800 600 true;
             SDL_SetRenderDrawColor 0 0 0 255;
             SDL_RenderClear;
             SDL_SetRenderDrawColor 255 0 0 255;
             SDL_RenderFillRect (F32.of_Z 100) (F32.of_Z 95) squareSize squareSize;
             SDL_RenderPresent;
             SDL_Delay 11;
             SDL_DestroyRenderer; SDL_DestroyWindow; SDL_Quit ] /\
  squareY initialPosition = F32.of_Z 100 /\ F32.of_Z 95 <> F32.of_Z 100.
Proof.
  split; [reflexivity|]. split; [vm_compute; reflexivity|].
  split; [reflexivity|]. vm_compute. discriminate.
Qed.

(** C2, amended: the iteration that reads a quit event is completed (the
    position is updated once more and the frame is rendered and paced);
    no later iteration runs, so that nothing is updated or rendered after
    it; [main] then destroys the renderer, then the window, each exactly
    once, and returns 0. *)
Theorem C2_quit_completes_frame (w : World) (pre post : list Frame) (f : Frame) :
  init_ok w = true -> create_ok w = true ->
  frames w = pre ++ f :: post -> existsb quit_in pre = false -> quit_in f = true ->
  let W := F32.of_Z (windowWidthInt w) in
  let H := F32.of_Z (windowHeightInt w) in
  let g := loop_state W H initialGame pre in
  let g' := frame_state W H g f in
  let last := render (position g') ++ delay_actions (frame_pace (frequency w) f) in
  let trace :=
    [ SDL_Init true; SDL_CreateWindowAndRenderer "Simple Game Loop" 800 600 true ] ++
    (loop_trace W H (frequency w) initialGame pre ++ last) ++
    [ SDL_DestroyRenderer; SDL_DestroyWindow; SDL_Quit ] in
  main w = Exited 0 trace /\
  running g = true /\ running g' = false /\
  position g' =
    position_updater moveSpeed squareSize W H (intent (drain_events g (queue f)))
      (position g) /\
  count is_present trace = S (List.length pre) /\
  count is_destroy_renderer trace = 1%nat /\
  count is_destroy_window trace = 1%nat.
Proof.
  intros Hi Hc E Hpre Hf W H g g' last trace.
  destruct (main_running w Hi Hc) as [_ Hquit]. fold W H in Hquit.
  split; [exact (Hquit pre f post E Hpre Hf)|].
  destruct (game_loop_app W H (frequency w) pre [] initialGame eq_refl Hpre) as [_ Rg].
  fold g in Rg. split; [exact Rg|].
  split; [unfold g'; rewrite running_frame_state, Rg, Hf; reflexivity|].
  split.
  { unfold g', frame_state, update. cbn [position].
    rewrite position_drain_events. reflexivity. }
  destruct (count_loop_trace W H (frequency w) pre initialGame) as [A [B C]].
  destruct (count_frame_trace W H (frequency w) g f) as [A' [B' C']].
  unfold trace, last. fold g'. change (render (position g') ++ delay_actions _)
    with (frame_trace W H (frequency w) g f).
  rewrite !count_app, A, B, C, A', B', C'. cbn.
  repeat split; lia.
Qed.

Lemma C2_quit_completes_frame_witness :
  quit_in (frame_of [ key_down SDL_SCANCODE_W; quit_event ]) = true /\
  exists trace, main quit_world = Exited 0 trace /\ count is_present trace = 1%nat.
Proof.
  split; [reflexivity|].
  destruct (C2_quit_completes_frame quit_world []
              [] (frame_of [ key_down SDL_SCANCODE_W; quit_event ])
              eq_refl eq_refl eq_refl eq_refl eq_refl) as [M [_ [_ [_ [P _]]]]].
  eexists. split; [exact M | exact P].
Defined.

(** ** C3 *)



(** ** C4 *)

(** C4 as stated fails: from (1, 1) with a move speed of 2^25 and both
    flags of each axis set, 1 - 2^25 is rounded to -2^25 and adding 2^25
    gives 0, not 1.  With the move speed 5 of the program, from 0.1 the
    difference 0.1 - 5 loses the last digits of 0.1, and adding 5 gives
    0.09999990..., not 0.1. *)
Lemma C4_counterexample :
  real speed2p25 = true /\ real_position unitPosition = true /\
  F32.sub (F32.of_Z 1) speed2p25 = F32.of_Z (-33554432) /\
  apply_movement speed2p25 allIntents unitPosition =
  {| squareX := F32.zero; squareY := F32.zero |} /\
  F32.eqb (squareX (apply_movement speed2p25 allIntents unitPosition))
          (squareX unitPosition) = false /\
  F32.eqb (squareY (apply_movement speed2p25 allIntents unitPosition))
          (squareY unitPosition) = false /\
  real_position tenthPosition = true /\
  squareX (apply_movement moveSpeed allIntents tenthPosition) =
  S754_finite false 13421760 (-27) /\
  F32.eqb (squareX (apply_movement moveSpeed allIntents tenthPosition))
          (squareX tenthPosition) = false /\
  F32.eqb (squareY (apply_movement moveSpeed allIntents tenthPosition))
          (squareY tenthPosition) = false.
Proof. vm_compute. repeat split; reflexivity. Qed.

(** C4, amended: for a position with finite coordinates and a finite move
    speed, when both flags of an axis are set and the first adjustment,
    position - moveSpeed, is exact (the difference is a single-precision
    number), the component after the movement step compares equal to its
    starting value.  The first adjustment is exact whenever the component
    and the move speed are whole numbers of magnitude below 2^23. *)
Theorem C4_opposing_flags_cancel (speed : float) (i : MovementIntent) (p : Position) :
  real speed = true -> real_position p = true ->
  (movingUp i = true -> movingDown i = true ->
   F32.units (F32.sub (squareY p) speed) = F32.units (squareY p) - F32.units speed ->
   F32.eqb (squareY (apply_movement speed i p)) (squareY p) = true) /\
  (movingLeft i = true -> movingRight i = true ->
   F32.units (F32.sub (squareX p) speed) = F32.units (squareX p) - F32.units speed ->
   F32.eqb (squareX (apply_movement speed i p)) (squareX p) = true) /\
  (forall v s a, whole speed s -> whole v a -> Z.abs s < 2 ^ 23 -> Z.abs a < 2 ^ 23 ->
   F32.units (F32.sub v speed) = F32.units v - F32.units speed).
Proof.
  intros Hv Hp. apply andb_prop in Hp. destruct Hp as [Hx Hy].
  unfold apply_movement. cbn [squareX squareY]. split; [|split].
  - intros -> -> Ex. apply (move_axis_cancel speed (squareY p) Hv Hy Ex).
  - intros -> -> Ex. apply (move_axis_cancel speed (squareX p) Hv Hx Ex).
  - intros v s a [Rs Us] [Ra Ua] Hs Ha. assert (E : 2 ^ 24 = 2 * 2 ^ 23) by reflexivity.
    destruct (sub_whole v speed (a - s) Ra Rs ltac:(lia) ltac:(lia)) as [_ U]. lia.
Qed.

Lemma C4_opposing_flags_cancel_witness :
  F32.units (F32.sub (squareY initialPosition) moveSpeed) =
    F32.units (squareY initialPosition) - F32.units moveSpeed /\
  F32.eqb (squareY (apply_movement moveSpeed allIntents initialPosition))
          (squareY initialPosition) = true.
Proof.
  split; [vm_compute; reflexivity|].
  apply (C4_opposing_flags_cancel moveSpeed allIntents initialPosition);
    vm_compute; reflexivity.
Defined.

(** ** C5 *)

(** C5: with size 50 in a window 800 wide, x = 760, the right flag set and
    a move speed of 20, the movement gives 780 and the clamp then gives
    750 = 800 - 50. *)
Theorem C5_clamp_boundary (i : MovementIntent) (y : float) :
  movingLeft i = false -> movingRight i = true ->
  let p := {| squareX := F32.of_Z 760; squareY := y |} in
  squareX (apply_movement (F32.of_Z 20) i p) = F32.of_Z 780 /\
  squareX (position_updater (F32.of_Z 20) squareSize window800 window600 i p) = F32.of_Z 750 /\
  F32.of_Z 750 = F32.sub window800 squareSize /\
  F32.of_Z 750 <> F32.of_Z 780.
Proof.
  intros Hl Hr p. rewrite position_updater_axes. unfold apply_movement.
  cbn [squareX squareY]. subst p. cbn [squareX squareY]. rewrite Hl, Hr.
  repeat split; try (vm_compute; reflexivity). vm_compute. discriminate.
Qed.

Lemma C5_clamp_boundary_witness :
  movingLeft rightIntent = false /\ movingRight rightIntent = true /\
  squareX (position_updater (F32.of_Z 20) squareSize window800 window600 rightIntent
             {| squareX := F32.of_Z 760; squareY := F32.of_Z 100 |}) = F32.of_Z 750.
Proof.
  split; [reflexivity|]. split; [reflexivity|].
  apply (C5_clamp_boundary rightIntent (F32.of_Z 100)); reflexivity.
Defined.

(** ** C6 *)

(** C6: a position with finite coordinates that satisfies the bounds
    invariant is returned unchanged when the four flags are false. *)
Theorem C6_no_input_unchanged
  (speed size W H : float) (i : MovementIntent) (p : Position) :
  real size = true -> real W = true -> real H = true -> real_position p = true ->
  movingUp i = false -> movingDown i = false ->
  movingLeft i = false -> movingRight i = false ->
  in_bounds size W H p = true ->
  position_updater speed size W H i p = p.
Proof.
  intros Hs HW HH Hp Hu Hd Hl Hr Hb.
  destruct p as [x y]. unfold real_position, in_bounds in *. cbn [squareX squareY] in *.
  apply andb_prop in Hp. destruct Hp as [Hx Hy].
  apply andb_prop in Hb. destruct Hb as [Hb By1].
  apply andb_prop in Hb. destruct Hb as [Hb By0].
  apply andb_prop in Hb. destruct Hb as [Bx0 Bx1].
  rewrite position_updater_axes. cbn [squareX squareY].
  rewrite Hu, Hd, Hl, Hr. unfold move_axis.
  rewrite (clamp_axis_in_bounds size W x), (clamp_axis_in_bounds size H y) by assumption.
  reflexivity.
Qed.

Lemma C6_no_input_unchanged_witness :
  in_bounds squareSize window800 window600 initialPosition = true /\
  position_updater moveSpeed squareSize window800 window600 noIntent initialPosition =
  initialPosition.
Proof.
  split; [vm_compute; reflexivity|].
  apply C6_no_input_unchanged; vm_compute; reflexivity.
Defined.

(** ** C7 *)



(** ** C8 *)

(** C8: [main] returns 0 exactly when SDL is initialised, the window and
    the renderer are created and a quit event is read; it returns 1
    exactly when the initialisation or the creation fails, after logging a
    message; whenever it returns, nothing it acquired is still held. *)
Theorem C8_exit_codes (w : World) :
  ((exists t, main w = Exited 0 t) <->
   init_ok w = true /\ create_ok w = true /\ existsb quit_in (frames w) = true) /\
  ((exists t, main w = Exited 1 t) <-> init_ok w = false \/ create_ok w = false) /\
  (forall c t, main w = Exited c t ->
     (c = 0 \/ c = 1) /\ held t = [] /\ (c = 1 -> existsb is_log t = true)).
Proof.
  destruct (init_ok w) eqn:Hi; [destruct (create_ok w) eqn:Hc|].
  - destruct (main_running w Hi Hc) as [Hno Hquit].
    destruct (existsb quit_in (frames w)) eqn:Hq.
    + destruct (existsb_first _ _ Hq) as [pre [f [post [E [Hpre Hf]]]]].
      specialize (Hquit pre f post E Hpre Hf). rewrite Hquit.
      split; [|split].
      * split; [intros _; repeat split | intros _; eexists; reflexivity].
      * split; [intros [t Ht]; discriminate | intros [? | ?]; discriminate].
      * intros c t Ht. injection Ht as <- <-. split; [left; reflexivity|].
        split; [|discriminate].
        unfold held. cbn [fold_left held_after]. rewrite !fold_left_app.
        rewrite (held_neutral (loop_trace _ _ _ _ _)) by apply neutral_loop_trace.
        rewrite (held_neutral (frame_trace _ _ _ _ _)) by apply neutral_frame_trace.
        reflexivity.
    + rewrite (Hno eq_refl). split; [|split].
      * split; [intros [t Ht]; discriminate | intros [_ [_ ?]]; discriminate].
      * split; [intros [t Ht]; discriminate | intros [? | ?]; discriminate].
      * intros c t Ht. discriminate.
  - unfold main. rewrite Hi, Hc. cbn [negb]. split; [|split].
    + split; [intros [t Ht]; discriminate | intros [_ [? _]]; discriminate].
    + split; [intros _; right; reflexivity | intros _; eexists; reflexivity].
    + intros c t Ht. injection Ht as <- <-. repeat split; auto.
  - unfold main. rewrite Hi. cbn [negb]. split; [|split].
    + split; [intros [t Ht]; discriminate | intros [? _]; discriminate].
    + split; [intros _; left; reflexivity | intros _; eexists; reflexivity].
    + intros c t Ht. injection Ht as <- <-. repeat split; auto.
Qed.

Lemma C8_exit_codes_witness :
  (exists t, main quit_world = Exited 0 t) /\
  (exists t, main {| init_ok := true; create_ok := false;
                     windowWidthInt := 800; windowHeightInt := 600;
                     frequency := 1000000000; frames := [] |} = Exited 1 t).
Proof.
  split.
  - apply (C8_exit_codes quit_world). repeat split; reflexivity.
  - apply C8_exit_codes. right. reflexivity.
Defined.

(** ** C9 *)

(** C9: when the size exceeds the window width, the updater outputs
    x = windowWidth - size, which is negative: the upper bound holds and
    the lower bound does not. *)
Theorem C9_oversize_clamps_negative
  (speed size W H : float) (i : MovementIntent) (p : Position) :
  real speed = true -> real size = true -> real W = true -> real (squareX p) = true ->
  F32.gtb size W = true ->
  let x' := squareX (position_updater speed size W H i p) in
  x' = F32.sub W size /\ F32.ltb x' F32.zero = true /\
  F32.leb x' (F32.sub W size) = true /\ F32.leb F32.zero x' = false.
Proof.
  intros Hv Hs HW Hx Hgt x'. subst x'. rewrite position_updater_axes. cbn [squareX].
  pose proof (move_axis_ordered speed (movingLeft i) (movingRight i) (squareX p) Hv
                (real_ordered _ Hx)) as Ho.
  destruct (clamp_axis_oversize size W _ Hs HW Ho Hgt) as [E N]. rewrite E.
  pose proof (real_elim _ Hs) as [Vs [Fs _]]. pose proof (real_elim _ HW) as [VW [FW _]].
  pose proof (sub_rounds_to W size VW Vs FW Fs) as [Vd [Nd _]].
  split; [reflexivity|]. split; [exact N|].
  rewrite (ltb_ord _ F32.zero Vd eq_refl Nd eq_refl) in N. apply Z.ltb_lt in N.
  rewrite !leb_ord by (assumption || reflexivity).
  split; [apply Z.leb_le; lia | apply Z.leb_gt; exact N].
Qed.

Lemma C9_oversize_clamps_negative_witness :
  F32.gtb (F32.of_Z 900) window800 = true /\
  squareX (position_updater moveSpeed (F32.of_Z 900) window800 window600 allIntents
             initialPosition) = F32.of_Z (-100).
Proof.
  split; [vm_compute; reflexivity|].
  apply (C9_oversize_clamps_negative moveSpeed (F32.of_Z 900) window800 window600
           allIntents initialPosition); vm_compute; reflexivity.
Defined.

(** ** C10 *)




(** * Further properties of the program *)

(** ** The input mapper *)

Lemma intent_process_event (g : Game) (e : SDL_Event) :
  let i := intent g in
  let i' := intent (process_event g e) in
  movingUp i' = key_after SDL_SCANCODE_W (movingUp i) e /\
  movingDown i' = key_after SDL_SCANCODE_S (movingDown i) e /\
  movingLeft i' = key_after SDL_SCANCODE_A (movingLeft i) e /\
  movingRight i' = key_after SDL_SCANCODE_D (movingRight i) e.
Proof.
  destruct g as [pos [u d l r] run]. destruct e as [t sc].
  unfold process_event, set_key, key_after. cbn [ev_type ev_scancode intent].
  unfold SDL_EVENT_QUIT, SDL_EVENT_KEY_DOWN, SDL_EVENT_KEY_UP,
    SDL_SCANCODE_W, SDL_SCANCODE_S, SDL_SCANCODE_A, SDL_SCANCODE_D.
  destruct (Z.eqb_spec t 256); [subst; cbn; repeat split; reflexivity|].
  destruct (Z.eqb_spec t 768);
    [subst; cbn [andb]|
     destruct (Z.eqb_spec t 769); [|cbn; repeat split; reflexivity]];
    destruct (Z.eqb_spec sc 26); try (subst; cbn; repeat split; reflexivity);
    destruct (Z.eqb_spec sc 22); try (subst; cbn; repeat split; reflexivity);
    destruct (Z.eqb_spec sc 4); try (subst; cbn; repeat split; reflexivity);
    destruct (Z.eqb_spec sc 7); try (subst; cbn; repeat split; reflexivity);
    cbn; repeat split; reflexivity.
Qed.

(** X5: After a drain, each of the four flags is what the last press or
    release of its own key made it (or what it was, without such an event):
    events of other keys, unknown events and a quit event before or
    after do not matter. *)
Theorem drain_events_key_state (g : Game) (q : list SDL_Event) :
  let i := intent g in
  let i' := intent (drain_events g q) in
  movingUp i' = key_state SDL_SCANCODE_W (movingUp i) q /\
  movingDown i' = key_state SDL_SCANCODE_S (movingDown i) q /\
  movingLeft i' = key_state SDL_SCANCODE_A (movingLeft i) q /\
  movingRight i' = key_state SDL_SCANCODE_D (movingRight i) q.
Proof.
  unfold drain_events, key_state. revert g.
  induction q as [ | e q IH]; intros g; cbn [fold_left].
  - repeat split; reflexivity.
  - destruct (intent_process_event g e) as [A [B [C D]]].
    cbn zeta in IH. specialize (IH (process_event g e)).
    rewrite A, B, C, D in IH. exact IH.
Qed.

(** X4: An event that is repeated changes nothing the second time: a key
    that repeats while it is held does not accumulate. *)
Theorem process_event_idempotent (g : Game) (e : SDL_Event) :
  process_event (process_event g e) e = process_event g e.
Proof.
  destruct g as [pos [u d l r] run]. destruct e as [t sc].
  unfold process_event, set_key, set_intent, set_running. cbn [ev_type ev_scancode intent].
  destruct (t =? SDL_EVENT_QUIT); [reflexivity|].
  destruct (t =? SDL_EVENT_KEY_DOWN);
    [|destruct (t =? SDL_EVENT_KEY_UP); [|reflexivity]];
    cbn [intent position running];
    destruct (sc =? SDL_SCANCODE_W); try reflexivity;
    destruct (sc =? SDL_SCANCODE_S); try reflexivity;
    destruct (sc =? SDL_SCANCODE_A); try reflexivity;
    destruct (sc =? SDL_SCANCODE_D); reflexivity.
Qed.

(** X6: The drain goes through the whole queue: [running] is false after
    it exactly when it was false before or the queue holds a quit event,
    wherever in the queue; no event sets it back to true. *)
Theorem drain_events_running (g : Game) (q : list SDL_Event) :
  running (drain_events g q) = running g && negb (existsb is_quit q) /\
  running (drain_events (set_running g false) q) = false.
Proof.
  split; [apply running_drain_events|].
  rewrite running_drain_events. reflexivity.
Qed.

(** ** The calls of a run *)

Lemma protocol_ok_app (t1 t2 : list Action) (h : list Resource) :
  protocol_ok h (t1 ++ t2) =
  protocol_ok h t1 && protocol_ok (fold_left held_after t1 h) t2.
Proof.
  revert h. induction t1 as [ | a t1 IH]; intros h; cbn [app protocol_ok fold_left].
  - reflexivity.
  - rewrite IH, andb_assoc. reflexivity.
Qed.

Lemma protocol_ok_neutral (t : list Action) (h : list Resource) :
  forallb neutral t = true -> holds h Renderer = true -> protocol_ok h t = true.
Proof.
  revert h. induction t as [ | a t IH]; intros h Hn Hh; [reflexivity|].
  cbn [forallb] in Hn. apply andb_prop in Hn. destruct Hn as [Ha Ht].
  cbn [protocol_ok]. apply andb_true_intro. split.
  - destruct a; try discriminate; cbn [needs forallb]; rewrite ?Hh; reflexivity.
  - apply IH; [exact Ht|]. destruct a; try discriminate; exact Hh.
Qed.

(** The outcome of [main], case by case. *)
Lemma main_cases (w : World) :
  let W := F32.of_Z (windowWidthInt w) in
  let H := F32.of_Z (windowHeightInt w) in
  let opening := [ SDL_Init true;
                   SDL_CreateWindowAndRenderer "Simple Game Loop" 800 600 true ] in
  main w = Exited 1 [ SDL_Init false; SDL_Log "Failed to initialize video! %s" ] \/
  main w = Exited 1 [ SDL_Init true;
                      SDL_CreateWindowAndRenderer "Simple Game Loop" 800 600 false;
                      SDL_Log "Failed to create window and renderer: %s"; SDL_Quit ] \/
  main w = StillRunning (opening ++ loop_trace W H (frequency w) initialGame (frames w)) \/
  exists pre f post,
    frames w = pre ++ f :: post /\
    main w = Exited 0 (opening ++
                       (loop_trace W H (frequency w) initialGame pre ++
                        frame_trace W H (frequency w) (loop_state W H initialGame pre) f) ++
                       [ SDL_DestroyRenderer; SDL_DestroyWindow; SDL_Quit ]).
Proof.
  intros W H opening.
  destruct (init_ok w) eqn:Hi; [destruct (create_ok w) eqn:Hc|].
  - destruct (main_running w Hi Hc) as [Hno Hquit].
    destruct (existsb quit_in (frames w)) eqn:Hq.
    + destruct (existsb_first _ _ Hq) as [pre [f [post [E [Hpre Hf]]]]].
      right; right; right. exists pre, f, post. split; [exact E|].
      apply (Hquit pre f post E Hpre Hf).
    + right; right; left. apply Hno. reflexivity.
  - right; left. unfold main. rewrite Hi, Hc. reflexivity.
  - left. unfold main. rewrite Hi. reflexivity.
Qed.

(** X11: In every run, whatever SDL answers and however the run ends,
    each call finds what it uses: nothing is drawn, presented or
    destroyed unless the renderer (or the window) is held, and nothing is
    released twice. *)
Theorem main_protocol_ok (w : World) : protocol_ok [] (trace_of (main w)) = true.
Proof.
  destruct (main_cases w) as [E | [E | [E | [pre [f [post [_ E]]]]]]]; rewrite E;
    cbn [trace_of].
  - reflexivity.
  - reflexivity.
  - cbn [app protocol_ok needs forallb held_after holds existsb Resource_eqb orb andb].
    apply protocol_ok_neutral; [apply neutral_loop_trace | reflexivity].
  - cbn [app protocol_ok needs forallb held_after holds existsb Resource_eqb orb andb].
    rewrite !protocol_ok_app.
    rewrite (protocol_ok_neutral (loop_trace _ _ _ _ _))
      by (apply neutral_loop_trace || reflexivity).
    rewrite (held_neutral (loop_trace _ _ _ _ _)) by apply neutral_loop_trace.
    rewrite (protocol_ok_neutral (frame_trace _ _ _ _ _))
      by (apply neutral_frame_trace || reflexivity).
    rewrite fold_left_app.
    rewrite (held_neutral (loop_trace _ _ _ _ _)) by apply neutral_loop_trace.
    rewrite (held_neutral (frame_trace _ _ _ _ _)) by apply neutral_frame_trace.
    reflexivity.
Qed.

(** ** The pacer on measured times *)

Lemma frame_pace_range (freq : Z) (f : Frame) :
  forallb delay_ok (delay_actions (frame_pace freq f)) = true.
Proof.
  unfold frame_pace.
  destruct (elapsedMS_measured (frameStart f) (frameEnd f) freq) as [V S].
  set (e := elapsedMS (frameStart f) (frameEnd f) freq) in *.
  destruct (F32.ltb e targetFrameTimeMS) eqn:Hlt.
  - destruct (frame_pacer_delay e V S Hlt) as [-> [_ [_ [H0 H16]]]].
    cbn [delay_actions forallb delay_ok]. apply Z.leb_le in H0, H16.
    rewrite H0, H16. reflexivity.
  - unfold frame_pacer. rewrite Hlt. reflexivity.
Qed.

Lemma delay_ok_loop_trace (W H : float) (freq : Z) (fs : list Frame) (g : Game) :
  forallb delay_ok (loop_trace W H freq g fs) = true.
Proof.
  revert g. induction fs as [ | f fs IH]; intros g; cbn [loop_trace]; [reflexivity|].
  unfold frame_trace. rewrite !forallb_app, frame_pace_range, IH. reflexivity.
Qed.

(** X2: Whatever the counter readings and the frequency, the cast of line
    155 is defined, so that no run has undefined behaviour, and every delay
    that is requested is one of 0 to 16 ms. *)
Theorem main_delays_defined (w : World) :
  (forall t, main w <> UndefinedBehaviour t) /\
  forallb delay_ok (trace_of (main w)) = true /\
  (forall f, frame_pace (frequency w) f <> UndefinedDelay).
Proof.
  split; [|split].
  - intros t. destruct (main_cases w) as [E | [E | [E | [pre [f [post [_ E]]]]]]];
      rewrite E; discriminate.
  - destruct (main_cases w) as [E | [E | [E | [pre [f [post [_ E]]]]]]]; rewrite E;
      cbn [trace_of]; try reflexivity.
    + rewrite forallb_app, delay_ok_loop_trace. reflexivity.
    + unfold frame_trace.
      rewrite !forallb_app, delay_ok_loop_trace, frame_pace_range. reflexivity.
  - intros f. apply frame_pace_defined.
Qed.

(** ** Edge cases of the measurement *)

(** A positive [Uint64] is converted to a positive finite number. *)
Lemma of_Z_Uint64_finite (n : Z) :
  0 < n < 2 ^ 64 -> exists m e, F32.of_Z n = S754_finite false m e.
Proof.
  intros Hn. pose proof (of_Z_rounds_to n) as R.
  destruct (rounds_to_sign _ _ R) as [Pos _].
  assert (P : 0 < F32.one_unit) by reflexivity. specialize (Pos ltac:(nia)).
  pose proof R as [_ [_ Hr]].
  set (top := S754_finite false 8388608 41).
  destruct (Hr top eq_refl eq_refl) as [_ A].
  assert (Et : F32.units top = 2 ^ 64 * F32.one_unit) by reflexivity.
  assert (Ot : F32.ord top = 2 ^ 64 * F32.one_unit) by reflexivity.
  rewrite Et, Ot in A. specialize (A ltac:(nia)).
  assert (B : 2 ^ 64 * F32.one_unit < F32.beyond) by reflexivity.
  destruct (F32.of_Z n) as [s | [ | ] | | [ | ] m e]; cbn [F32.ord F32.units cond_Zopp] in *;
    try lia.
  - eexists _, _. reflexivity.
Qed.

(** X3: With a frequency of zero the division gives an infinity or a NaN
    and no delay is requested; with two equal counter readings (also
    modulo 2^64) and a frequency that is not zero the elapsed time is 0 and
    the delay is 16 ms. *)
Theorem frame_pace_edges (freq : Z) (f : Frame) :
  (Uint64 freq = 0 -> frame_pace freq f = NoDelay) /\
  (Uint64 freq <> 0 -> Uint64 (frameEnd f - frameStart f) = 0 ->
   elapsedMS (frameStart f) (frameEnd f) freq = F32.zero /\
   frame_pace freq f = Delay 16).
Proof.
  assert (U : forall z, 0 <= Uint64 z < 2 ^ 64) by (intros z; apply Z.mod_pos_bound; reflexivity).
  unfold frame_pace, elapsedMS. split.
  - intros ->. change (F32.of_Z 0) with (S754_zero false).
    destruct (Z.eq_dec (Uint64 (frameEnd f - frameStart f)) 0) as [-> | Hne].
    + reflexivity.
    + destruct (of_Z_Uint64_finite (Uint64 (frameEnd f - frameStart f))) as [m [e ->]].
      { specialize (U (frameEnd f - frameStart f)). lia. }
      reflexivity.
  - intros Hf ->. destruct (of_Z_Uint64_finite (Uint64 freq)) as [m [e ->]].
    { specialize (U freq). lia. }
    split; reflexivity.
Qed.

Lemma frame_pace_edges_witness :
  Uint64 0 = 0 /\ frame_pace 0 (frame_of []) = NoDelay /\
  Uint64 1000 <> 0 /\
  frame_pace 1000 {| queue := []; frameStart := 7; frameEnd := 7 |} = Delay 16.
Proof.
  split; [reflexivity|]. split.
  - apply (frame_pace_edges 0 (frame_of [])). reflexivity.
  - split; [discriminate|].
    apply (frame_pace_edges 1000 {| queue := []; frameStart := 7; frameEnd := 7 |});
      [discriminate | reflexivity].
Defined.

(** ** The update on whole numbers of pixels *)

Lemma move_axis_refines (speed v : float) (s a : Z) (minus plus : bool) :
  whole speed s -> whole v a -> Z.abs s <= 2 ^ 22 -> Z.abs a <= 2 ^ 22 ->
  whole (move_axis speed minus plus v) (move_axis_Z s minus plus a) /\
  Z.abs (move_axis_Z s minus plus a) <= 2 ^ 23.
Proof.
  intros [Rs Us] [Rv Uv] Hs Ha. assert (E : 2 ^ 24 = 2 * 2 ^ 23) by reflexivity.
  assert (E' : 2 ^ 23 = 2 * 2 ^ 22) by reflexivity.
  unfold move_axis, move_axis_Z. destruct minus, plus.
  - destruct (sub_whole v speed (a - s) Rv Rs ltac:(lia) ltac:(lia)) as [R1 U1].
    destruct (add_whole _ speed (a - s + s) R1 Rs ltac:(lia) ltac:(lia)) as [R2 U2].
    split; [split; assumption | lia].
  - destruct (sub_whole v speed (a - s) Rv Rs ltac:(lia) ltac:(lia)) as [R1 U1].
    split; [split; assumption | lia].
  - destruct (add_whole v speed (a + s) Rv Rs ltac:(lia) ltac:(lia)) as [R1 U1].
    split; [split; assumption | lia].
  - split; [split; assumption | lia].
Qed.

Lemma clamp_axis_refines (size limit v : float) (n L b : Z) :
  whole size n -> whole limit L -> whole v b ->
  0 <= n <= 2 ^ 22 -> Z.abs L <= 2 ^ 22 -> Z.abs b <= 2 ^ 23 ->
  whole (clamp_axis size limit v) (clamp_axis_Z n L b).
Proof.
  intros [Rs Us] [Rl Ul] [Rv Uv] Hn HL Hb.
  assert (E : 2 ^ 24 = 2 * 2 ^ 23) by reflexivity.
  assert (E' : 2 ^ 23 = 2 * 2 ^ 22) by reflexivity.
  assert (P : 0 < F32.one_unit) by reflexivity.
  destruct (sub_whole limit size (L - n) Rl Rs ltac:(lia) ltac:(lia)) as [Rd Ud].
  pose proof (real_elim _ Rl) as [Vl [Fl Nl]].
  pose proof (real_elim _ Rv) as [Vv [Fv Nv]].
  unfold clamp_axis, clamp_axis_Z.
  assert (Hw : whole (clamp_low v) (if b <? 0 then 0 else b)).
  { unfold clamp_low. rewrite (ltb_ord v F32.zero Vv eq_refl Nv eq_refl).
    change (F32.ord F32.zero) with 0. rewrite (finite_ord v Fv), Uv.
    destruct (Z.ltb_spec (b * F32.one_unit) 0); destruct (Z.ltb_spec b 0); try nia.
    - split; reflexivity.
    - split; assumption. }
  set (c := if b <? 0 then 0 else b) in *.
  assert (Hc : 0 <= c <= 2 ^ 23) by (unfold c; destruct (Z.ltb_spec b 0); lia).
  destruct Hw as [Rc Uc]. set (v' := clamp_low v) in *.
  destruct (add_whole v' size (c + n) Rc Rs ltac:(lia) ltac:(lia)) as [Rr Ur].
  pose proof (real_elim _ Rr) as [Vr [Fr Nr]].
  unfold clamp_high. rewrite (gtb_ord _ _ (real_ordered _ Rr) (real_ordered _ Rl)).
  rewrite (finite_ord _ Fr), (finite_ord _ Fl), Ur, Ul.
  destruct (Z.ltb_spec (L * F32.one_unit) ((c + n) * F32.one_unit));
    destruct (Z.ltb_spec L (c + n)); try nia; split; assumption.
Qed.

Lemma position_updater_axes_whole
  (speed size W H : float) (i : MovementIntent) (p : Position) (s n Lw Lh a b : Z) :
  whole speed s -> whole size n -> whole W Lw -> whole H Lh ->
  whole (squareX p) a -> whole (squareY p) b ->
  Z.abs s <= 2 ^ 22 -> 0 <= n <= 2 ^ 22 -> Z.abs Lw <= 2 ^ 22 -> Z.abs Lh <= 2 ^ 22 ->
  Z.abs a <= 2 ^ 22 -> Z.abs b <= 2 ^ 22 ->
  whole (squareX (position_updater speed size W H i p))
        (clamp_axis_Z n Lw (move_axis_Z s (movingLeft i) (movingRight i) a)) /\
  whole (squareY (position_updater speed size W H i p))
        (clamp_axis_Z n Lh (move_axis_Z s (movingUp i) (movingDown i) b)).
Proof.
  intros Ws Wn WW WH Wa Wb Hs Hn HLw HLh Ha Hb.
  rewrite position_updater_axes. cbn [squareX squareY].
  destruct (move_axis_refines speed _ s a (movingLeft i) (movingRight i) Ws Wa Hs Ha)
    as [Ma Ba].
  destruct (move_axis_refines speed _ s b (movingUp i) (movingDown i) Ws Wb Hs Hb)
    as [Mb Bb].
  split; apply clamp_axis_refines; assumption.
Qed.

(** X7: On whole numbers of pixels (coordinates, move speed, size and
    window size of magnitude at most 2^22) the update is exact: each
    coordinate of the result is the whole number that the same moves and
    clamps give in integer arithmetic. *)
Theorem position_updater_whole_pixels
  (speed size W H : float) (i : MovementIntent) (p : Position) (s n Lw Lh a b : Z) :
  whole speed s -> whole size n -> whole W Lw -> whole H Lh ->
  whole (squareX p) a -> whole (squareY p) b ->
  Z.abs s <= 2 ^ 22 -> 0 <= n <= 2 ^ 22 -> Z.abs Lw <= 2 ^ 22 -> Z.abs Lh <= 2 ^ 22 ->
  Z.abs a <= 2 ^ 22 -> Z.abs b <= 2 ^ 22 ->
  let p' := position_updater speed size W H i p in
  whole (squareX p')
        (clamp_axis_Z n Lw (move_axis_Z s (movingLeft i) (movingRight i) a)) /\
  whole (squareY p')
        (clamp_axis_Z n Lh (move_axis_Z s (movingUp i) (movingDown i) b)).
Proof.
  intros Ws Wn WW WH Wa Wb Hs Hn HLw HLh Ha Hb p'. unfold p'.
  apply position_updater_axes_whole; assumption.
Qed.

Lemma position_updater_whole_pixels_witness :
  whole (squareX outsidePosition) (-30) /\ whole (squareY outsidePosition) 900 /\
  whole (squareX (position_updater moveSpeed squareSize window800 window600 rightIntent
                    outsidePosition)) 0 /\
  whole (squareY (position_updater moveSpeed squareSize window800 window600 rightIntent
                    outsidePosition)) 550.
Proof.
  split; [split; reflexivity|]. split; [split; reflexivity|].
  apply (position_updater_whole_pixels moveSpeed squareSize window800 window600
           rightIntent outsidePosition 5 50 800 600 (-30) 900);
    try (split; reflexivity); vm_compute; try split; discriminate.
Defined.

(** ** The positions that the program reaches *)

Lemma grid_step (cells : Z) (minus plus : bool) (a : Z) :
  0 <= a <= cells ->
  exists a', clamp_axis_Z 50 (5 * cells + 50) (move_axis_Z 5 minus plus (5 * a)) = 5 * a' /\
             0 <= a' <= cells.
Proof.
  intros Ha. unfold clamp_axis_Z, move_axis_Z.
  destruct minus, plus;
    repeat match goal with |- context [?x <? ?y] => destruct (Z.ltb_spec x y) end;
    first [ exists a; lia | exists (a - 1); lia | exists (a + 1); lia
          | exists 0; lia | exists cells; lia ].
Qed.

Lemma update_on_grid (g : Game) (a b : Z) :
  whole (squareX (position g)) (5 * a) -> whole (squareY (position g)) (5 * b) ->
  0 <= a <= 150 -> 0 <= b <= 110 ->
  exists a' b',
    whole (squareX (position (update window800 window600 g))) (5 * a') /\
    whole (squareY (position (update window800 window600 g))) (5 * b') /\
    0 <= a' <= 150 /\ 0 <= b' <= 110.
Proof.
  intros Wa Wb Ha Hb. unfold update. cbn [position].
  destruct (position_updater_axes_whole moveSpeed squareSize window800 window600
              (intent g) (position g) 5 50 800 600 (5 * a) (5 * b)) as [X Y];
    try assumption; try (split; reflexivity); try lia.
  destruct (grid_step 150 (movingLeft (intent g)) (movingRight (intent g)) a Ha)
    as [a' [Ea Ha']].
  destruct (grid_step 110 (movingUp (intent g)) (movingDown (intent g)) b Hb)
    as [b' [Eb Hb']].
  change (5 * 150 + 50) with 800 in Ea. change (5 * 110 + 50) with 600 in Eb.
  rewrite Ea in X. rewrite Eb in Y. exists a', b'. split; [exact X|]. split; [exact Y|]. split; assumption.
Qed.

(** X8: Whatever the events and however many frames, the square of the
    program stays on the grid of 5 pixels within the 800x600 window: its
    coordinates are whole multiples of 5 with [0 <= x <= 750] and
    [0 <= y <= 550], so that no rounding ever occurs in the program as
    written. *)
Theorem reachable_positions_on_grid (fs : list Frame) :
  let p := position (loop_state window800 window600 initialGame fs) in
  exists a b,
    whole (squareX p) (5 * a) /\ whole (squareY p) (5 * b) /\
    0 <= a <= 150 /\ 0 <= b <= 110.
Proof.
  intros p. unfold p, loop_state. rewrite <- fold_left_rev_right.
  induction (rev fs) as [ | f l IH]; cbn [fold_right].
  - exists 20, 20. repeat split; try reflexivity; lia.
  - destruct IH as [a [b [Wa [Wb [Ha Hb]]]]]. unfold frame_state.
    apply (update_on_grid _ a b); rewrite ?position_drain_events; assumption.
Qed.

Lemma clamp_axis_Z_inside (size limit v : Z) :
  0 <= v -> v + size <= limit -> clamp_axis_Z size limit v = v.
Proof.
  intros H0 H1. unfold clamp_axis_Z.
  destruct (Z.ltb_spec v 0); [lia|]. destruct (Z.ltb_spec limit (v + size)); lia.
Qed.

Lemma clamp_axis_Z_above (size limit v : Z) :
  0 <= v -> limit < v + size -> clamp_axis_Z size limit v = limit - size.
Proof.
  intros H0 H1. unfold clamp_axis_Z.
  destruct (Z.ltb_spec v 0); [lia|]. destruct (Z.ltb_spec limit (v + size)); lia.
Qed.

(** X12: A key that is held saturates: from a whole position [a] in
    [0, 750], [k] updates with only the D key down leave x at
    [min (a + 5 k) 750] and y where it was. *)
Theorem held_key_saturates (k : nat) (p : Position) (a b : Z) :
  whole (squareX p) a -> whole (squareY p) b ->
  0 <= a <= 750 -> 0 <= b <= 550 ->
  let p' := Nat.iter k (position_updater moveSpeed squareSize window800 window600
                          rightIntent) p in
  whole (squareX p') (Z.min (a + 5 * Z.of_nat k) 750) /\ whole (squareY p') b.
Proof.
  intros Wa Wb Ha Hb. induction k as [ | k IH].
  - cbn [Nat.iter]. split; [|exact Wb].
    replace (Z.min (a + 5 * Z.of_nat 0) 750) with a by lia. exact Wa.
  - cbn [Nat.iter]. destruct IH as [Wx Wy].
    set (q := Nat.iter k _ p) in *. set (c := Z.min (a + 5 * Z.of_nat k) 750) in *.
    assert (Hc : 0 <= c <= 750) by lia.
    destruct (position_updater_axes_whole moveSpeed squareSize window800 window600
                rightIntent q 5 50 800 600 c b) as [X Y];
      try assumption; try (split; reflexivity);
      try (change (2 ^ 22) with 4194304; lia).
    cbn [rightIntent movingLeft movingRight movingUp movingDown move_axis_Z] in X, Y.
    rewrite (clamp_axis_Z_inside 50 600 b) in Y by lia.
    split; [|exact Y].
    destruct (Z.le_gt_cases (c + 5) 750) as [Hle | Hgt].
    + rewrite (clamp_axis_Z_inside 50 800 (c + 5)) in X by lia.
      replace (Z.min (a + 5 * Z.of_nat (S k)) 750) with (c + 5) by lia. exact X.
    + rewrite (clamp_axis_Z_above 50 800 (c + 5)) in X by lia.
      replace (Z.min (a + 5 * Z.of_nat (S k)) 750) with (800 - 50) by lia. exact X.
Qed.

Lemma held_key_saturates_witness :
  whole (squareX initialPosition) 100 /\ whole (squareY initialPosition) 100 /\
  whole (squareX (Nat.iter 200 (position_updater moveSpeed squareSize window800 window600
                                  rightIntent) initialPosition)) 750 /\
  whole (squareY (Nat.iter 200 (position_updater moveSpeed squareSize window800 window600
                                  rightIntent) initialPosition)) 100.
Proof.
  split; [split; reflexivity|]. split; [split; reflexivity|].
  apply (held_key_saturates 200 initialPosition 100 100);
    try (split; reflexivity); lia.
Defined.

(** ** The clamps in single precision, whatever the sizes *)

Lemma clamp_axis_idempotent (size limit v : float) :
  real size = true -> real limit = true -> ordered v = true ->
  clamp_axis size limit (clamp_axis size limit v) = clamp_axis size limit v.
Proof.
  intros Hs Hl Hv.
  pose proof (real_elim size Hs) as [Vs [Fs Ns]].
  pose proof (real_elim limit Hl) as [Vl [Fl Nl]].
  pose proof (sub_rounds_to limit size Vl Vs Fl Fs) as Rd.
  pose proof (rounds_to_ordered _ _ Rd) as Od.
  destruct (clamp_low_spec v Hv) as [Ho [Hnn _]].
  set (v' := clamp_low v) in *. set (d := F32.sub limit size) in *.
  destruct (F32.gtb (F32.add v' size) limit) eqn:Hg.
  - (* the upper clamp fired *)
    assert (C : clamp_axis size limit v = d)
      by (unfold clamp_axis, clamp_high; fold v'; rewrite Hg; reflexivity).
    rewrite C. unfold clamp_axis.
    destruct (Z.le_gt_cases 0 (F32.ord d)) as [Hd | Hd].
    + destruct (clamp_low_spec d Od) as [_ [_ E]]. rewrite (E Hd).
      unfold clamp_high. fold d. destruct (F32.gtb (F32.add d size) limit); reflexivity.
    + pose proof (ordered_elim d Od) as [Vd Nd].
      assert (E : clamp_low d = F32.zero).
      { unfold clamp_low. rewrite (ltb_ord d F32.zero Vd eq_refl Nd eq_refl).
        change (F32.ord F32.zero) with 0. destruct (Z.ltb_spec (F32.ord d) 0); [reflexivity|lia]. }
      rewrite E. unfold clamp_high. fold d.
      pose proof (add_rounds_to F32.zero size eq_refl Vs eq_refl Fs) as Rz.
      change (F32.units F32.zero) with 0 in Rz.
      destruct (rounds_to_representable _ _ size Rz Hs ltac:(lia)) as [Oz Rzz].
      rewrite (gtb_ord _ _ (real_ordered _ Rzz) (real_ordered _ Hl)).
      rewrite Oz, (finite_ord limit Fl). cbn [Z.add].
      destruct (Z.ltb_spec (F32.units limit) (F32.units size)) as [_ | Hle]; [reflexivity|].
      exfalso. destruct (rounds_to_sign _ _ Rd) as [P [_ Q]]. fold d in P, Q. lia.
  - assert (C : clamp_axis size limit v = v')
      by (unfold clamp_axis, clamp_high; fold v'; rewrite Hg; reflexivity).
    rewrite C. unfold clamp_axis. destruct (clamp_low_spec v' Ho) as [_ [_ E]].
    rewrite (E Hnn). unfold clamp_high. rewrite Hg. reflexivity.
Qed.

Lemma clamp_axis_window (size limit v : float) :
  real size = true -> real limit = true -> ordered v = true ->
  0 <= F32.units size <= F32.units limit ->
  real (clamp_axis size limit v) = true /\
  F32.leb F32.zero (clamp_axis size limit v) = true /\
  F32.leb (clamp_axis size limit v) limit = true.
Proof.
  intros Hs Hl Hv Hsz.
  pose proof (real_elim size Hs) as [Vs [Fs Ns]].
  pose proof (real_elim limit Hl) as [Vl [Fl Nl]].
  pose proof (sub_rounds_to limit size Vl Vs Fl Fs) as Rd.
  pose proof (beyond_units limit Vl) as Bl.
  assert (Hx : forall x, ordered x = true -> 0 <= F32.ord x <= F32.units limit ->
            real x = true /\ F32.leb F32.zero x = true /\ F32.leb x limit = true).
  { intros x Ox Hr. pose proof (ordered_elim x Ox) as [Vx Nx].
    rewrite (leb_ord F32.zero x eq_refl Vx eq_refl Nx), (leb_ord x limit Vx Vl Nx Nl).
    change (F32.ord F32.zero) with 0. rewrite (finite_ord limit Fl).
    repeat split; try (apply Z.leb_le; lia).
    unfold real. rewrite Vx. cbn [andb].
    destruct x as [s | [ | ] | | s m e]; try reflexivity; try discriminate;
      cbn [F32.ord] in *; lia. }
  destruct (clamp_low_spec v Hv) as [Ho [Hnn _]].
  unfold clamp_axis. set (v' := clamp_low v) in *.
  destruct (add_ordered v' size Ho Hs) as [Hr [Hfin Hinf]].
  unfold clamp_high. rewrite (gtb_ord _ _ Hr (real_ordered _ Hl)).
  rewrite (finite_ord limit Fl).
  destruct (Z.ltb_spec (F32.units limit) (F32.ord (F32.add v' size))) as [Hgt | Hle].
  - apply Hx; [exact (rounds_to_ordered _ _ Rd)|].
    destruct Rd as [_ [_ Hd]].
    destruct (Hd F32.zero eq_refl eq_refl) as [D0 _].
    destruct (Hd limit Vl Fl) as [_ D1].
    change (F32.units F32.zero) with 0 in D0. change (F32.ord F32.zero) with 0 in D0.
    rewrite (finite_ord limit Fl) in D1. lia.
  - apply Hx; [exact Ho|]. split; [exact Hnn|].
    pose proof (ordered_elim v' Ho) as [Vv Nv].
    destruct (F32.is_finite v') eqn:Fv.
    + destruct (Hfin eq_refl) as [_ [_ Hf]]. destruct (Hf v' Vv Fv) as [A _].
      specialize (A ltac:(lia)). lia.
    + rewrite (Hinf eq_refl) in Hle.
      rewrite (ordered_nonneg_infinite v' Ho Fv Hnn) in Hle. lia.
Qed.

Lemma move_axis_nan (speed : float) (minus plus : bool) :
  move_axis speed minus plus S754_nan = S754_nan.
Proof.
  unfold move_axis. destruct minus, plus; destruct speed as [ | [ | ] | | ]; reflexivity.
Qed.

Lemma clamp_axis_nan (size limit : float) : clamp_axis size limit S754_nan = S754_nan.
Proof.
  unfold clamp_axis. change (clamp_low S754_nan) with (S754_nan : float).
  unfold clamp_high.
  replace (F32.add S754_nan size) with (S754_nan : float)
    by (destruct size as [ | [ | ] | | ]; reflexivity).
  destruct limit as [ | [ | ] | | ]; reflexivity.
Qed.

(** X9: Once clamped, always clamped: with a finite size and window, a
    second update with no key down returns the position that the first one
    produced, whatever the sizes, the flags and the speed of the first, and
    for infinite coordinates as well. *)
Theorem position_updater_settles
  (speed speed' size W H : float) (i : MovementIntent) (p : Position) :
  real speed = true -> real size = true -> real W = true -> real H = true ->
  ordered (squareX p) = true -> ordered (squareY p) = true ->
  let p' := position_updater speed size W H i p in
  position_updater speed' size W H noIntent p' = p'.
Proof.
  intros Hsp Hs HW HH Ox Oy p'. unfold p'. rewrite !position_updater_axes.
  cbn [squareX squareY noIntent movingLeft movingRight movingUp movingDown move_axis].
  rewrite !clamp_axis_idempotent;
    try assumption; try (apply move_axis_ordered; assumption). reflexivity.
Qed.

Lemma position_updater_settles_witness :
  let p' := position_updater moveSpeed size300 window800 window600 rightIntent
              {| squareX := after500; squareY := after500 |} in
  position_updater moveSpeed size300 window800 window600 noIntent p' = p'.
Proof.
  apply (position_updater_settles moveSpeed moveSpeed size300 window800 window600
           rightIntent {| squareX := after500; squareY := after500 |}); reflexivity.
Defined.

(** X10: The update brings every position back into the window: with a
    finite speed and a finite size that fits in the window, the result has
    finite coordinates with [0 <= x <= windowWidth] and
    [0 <= y <= windowHeight], also when the coordinates were infinite or the
    move overflowed. *)
Theorem position_updater_recovers
  (speed size W H : float) (i : MovementIntent) (p : Position) :
  real speed = true -> real size = true -> real W = true -> real H = true ->
  ordered (squareX p) = true -> ordered (squareY p) = true ->
  0 <= F32.units size <= F32.units W -> F32.units size <= F32.units H ->
  let p' := position_updater speed size W H i p in
  real_position p' = true /\
  F32.leb F32.zero (squareX p') = true /\ F32.leb (squareX p') W = true /\
  F32.leb F32.zero (squareY p') = true /\ F32.leb (squareY p') H = true.
Proof.
  intros Hsp Hs HW HH Ox Oy Hw Hh p'. unfold p'. rewrite position_updater_axes.
  unfold real_position. cbn [squareX squareY].
  destruct (clamp_axis_window size W
              (move_axis speed (movingLeft i) (movingRight i) (squareX p)))
    as [Rx [X0 X1]]; try assumption; try (apply move_axis_ordered; assumption).
  destruct (clamp_axis_window size H
              (move_axis speed (movingUp i) (movingDown i) (squareY p)))
    as [Ry [Y0 Y1]]; try assumption; try (apply move_axis_ordered; assumption); try lia.
  rewrite Rx, Ry. repeat split; assumption.
Qed.

Lemma position_updater_recovers_witness :
  F32.is_finite (F32.add max_float max_float) = false /\
  position_updater max_float squareSize window800 window600 allIntents overflowPosition =
  {| squareX := F32.of_Z 750; squareY := F32.zero |} /\
  let p' := position_updater max_float squareSize window800 window600 rightIntent
              overflowPosition in
  real_position p' = true /\
  F32.leb F32.zero (squareX p') = true /\ F32.leb (squareX p') window800 = true /\
  F32.leb F32.zero (squareY p') = true /\ F32.leb (squareY p') window600 = true.
Proof.
  split; [reflexivity|]. split; [vm_compute; reflexivity|].
  apply (position_updater_recovers max_float squareSize window800 window600 rightIntent
           overflowPosition); try reflexivity; vm_compute; try split; discriminate.
Defined.

(** X13: A NaN is never repaired: whatever the flags, the speed, the size
    and the window, a coordinate that is a NaN is a NaN after the update,
    since every comparison with it is false. *)
Theorem position_updater_keeps_nan
  (speed size W H : float) (i : MovementIntent) (p : Position) :
  (squareX p = S754_nan ->
   squareX (position_updater speed size W H i p) = S754_nan) /\
  (squareY p = S754_nan ->
   squareY (position_updater speed size W H i p) = S754_nan).
Proof.
  rewrite position_updater_axes. cbn [squareX squareY].
  split; intros ->; rewrite move_axis_nan; apply clamp_axis_nan.
Qed.

(** ** What is drawn *)

Lemma rect_ok_frame_trace (freq : Z) (g : Game) (f : Frame) :
  real_position (position g) = true ->
  forallb rect_ok (frame_trace window800 window600 freq g f) = true /\
  real_position (position (frame_state window800 window600 g f)) = true.
Proof.
  intros Hp. unfold frame_trace, frame_state.
  destruct (update_in_bounds (drain_events g (queue f))) as [Hb Hr];
    [rewrite position_drain_events; exact Hp|].
  split; [|exact Hr].
  set (q := position (update window800 window600 (drain_events g (queue f)))) in *.
  rewrite forallb_app. apply andb_true_intro. split.
  - unfold render. cbn [forallb rect_ok]. destruct q as [x y].
    cbn [squareX squareY]. unfold real_position in Hr. cbn [squareX squareY] in Hr.
    rewrite Hr, Hb. reflexivity.
  - destruct (frame_pace freq f); reflexivity.
Qed.

Lemma rect_ok_loop_trace (freq : Z) (fs : list Frame) (g : Game) :
  real_position (position g) = true ->
  forallb rect_ok (loop_trace window800 window600 freq g fs) = true.
Proof.
  revert g. induction fs as [ | f fs IH]; intros g Hp; cbn [loop_trace]; [reflexivity|].
  destruct (rect_ok_frame_trace freq g f Hp) as [Hf Hr].
  rewrite forallb_app, Hf, (IH _ Hr). reflexivity.
Qed.

(** X1: In a window of 800x600 every rectangle that a run draws is the
    50x50 square at finite coordinates with [0 <= x <= 750] and
    [0 <= y <= 550], whatever the events, the counter readings and the
    number of frames, and however the run ends. *)
Theorem main_draws_within_window (w : World) :
  windowWidthInt w = 800 -> windowHeightInt w = 600 ->
  forallb rect_ok (trace_of (main w)) = true.
Proof.
  intros HW HH.
  destruct (main_cases w) as [E | [E | [E | [pre [f [post [_ E]]]]]]]; rewrite E;
    cbn [trace_of]; try reflexivity; rewrite HW, HH; fold window800 window600.
  - cbn [app forallb rect_ok andb]. apply rect_ok_loop_trace. reflexivity.
  - cbn [app forallb rect_ok andb]. rewrite !forallb_app.
    rewrite rect_ok_loop_trace by reflexivity.
    destruct (loop_state_in_bounds pre) as [_ Hr].
    destruct (rect_ok_frame_trace (frequency w) _ f Hr) as [Hf _]. rewrite Hf.
    reflexivity.
Qed.

Lemma main_draws_within_window_witness :
  windowWidthInt quit_world = 800 /\ windowHeightInt quit_world = 600 /\
  existsb (fun a => match a with SDL_RenderFillRect _ _ _ _ => true | _ => false end)
          (trace_of (main quit_world)) = true /\
  forallb rect_ok (trace_of (main quit_world)) = true.
Proof.
  split; [reflexivity|]. split; [reflexivity|]. split; [vm_compute; reflexivity|].
  apply (main_draws_within_window quit_world); reflexivity.
Defined.

(** ** Rounding to nearest is monotone *)

Lemma round_exp_mono (S1 S2 : Z) : 0 < S2 <= S1 -> 0 <= round_exp S2 <= round_exp S1.
Proof.
  intros HS. unfold round_exp. split; [lia|].
  pose proof (Zdigits2_bounds S1 ltac:(lia)) as [_ H1].
  pose proof (Zdigits2_bounds S2 ltac:(lia)) as [H2 _].
  pose proof (Zdigits2_pos S1 ltac:(lia)). pose proof (Zdigits2_pos S2 ltac:(lia)).
  destruct (Z.le_gt_cases (Zdigits2 S2) (Zdigits2 S1)) as [Hle | Hgt]; [lia|].
  assert (2 ^ Zdigits2 S1 <= 2 ^ (Zdigits2 S2 - 1)) by (apply Z.pow_le_mono_r; lia).
  lia.
Qed.

Lemma nearest_monotone (S1 S2 : Z) (r1 r2 : float) :
  0 < S2 <= S1 -> rounds_nearest S1 r1 -> rounds_nearest S2 r2 ->
  F32.is_finite r1 = true -> F32.is_finite r2 = true ->
  F32.units r2 <= F32.units r1.
Proof.
  intros HS N1 N2 F1 F2. unfold rounds_nearest in N1, N2.
  rewrite Z.abs_eq in N1, N2 by lia.
  replace (S1 <? 0) with false in N1 by (symmetry; apply Z.ltb_ge; lia).
  replace (S2 <? 0) with false in N2 by (symmetry; apply Z.ltb_ge; lia).
  pose proof (round_exp_mono S1 S2 HS) as HT.
  pose proof (Zdigits2_bounds S1 ltac:(lia)) as [L1 U1].
  pose proof (Zdigits2_bounds S2 ltac:(lia)) as [L2 U2].
  assert (D1 : round_exp S1 = Z.max (Zdigits2 S1 - 24) 0) by reflexivity.
  assert (D2 : round_exp S2 = Z.max (Zdigits2 S2 - 24) 0) by reflexivity.
  set (T1 := round_exp S1) in *. set (T2 := round_exp S2) in *.
  destruct N1 as [m1 [Hm1 Hr1]]. destruct N2 as [m2 [Hm2 Hr2]].
  rewrite (rounded_units _ _ _ Hr1 F1), (rounded_units _ _ _ Hr2 F2).
  replace (T1 - 149 + 149) with T1 by lia. replace (T2 - 149 + 149) with T2 by lia.
  clearbody T1 T2.
  assert (PT1 : 0 < 2 ^ T1) by (apply Z.pow_pos_nonneg; lia).
  assert (PT2 : 0 < 2 ^ T2) by (apply Z.pow_pos_nonneg; lia).
  pose proof (Z.div_mod S1 (2 ^ T1) ltac:(lia)) as E1.
  pose proof (Z.mod_pos_bound S1 (2 ^ T1) PT1) as M1.
  pose proof (Z.div_mod S2 (2 ^ T2) ltac:(lia)) as E2.
  pose proof (Z.mod_pos_bound S2 (2 ^ T2) PT2) as M2.
  assert (Hq1 : 2 ^ T1 * 2 ^ 23 <= S1 -> 2 ^ 23 <= S1 / 2 ^ T1)
    by (intros A; apply Z.div_le_lower_bound; lia).
  assert (Hq : T1 = T2 -> S2 / 2 ^ T2 <= S1 / 2 ^ T1)
    by (intros ->; apply Z.div_le_mono; lia).
  revert Hm1 Hm2 E1 M1 E2 M2 Hq1 Hq.
  generalize (S1 / 2 ^ T1) (S1 mod 2 ^ T1) (S2 / 2 ^ T2) (S2 mod 2 ^ T2).
  intros q1 x1 q2 x2 Hm1 Hm2 E1 M1 E2 M2 Hq1 Hq.
  assert (B1 : q1 <= m1 <= q1 + 1)
    by (unfold nearest_even in Hm1; destruct Hm1 as [[-> _] | [-> _]]; lia).
  assert (B2 : q2 <= m2 <= q2 + 1)
    by (unfold nearest_even in Hm2; destruct Hm2 as [[-> _] | [-> _]]; lia).
  destruct (Z.eq_dec T1 T2) as [ET | NT].
  - (* the same exponent *)
    specialize (Hq ET). rewrite ET in *. apply Z.mul_le_mono_nonneg_r; [lia|].
    destruct (Z.eq_dec q1 q2) as [Eq | Nq]; [|lia].
    subst q1. assert (Hx : x2 <= x1) by lia.
    unfold nearest_even in Hm1, Hm2.
    destruct Hm1 as [[-> [A1 | [A1 A1']]] | [-> _]];
      destruct Hm2 as [[-> _] | [-> [A2 | [A2 A2']]]]; try lia; congruence.
  - (* a power of two lies between the two exact results *)
    assert (HT1 : T1 = Zdigits2 S1 - 24) by lia.
    assert (HT2 : Zdigits2 S2 <= T2 + 24) by lia.
    assert (EB : 2 ^ (T1 + 23) = 2 ^ 23 * 2 ^ T1) by (rewrite Z.pow_add_r by lia; lia).
    assert (EK : 2 ^ (T1 + 23) = 2 ^ (T1 + 23 - T2) * 2 ^ T2)
      by (rewrite <- Z.pow_add_r by lia; f_equal; lia).
    assert (PK : 0 < 2 ^ (T1 + 23 - T2)) by (apply Z.pow_pos_nonneg; lia).
    assert (LB : 2 ^ (T1 + 23) <= S1)
      by (replace (T1 + 23) with (Zdigits2 S1 - 1) by lia; exact L1).
    assert (UB : S2 < 2 ^ (T1 + 23)).
    { assert (2 ^ Zdigits2 S2 <= 2 ^ (T1 + 23)) by (apply Z.pow_le_mono_r; lia). lia. }
    set (K := 2 ^ (T1 + 23 - T2)) in *.
    specialize (Hq1 ltac:(lia)).
    assert (Hq2 : q2 + 1 <= K) by nia.
    assert (m2 * 2 ^ T2 <= K * 2 ^ T2) by (apply Z.mul_le_mono_nonneg_r; lia).
    assert (2 ^ 23 * 2 ^ T1 <= m1 * 2 ^ T1) by (apply Z.mul_le_mono_nonneg_r; lia).
    lia.
Qed.

(** ** A longer frame does not wait longer *)

Lemma frame_pacer_delay_of (elapsed : float) :
  F32.valid elapsed = true -> F32.sign_clear elapsed = true ->
  (F32.ltb elapsed targetFrameTimeMS = false -> frame_pacer elapsed = NoDelay) /\
  0 <= delay_of (frame_pacer elapsed).
Proof.
  intros Ve Se. destruct (F32.ltb elapsed targetFrameTimeMS) eqn:Hlt.
  - split; [discriminate|].
    destruct (frame_pacer_delay elapsed Ve Se Hlt) as [-> [_ [_ [H0 _]]]]. exact H0.
  - unfold frame_pacer. rewrite Hlt. split; [reflexivity | cbn; lia].
Qed.

(** X14: The pacer is monotone: of two measured times (not negative, not
    NaN), the longer one is never given the longer delay. *)
Theorem frame_pacer_monotone (e1 e2 : float) :
  F32.valid e1 = true -> F32.sign_clear e1 = true ->
  F32.valid e2 = true -> F32.sign_clear e2 = true ->
  F32.leb e1 e2 = true ->
  delay_of (frame_pacer e2) <= delay_of (frame_pacer e1).
Proof.
  intros V1 S1 V2 S2 Hle.
  destruct (frame_pacer_delay_of e1 V1 S1) as [_ P1].
  destruct (F32.ltb e2 targetFrameTimeMS) eqn:Hlt2.
  - destruct targetFrameTimeMS_units as [Rt Ut].
    pose proof (real_elim _ Rt) as [Vt [Ft Nt]].
    destruct (sign_clear_units e2 V2 S2 Hlt2) as [R2 U2].
    destruct (leb_true_not_nan _ _ Hle) as [N1 N2].
    pose proof (real_elim _ R2) as [_ [F2 _]].
    rewrite (leb_ord e1 e2 V1 V2 N1 N2) in Hle. apply Z.leb_le in Hle.
    rewrite (finite_ord e2 F2) in Hle.
    assert (Hlt1 : F32.ltb e1 targetFrameTimeMS = true).
    { rewrite (ltb_ord e1 _ V1 Vt N1 Nt). apply Z.ltb_lt. rewrite (finite_ord _ Ft). lia. }
    destruct (sign_clear_units e1 V1 S1 Hlt1) as [R1 U1].
    pose proof (real_elim _ R1) as [_ [F1 _]]. rewrite (finite_ord e1 F1) in Hle.
    destruct (frame_pacer_delay e1 V1 S1 Hlt1) as [-> _].
    destruct (frame_pacer_delay e2 V2 S2 Hlt2) as [-> _].
    destruct (remainder_spec e1 V1 S1 Hlt1) as [Rd1 _].
    destruct (remainder_spec e2 V2 S2 Hlt2) as [Rd2 _].
    cbn [delay_of]. apply Z.div_le_mono; [reflexivity|].
    apply (nearest_monotone (F32.units targetFrameTimeMS - F32.units e1)
                            (F32.units targetFrameTimeMS - F32.units e2)).
    + lia.
    + apply sub_nearest; [exact Rt | exact R1 | lia].
    + apply sub_nearest; [exact Rt | exact R2 | lia].
    + apply real_elim in Rd1. tauto.
    + apply real_elim in Rd2. tauto.
  - destruct (frame_pacer_delay_of e2 V2 S2) as [E2 _]. rewrite (E2 Hlt2).
    exact P1.
Qed.

Lemma frame_pacer_monotone_witness :
  F32.leb (F32.of_Z 5) tenth = false /\ F32.leb tenth (F32.of_Z 5) = true /\
  delay_of (frame_pacer (F32.of_Z 5)) <= delay_of (frame_pacer tenth).
Proof.
  split; [reflexivity|]. split; [reflexivity|].
  apply (frame_pacer_monotone tenth (F32.of_Z 5)); reflexivity.
Defined.

(** ** The counter may wrap around *)

(** X15: The difference of the two counter readings is taken in [Uint64],
    so that a counter that wraps around between the two readings is
    measured as one that does not: the elapsed time depends only on the
    number of ticks between the readings. *)
Theorem elapsedMS_counter_wraps (start ticks freq : Z) :
  0 <= ticks < 2 ^ 64 ->
  elapsedMS start (Uint64 (start + ticks)) freq = elapsedMS 0 ticks freq /\
  frame_pace freq {| queue := []; frameStart := start;
                     frameEnd := Uint64 (start + ticks) |} =
  frame_pace freq {| queue := []; frameStart := 0; frameEnd := ticks |}.
Proof.
  intros Ht.
  assert (E : Uint64 (Uint64 (start + ticks) - start) = Uint64 (ticks - 0)).
  { unfold Uint64. rewrite Zminus_mod_idemp_l. f_equal. lia. }
  unfold frame_pace. cbn [frameStart frameEnd]. unfold elapsedMS. rewrite E.
  split; reflexivity.
Qed.

Lemma elapsedMS_counter_wraps_witness :
  Uint64 (2 ^ 64 - 1000 + 5000000) = 4999000 /\
  elapsedMS 0 5000000 1000000000 = F32.of_Z 5 /\
  elapsedMS (2 ^ 64 - 1000) (Uint64 (2 ^ 64 - 1000 + 5000000)) 1000000000 =
  elapsedMS 0 5000000 1000000000 /\
  frame_pace 1000000000 {| queue := []; frameStart := 2 ^ 64 - 1000;
                           frameEnd := Uint64 (2 ^ 64 - 1000 + 5000000) |} =
  frame_pace 1000000000 {| queue := []; frameStart := 0; frameEnd := 5000000 |}.
Proof.
  split; [reflexivity|]. split; [vm_compute; reflexivity|].
  apply (elapsedMS_counter_wraps (2 ^ 64 - 1000) 5000000 1000000000).
  vm_compute. split; [discriminate | reflexivity].
Defined.
